(** * The static dependency-injection container (StaticInjector)

    A shallow embedding of [packages/core/src/di/injector.ts]: the provider
    table builder ([resolveProvider], [computeDeps],
    [recursivelyProcessProviders]), the resolution engine ([resolveToken],
    [tryResolveToken]) and the facade ([StaticInjector.get],
    [_NullInjector.get]), followed by the properties of the container. *)

From Stdlib Require Import ZArith NArith String Ascii.
From stdpp Require Import base option list gmap.

Set Warnings "-register-all,-clear-no-such-hyp".
Local Open Scope Z_scope.

(** ** Strings

    A JavaScript string is a sequence of UTF-16 code units. *)

Definition jsstring := list N.

Definition js (s : string) : jsstring :=
  (λ a, N_of_ascii a) <$> list_ascii_of_string s.

(** ['\n'] and the constant [NO_NEW_LINE = 'ɵ'] (U+0275). *)
Definition LF : N := 10%N.
Definition NO_NEW_LINE : jsstring := [629%N].

(** [Array.prototype.join]. *)
Fixpoint join (sep : jsstring) (parts : list jsstring) : jsstring :=
  match parts with
  | [] => []
  | [p] => p
  | p :: rest => p ++ sep ++ join sep rest
  end.

(** [text.replace(/\n/gm, by)]: every line feed is replaced. *)
Definition replace_NEW_LINE (by_ : jsstring) (text : jsstring) : jsstring :=
  text ≫= (λ c, if (c =? LF)%N then by_ else [c]).

(** ** Tokens and values *)

(** A token is an opaque identity. Only three things are ever asked of it:
    whether it is the same object as another token, whether
    [typeof token == 'function'], and its [stringify] text. Provider objects
    are tokens too: a multi provider is registered under the provider literal
    itself. *)
Inductive Token :=
| TFunction (id : nat)     (* a class or function *)
| TObject (id : nat)       (* an InjectionToken or any other truthy non-function *)
| TProvider (oid : nat).   (* a provider literal, by object identity *)

#[global] Instance Token_eq_dec : EqDecision Token.
Proof. solve_decision. Defined.

#[global] Instance Token_countable : Countable Token.
Proof.
  refine (inj_countable'
    (λ t, match t with
          | TFunction n => inl n
          | TObject n => inr (inl n)
          | TProvider n => inr (inr n)
          end)
    (λ s, match s with
          | inl n => TFunction n
          | inr (inl n) => TObject n
          | inr (inr n) => TProvider n
          end) _).
  by intros [].
Defined.

(** The abstract class [Injector], used as the token of the injector itself. *)
Definition Injector_token : Token := TFunction 0.

Definition is_function (t : Token) : bool :=
  match t with TFunction _ => true | _ => false end.

(** Values that providers, factories and callers exchange. Objects are
    compared by identity; [_THROW_IF_NOT_FOUND] is exported, so callers can
    pass it. The module-private objects [EMPTY] and [CIRCULAR] are not values
    a caller can hold: they only occur in the cache slot (see [slot]). *)
Inductive val :=
| VUndefined
| VNull
| VNumber (n : Z)
| VObject (id : nat)
| THROW_IF_NOT_FOUND
| VInjector (self : nat)           (* a StaticInjector instance *)
| VArray (items : list val).       (* an array made by MULTI_PROVIDER_FN *)

(** An [Error] object with the two expando properties the injector uses.
    [None] stands for an absent (or null) property. *)
Record Error := mkError {
  message : jsstring;
  ngTempTokenPath : option (list Token);
  ngTokenPath : option (list Token)
}.

Definition new_Error (msg : jsstring) : Error := mkError msg None None.

(** What a [throw] carries: an [Error], or any other value. *)
Inductive thrown :=
| ThrownError (e : Error)
| ThrownValue (v : val).

(** Outcome of calling a user function. *)
Inductive callres :=
| Returns (v : val)
| Throws (x : thrown).

(** ** Records *)

(** [const enum OptionFlags]. *)
Definition Optional : Z := Z.shiftl 1 0.
Definition CheckSelf : Z := Z.shiftl 1 1.
Definition CheckParent : Z := Z.shiftl 1 2.
Definition Default : Z := Z.lor CheckSelf CheckParent.

(** Truthiness of [options & flag]. *)
Definition has_flag (options flag : Z) : bool := negb (Z.land options flag =? 0).

Record DependencyRecord := mkDep {
  token : Token;
  options : Z
}.

(** The function stored in a record: one of the two module functions, or a
    user function (factory or class) by identity. *)
Inductive fnref :=
| IDENT
| MULTI_PROVIDER_FN
| UserFn (id : nat).

#[global] Instance fnref_eq_dec : EqDecision fnref.
Proof. solve_decision. Defined.

(** The cache slot [Record.value]. [EMPTY] (a private array) marks a value
    not computed yet and [CIRCULAR] (the private function [IDENT]) one under
    construction; anything else is the cached value, [undefined] and [null]
    included. *)
Inductive slot :=
| EMPTY
| CIRCULAR
| Value (v : val).

Record Record_ := mkRecord {
  fn : fnref;
  useNew : bool;
  deps : list DependencyRecord;
  value : slot
}.

Definition set_value (r : Record_) (s : slot) : Record_ :=
  mkRecord (fn r) (useNew r) (deps r) s.

(** ** Provider descriptions *)

(** One entry of an annotated dependency [[Optional, SkipSelf, Token]].
    An instance of a decorator and the decorator itself are treated alike by
    [computeDeps]. *)
Inductive annotation :=
| AOptional
| ASkipSelf
| ASelf
| AInject (t : Token)
| AToken (t : Token).

(** One entry of [deps]: a bare token, or an array of annotations (an object
    of its own, which stays the token when no annotation names one). *)
Inductive depDecl :=
| DepToken (t : Token)
| DepArray (self : nat) (annotations : list annotation).

(** A provider literal. [provide = None] is an absent or falsy [provide];
    [useValue = Some v] means the key [useValue] is present, [v] possibly
    [undefined]; the other [use*] fields are [Some] when truthy;
    [providerDeps = None] is an absent [deps]; [multi] is [multi === true]. *)
Record ProviderObj := mkProvider {
  oid : nat;
  provide : option Token;
  useValue : option val;
  useFactory : option nat;
  useExisting : option Token;
  useClass : option nat;
  providerDeps : option (list depDecl);
  multi : bool
}.

Inductive StaticProvider :=
| PFalsy                               (* null, undefined, or another falsy entry *)
| PArray (items : list StaticProvider)
| PFunction (id : nat)                 (* a bare class or function *)
| PObject (p : ProviderObj)
| POther.                              (* any other truthy value *)

(** What [formatError] is asked to describe. *)
Inductive ErrObj :=
| ObjPath (path : list Token)
| ObjToken (t : Token)
| ObjProvider (p : StaticProvider)
| ObjNull.

(** ** The host environment

    [stringify] (from [../util]) and the rendering of a non-array object in
    [formatError] depend on reflection; user functions are arbitrary
    JavaScript. They are the interface the container is verified against. *)
Class Host := {
  stringify : Token → jsstring;
  (* formatError's context for an object that is not an array *)
  objContext : ErrObj → jsstring;
  (* String(v), as used by [new Error(v)] *)
  String_ : val → jsstring;
  (* fn.apply(undefined, args) for a user function *)
  apply_fn : nat → list val → callres;
  (* new fn(...args) *)
  construct : fnref → list val → callres
}.

(** Modelled from the spec: [resolveForwardRef] of [./forward_ref], which is
    not among the sources. A forward reference is a deferred accessor that is
    unwrapped to its target before storage; entities are represented here by
    their targets, so unwrapping returns its argument. *)
Definition resolveForwardRef {A : Type} (x : A) : A := x.

(** ** Errors raised while the table is built *)

Section Errors.
Context `{Host}.

Definition formatError (text : jsstring) (obj : ErrObj) : jsstring :=
  let text :=
    match text with
    | c0 :: c1 :: rest =>
        if ((c0 =? LF) && (c1 =? 629))%N then rest else text
    | _ => text
    end in
  let context :=
    match obj with
    | ObjPath path => join (js " -> ") (stringify <$> path)
    | _ => objContext obj
    end in
  js "StaticInjectorError[" ++ context ++ js "]: "
    ++ replace_NEW_LINE (LF :: js "  ") text.

Definition staticError (text : jsstring) (obj : ErrObj) : Error :=
  new_Error (formatError text obj).

Definition multiProviderMixError (t : Token) : Error :=
  staticError (js "Cannot mix multi providers and regular providers") (ObjToken t).

End Errors.

(** ** Dependency List Compiler and Provider Resolver *)

Section Build.
Context `{Host}.

(** One step of the loop over the annotations of a dependency. *)
Definition annotate (acc : Token * Z) (a : annotation) : Token * Z :=
  let '(token, options) := acc in
  match a with
  | AOptional => (token, Z.lor options Optional)
  | ASkipSelf => (token, Z.land options (Z.lnot CheckSelf))
  | ASelf => (token, Z.land options (Z.lnot CheckParent))
  | AInject t => (t, options)
  | AToken t => (resolveForwardRef t, options)
  end.

(** The body of the loop over [providerDeps]. *)
Definition computeDep (d : depDecl) : DependencyRecord :=
  match resolveForwardRef d with
  | DepToken t => mkDep t Default
  | DepArray self annotations =>
      let '(token, options) := foldl annotate (TObject self, Default) annotations in
      mkDep token options
  end.

Definition computeDeps (provider : ProviderObj) : Error + list DependencyRecord :=
  match providerDeps provider with
  | Some (d :: ds) => inr (computeDep <$> (d :: ds))
  | providerDeps =>
      match useExisting provider with
      | Some t => inr [mkDep (resolveForwardRef t) Default]
      | None =>
          match providerDeps, useValue provider with
          | None, None =>
              (* useValue & useExisting are the only ones exempt from deps *)
              inl (staticError (js "'deps' required") (ObjProvider (PObject provider)))
          | _, _ => inr []
          end
      end
  end.

Definition resolveProvider (provider : ProviderObj) : Error + Record_ :=
  match computeDeps provider with
  | inl e => inl e
  | inr deps =>
      let provide := resolveForwardRef (provide provider) in
      match useValue provider with
      | Some v => inr (mkRecord IDENT false deps (Value v))
      | None =>
      match useFactory provider with
      | Some f => inr (mkRecord (UserFn f) false deps EMPTY)
      | None =>
      match useExisting provider with
      | Some _ => inr (mkRecord IDENT false deps EMPTY)
      | None =>
      match useClass provider with
      | Some c => inr (mkRecord (UserFn (resolveForwardRef c)) true deps EMPTY)
      | None =>
      match provide with
      | Some (TFunction f) => inr (mkRecord (UserFn f) true deps EMPTY)
      | _ =>
          inl (staticError
                 (js "StaticProvider does not have [useValue|useFactory|useExisting|useClass] or [provide] is not newable")
                 (ObjProvider (PObject provider)))
      end end end end end
  end.

(** ** Provider Table Builder *)

(** The branch of [recursivelyProcessProviders] for something that looks
    like a provider, [{provide: token, ...}]. The record of a multi
    provider is stored under the provider literal itself, and the
    placeholder of [token] gets one more dependency, on that literal. *)
Definition processProvider (records : gmap Token Record_) (provider : ProviderObj)
    (token : Token) : Error + gmap Token Record_ :=
  match resolveProvider provider with
  | inl e => inl e
  | inr resolvedProvider =>
      let multiStep : Error + (gmap Token Record_ * Token) :=
        if multi provider then
          let dep := mkDep (TProvider (oid provider)) Default in
          match records !! token with
          | Some multiProvider =>
              if decide (fn multiProvider = MULTI_PROVIDER_FN) then
                inr (<[token := mkRecord (fn multiProvider) (useNew multiProvider)
                                  (deps multiProvider ++ [dep]) (value multiProvider)]> records,
                     TProvider (oid provider))
              else inl (multiProviderMixError token)
          | None =>
              (* a placeholder factory which looks up the constituents *)
              inr (<[token := mkRecord MULTI_PROVIDER_FN false [dep] EMPTY]> records,
                   TProvider (oid provider))
          end
        else inr (records, token) in
      match multiStep with
      | inl e => inl e
      | inr (records, token) =>
          match records !! token with
          | Some record =>
              if decide (fn record = MULTI_PROVIDER_FN)
              then inl (multiProviderMixError token)
              else inr (<[token := resolvedProvider]> records)
          | None => inr (<[token := resolvedProvider]> records)
          end
      end
  end.

Fixpoint recursivelyProcessProviders (records : gmap Token Record_)
    (provider : StaticProvider) : Error + gmap Token Record_ :=
  match resolveForwardRef provider with
  | PFalsy => inr records
  | PArray items =>
      (* if we have an array recurse into the array *)
      (fix loop (records : gmap Token Record_) (items : list StaticProvider) :=
         match items with
         | [] => inr records
         | item :: rest =>
             match recursivelyProcessProviders records item with
             | inl e => inl e
             | inr records => loop records rest
             end
         end) records items
  | PFunction f =>
      inl (staticError (js "Function/Class not supported") (ObjProvider provider))
  | PObject p =>
      match provide p with
      | Some token => processProvider records p (resolveForwardRef token)
      | None => inl (staticError (js "Unexpected provider") (ObjProvider provider))
      end
  | POther => inl (staticError (js "Unexpected provider") (ObjProvider provider))
  end.

End Build.

(** ** Injectors *)

(** An injector is the terminal [_NullInjector] or a [StaticInjector] with
    its own identity, its table and its parent. The table is the only
    mutable part: a call returns the injector it leaves behind. *)
Inductive Injector :=
| NULL_INJECTOR
| StaticInjector (self : nat) (_records : gmap Token Record_) (parent : Injector).

(** How a call ends. [OutOfFuel] is an artefact of the embedding: see
    [Injector_get_total]. *)
Inductive completion (A E : Type) :=
| Normal (a : A)
| Abrupt (e : E)
| OutOfFuel.
Arguments Normal {A E} a.
Arguments Abrupt {A E} e.
Arguments OutOfFuel {A E}.

(** Ghost trace: one event per invocation of a record's [fn]. [ev_depth] is
    the number of parent links between the injector that was asked and the
    one that owns the record. *)
Record event := mkEvent {
  ev_depth : nat;
  ev_token : Token;
  ev_fn : fnref;
  ev_useNew : bool;
  ev_args : list val;
  ev_result : callres
}.

Definition in_parent (ev : event) : event :=
  mkEvent (S (ev_depth ev)) (ev_token ev) (ev_fn ev) (ev_useNew ev) (ev_args ev)
          (ev_result ev).

Section Engine.
Context `{Host}.

(** [_NullInjector.get]; the parameter default replaces an [undefined]
    argument, passed or omitted. *)
Definition NullInjector_get (token : Token) (notFoundValue : val)
    : completion val Error :=
  let notFoundValue :=
    match notFoundValue with
    | VUndefined => THROW_IF_NOT_FOUND
    | v => v
    end in
  match notFoundValue with
  | THROW_IF_NOT_FOUND =>
      Abrupt (new_Error (js "NullInjectorError: No provider for "
                           ++ stringify token ++ js "!"))
  | v => Normal v
  end.

(** [useNew ? new fn(...deps) : fn.apply(obj, deps)]. *)
Definition invoke (fn : fnref) (useNew : bool) (args : list val) : callres :=
  if useNew then construct fn args
  else match fn with
       | IDENT => Returns (default VUndefined (head args))
       | MULTI_PROVIDER_FN => Returns (VArray args)
       | UserFn f => apply_fn f args
       end.

(** The loop of [resolveToken] over [record.deps], for a given way
    [tryResolve] of resolving one dependency; [deps] is the array of
    arguments collected so far. When the dependency is neither found in
    the table nor allowed to go to the parent, the null injector is passed
    instead of [parent], which is then left as it is. *)
Fixpoint resolveDeps
    (tryResolve : Token → option Record_ → gmap Token Record_ → Injector → val →
                  completion val Error * gmap Token Record_ * Injector * list event)
    (depRecords : list DependencyRecord) (deps : list val)
    (records : gmap Token Record_) (parent : Injector)
    : completion (list val) Error * gmap Token Record_ * Injector * list event :=
  match depRecords with
  | [] => (Normal deps, records, parent, [])
  | depRecord :: rest =>
      let options := options depRecord in
      let childRecord :=
        if has_flag options CheckSelf then records !! token depRecord else None in
      let toNull :=
        match childRecord with
        | None => negb (has_flag options CheckParent)
        | Some _ => false
        end in
      let '(r, records, parent', tr) :=
        tryResolve (token depRecord) childRecord records
                   (if toNull then NULL_INJECTOR else parent)
                   (if has_flag options Optional then VNull else THROW_IF_NOT_FOUND) in
      let parent := if toNull then parent else parent' in
      match r with
      | Normal v =>
          let '(r, records, parent, tr') :=
            resolveDeps tryResolve rest (deps ++ [v]) records parent in
          (r, records, parent, tr ++ tr')
      | Abrupt e => (Abrupt e, records, parent, tr)
      | OutOfFuel => (OutOfFuel, records, parent, tr)
      end
  end.

(** The catch block of [tryResolveToken]: [record] is the object stored
    under [token], so [record.value] is read from (and reset in) the table
    as it is now. *)
Definition resetCircular (token : Token) (record : option Record_)
    (records : gmap Token Record_) : gmap Token Record_ :=
  match record, records !! token with
  | Some _, Some r =>
      match value r with
      | CIRCULAR => <[token := set_value r EMPTY]> records
      | _ => records
      end
  | _, _ => records
  end.

Definition addToPath (token : Token) (x : thrown) : Error :=
  (* ensure that 'e' is of type Error. *)
  let e := match x with
           | ThrownError e => e
           | ThrownValue v => new_Error (String_ v)
           end in
  mkError (message e) (Some (token :: default [] (ngTempTokenPath e)))
          (ngTokenPath e).

(** The catch block of [StaticInjector.get]. *)
Definition decorate (e : Error) : Error :=
  let tokenPath := ngTempTokenPath e in
  mkError (formatError (LF :: message e)
                       (match tokenPath with
                        | Some path => ObjPath path
                        | None => ObjNull
                        end))
          None tokenPath.

(** [Injector.get], [tryResolveToken] and [resolveToken]. The argument
    [record] is the record found under [token] (or nothing); its [value]
    is written through the table. *)
Fixpoint Injector_get (fuel : nat) (inj : Injector) (token : Token)
    (notFoundValue : val) {struct fuel}
    : completion val Error * Injector * list event :=
  match fuel with
  | O => (OutOfFuel, inj, [])
  | S fuel =>
      match inj with
      | NULL_INJECTOR => (NullInjector_get token notFoundValue, NULL_INJECTOR, [])
      | StaticInjector self records parent =>
          let record := records !! token in
          let '(r, records, parent, tr) :=
            tryResolveToken fuel token record records parent notFoundValue in
          match r with
          | Normal v => (Normal v, StaticInjector self records parent, tr)
          | Abrupt e => (Abrupt (decorate e), StaticInjector self records parent, tr)
          | OutOfFuel => (OutOfFuel, StaticInjector self records parent, tr)
          end
      end
  end

with tryResolveToken (fuel : nat) (token : Token) (record : option Record_)
    (records : gmap Token Record_) (parent : Injector) (notFoundValue : val)
    {struct fuel}
    : completion val Error * gmap Token Record_ * Injector * list event :=
  match fuel with
  | O => (OutOfFuel, records, parent, [])
  | S fuel =>
      let '(r, records, parent, tr) :=
        resolveToken fuel token record records parent notFoundValue in
      match r with
      | Normal v => (Normal v, records, parent, tr)
      | Abrupt x =>
          (Abrupt (addToPath token x), resetCircular token record records, parent, tr)
      | OutOfFuel => (OutOfFuel, records, parent, tr)
      end
  end

with resolveToken (fuel : nat) (token : Token) (record : option Record_)
    (records : gmap Token Record_) (parent : Injector) (notFoundValue : val)
    {struct fuel}
    : completion val thrown * gmap Token Record_ * Injector * list event :=
  match fuel with
  | O => (OutOfFuel, records, parent, [])
  | S fuel =>
      match record with
      | Some record =>
          match value record with
          | CIRCULAR =>
              (Abrupt (ThrownError (new_Error (NO_NEW_LINE ++ js "Circular dependency"))),
               records, parent, [])
          | EMPTY =>
              let records := <[token := set_value record CIRCULAR]> records in
              let '(r, records, parent, tr) :=
                resolveDeps (tryResolveToken fuel) (deps record) [] records parent in
              match r with
              | Normal args =>
                  let res := invoke (fn record) (useNew record) args in
                  let tr := tr ++ [mkEvent 0 token (fn record) (useNew record) args res] in
                  match res with
                  | Returns v =>
                      (Normal v, <[token := set_value record (Value v)]> records, parent, tr)
                  | Throws x => (Abrupt x, records, parent, tr)
                  end
              | Abrupt e => (Abrupt (ThrownError e), records, parent, tr)
              | OutOfFuel => (OutOfFuel, records, parent, tr)
              end
          | Value v => (Normal v, records, parent, [])
          end
      | None =>
          let '(r, parent, tr) := Injector_get fuel parent token notFoundValue in
          let tr := in_parent <$> tr in
          match r with
          | Normal v => (Normal v, records, parent, tr)
          | Abrupt e => (Abrupt (ThrownError e), records, parent, tr)
          | OutOfFuel => (OutOfFuel, records, parent, tr)
          end
      end
  end.

End Engine.

(** ** The facade *)

(** Fuel that always suffices ([Injector_get_total]): every frame of
    [resolveToken] marks one more record of its table, and a delegation
    moves to the parent. *)
Fixpoint fuel_of (inj : Injector) : nat :=
  match inj with
  | NULL_INJECTOR => 1
  | StaticInjector _ records parent => 3 + 2 * size records + fuel_of parent
  end.

Section Facade.
Context `{Host}.

(** [injector.get(token, notFoundValue)]; an omitted [notFoundValue] is
    [VUndefined]. *)
Definition get (inj : Injector) (token : Token) (notFoundValue : val)
    : completion val Error * Injector * list event :=
  Injector_get (fuel_of inj) inj token notFoundValue.

(** [new StaticInjector(providers, parent)], for the object identity
    [self] of the new instance. *)
Definition StaticInjector_new (self : nat) (providers : list StaticProvider)
    (parent : Injector) : Error + Injector :=
  let records : gmap Token Record_ :=
    <[Injector_token := mkRecord IDENT false [] (Value (VInjector self))]> ∅ in
  match recursivelyProcessProviders records (PArray providers) with
  | inl e => inl e
  | inr records => inr (StaticInjector self records parent)
  end.



End Facade.

Local Close Scope Z_scope.

(** * Properties *)

(** ** One step of each function *)

Section Unfold.
Context `{Host}.

Lemma Injector_get_S fuel inj token nf :
  Injector_get (S fuel) inj token nf =
  match inj with
  | NULL_INJECTOR => (NullInjector_get token nf, NULL_INJECTOR, [])
  | StaticInjector self records parent =>
      let '(r, records, parent, tr) :=
        tryResolveToken fuel token (records !! token) records parent nf in
      match r with
      | Normal v => (Normal v, StaticInjector self records parent, tr)
      | Abrupt e => (Abrupt (decorate e), StaticInjector self records parent, tr)
      | OutOfFuel => (OutOfFuel, StaticInjector self records parent, tr)
      end
  end.
Proof. reflexivity. Qed.

Lemma tryResolveToken_S fuel token record records parent nf :
  tryResolveToken (S fuel) token record records parent nf =
  let '(r, records, parent, tr) := resolveToken fuel token record records parent nf in
  match r with
  | Normal v => (Normal v, records, parent, tr)
  | Abrupt x =>
      (Abrupt (addToPath token x), resetCircular token record records, parent, tr)
  | OutOfFuel => (OutOfFuel, records, parent, tr)
  end.
Proof. reflexivity. Qed.

Lemma resolveToken_S fuel token record records parent nf :
  resolveToken (S fuel) token record records parent nf =
  match record with
  | Some record =>
      match value record with
      | CIRCULAR =>
          (Abrupt (ThrownError (new_Error (NO_NEW_LINE ++ js "Circular dependency"))),
           records, parent, [])
      | EMPTY =>
          let records := <[token := set_value record CIRCULAR]> records in
          let '(r, records, parent, tr) :=
            resolveDeps (tryResolveToken fuel) (deps record) [] records parent in
          match r with
          | Normal args =>
              let res := invoke (fn record) (useNew record) args in
              let tr := tr ++ [mkEvent 0 token (fn record) (useNew record) args res] in
              match res with
              | Returns v =>
                  (Normal v, <[token := set_value record (Value v)]> records, parent, tr)
              | Throws x => (Abrupt x, records, parent, tr)
              end
          | Abrupt e => (Abrupt (ThrownError e), records, parent, tr)
          | OutOfFuel => (OutOfFuel, records, parent, tr)
          end
      | Value v => (Normal v, records, parent, [])
      end
  | None =>
      let '(r, parent, tr) := Injector_get fuel parent token nf in
      let tr := in_parent <$> tr in
      match r with
      | Normal v => (Normal v, records, parent, tr)
      | Abrupt e => (Abrupt (ThrownError e), records, parent, tr)
      | OutOfFuel => (OutOfFuel, records, parent, tr)
      end
  end.
Proof. reflexivity. Qed.

Lemma resolveDeps_cons tryResolve depRecord rest deps records parent :
  resolveDeps tryResolve (depRecord :: rest) deps records parent =
  let options := options depRecord in
  let childRecord :=
    if has_flag options CheckSelf then records !! token depRecord else None in
  let toNull :=
    match childRecord with
    | None => negb (has_flag options CheckParent)
    | Some _ => false
    end in
  let '(r, records, parent', tr) :=
    tryResolve (token depRecord) childRecord records
               (if toNull then NULL_INJECTOR else parent)
               (if has_flag options Optional then VNull else THROW_IF_NOT_FOUND) in
  let parent := if toNull then parent else parent' in
  match r with
  | Normal v =>
      let '(r, records, parent, tr') :=
        resolveDeps tryResolve rest (deps ++ [v]) records parent in
      (r, records, parent, tr ++ tr')
  | Abrupt e => (Abrupt e, records, parent, tr)
  | OutOfFuel => (OutOfFuel, records, parent, tr)
  end.
Proof. reflexivity. Qed.

End Unfold.

(** The record handed to [tryResolveToken] is the one stored under the
    token, when there is one. *)
Definition record_ok (records : gmap Token Record_) (token : Token)
    (record : option Record_) : Prop :=
  ∀ r, record = Some r → records !! token = Some r.

Lemma record_ok_lookup records token : record_ok records token (records !! token).
Proof. by intros r. Qed.

Lemma record_ok_None records token : record_ok records token None.
Proof. by intros r. Qed.

Lemma record_ok_child records (d : DependencyRecord) :
  record_ok records (token d)
    (if has_flag (options d) CheckSelf then records !! token d else None).
Proof. destruct (has_flag _ _); [apply record_ok_lookup | apply record_ok_None]. Qed.

Create HintDb engine.
#[global] Hint Resolve record_ok_lookup record_ok_None record_ok_child : engine.

(** ** More fuel changes nothing *)

Section Fuel.
Context `{Host}.

Lemma resolveDeps_mono
    (try1 try2 : Token → option Record_ → gmap Token Record_ → Injector → val →
                 completion val Error * gmap Token Record_ * Injector * list event) :
  (∀ t rec recs p nf r recs' p' tr,
      try1 t rec recs p nf = (r, recs', p', tr) → r ≠ OutOfFuel →
      try2 t rec recs p nf = (r, recs', p', tr)) →
  ∀ depRecords deps records parent r records' parent' tr,
    resolveDeps try1 depRecords deps records parent = (r, records', parent', tr) →
    r ≠ OutOfFuel →
    resolveDeps try2 depRecords deps records parent = (r, records', parent', tr).
Proof.
  intros Htry depRecords.
  induction depRecords as [|d rest IH]; intros deps records parent r records' parent' tr.
  - done.
  - rewrite !resolveDeps_cons. cbv zeta.
    destruct (try1 _ _ _ _ _) as [[[r1 recs1] p1] tr1] eqn:E1.
    destruct r1 as [v|e|].
    + rewrite (Htry _ _ _ _ _ _ _ _ _ E1) by done.
      destruct (resolveDeps try1 rest _ _ _) as [[[r2 recs2] p2] tr2] eqn:E2.
      intros [= <- <- <- <-] Hr.
      by rewrite (IH _ _ _ _ _ _ _ E2 Hr).
    + rewrite (Htry _ _ _ _ _ _ _ _ _ E1) by done. done.
    + by intros [= <- <- <- <-].
Qed.

Lemma fuel_mono_aux fuel :
  (∀ inj token nf r inj' tr,
      Injector_get fuel inj token nf = (r, inj', tr) → r ≠ OutOfFuel →
      ∀ fuel', (fuel ≤ fuel')%nat → Injector_get fuel' inj token nf = (r, inj', tr)) ∧
  (∀ token record records parent nf r records' parent' tr,
      tryResolveToken fuel token record records parent nf = (r, records', parent', tr) →
      r ≠ OutOfFuel →
      ∀ fuel', (fuel ≤ fuel')%nat →
        tryResolveToken fuel' token record records parent nf = (r, records', parent', tr)) ∧
  (∀ token record records parent nf r records' parent' tr,
      resolveToken fuel token record records parent nf = (r, records', parent', tr) →
      r ≠ OutOfFuel →
      ∀ fuel', (fuel ≤ fuel')%nat →
        resolveToken fuel' token record records parent nf = (r, records', parent', tr)).
Proof.
  induction fuel as [|fuel (IHg & IHt & IHr)].
  { repeat split; intros; simplify_eq/=. }
  repeat split.
  - intros inj token nf r inj' tr Hrun Hr [|fuel'] Hle; [lia|].
    rewrite Injector_get_S in Hrun. rewrite Injector_get_S.
    destruct inj as [|self records parent]; [done|].
    destruct (tryResolveToken fuel _ _ _ _ _) as [[[r1 recs1] p1] tr1] eqn:E1.
    assert (r1 ≠ OutOfFuel) as Hr1 by (destruct r1; naive_solver).
    by rewrite (IHt _ _ _ _ _ _ _ _ _ E1 Hr1 fuel') by lia.
  - intros token record records parent nf r records' parent' tr Hrun Hr [|fuel'] Hle; [lia|].
    rewrite tryResolveToken_S in Hrun. rewrite tryResolveToken_S.
    destruct (resolveToken fuel _ _ _ _ _) as [[[r1 recs1] p1] tr1] eqn:E1.
    assert (r1 ≠ OutOfFuel) as Hr1 by (destruct r1; naive_solver).
    by rewrite (IHr _ _ _ _ _ _ _ _ _ E1 Hr1 fuel') by lia.
  - intros token record records parent nf r records' parent' tr Hrun Hr [|fuel'] Hle; [lia|].
    rewrite resolveToken_S in Hrun. rewrite resolveToken_S.
    destruct record as [record|].
    + destruct (value record); [|done|done].
      cbv zeta in *.
      destruct (resolveDeps (tryResolveToken fuel) _ _ _ _)
        as [[[r1 recs1] p1] tr1] eqn:E1.
      assert (r1 ≠ OutOfFuel) as Hr1 by (destruct r1; naive_solver).
      rewrite (resolveDeps_mono (tryResolveToken fuel) (tryResolveToken fuel')
                 (λ t rec recs p nf r recs' p' tr E Hne,
                    IHt t rec recs p nf r recs' p' tr E Hne fuel' ltac:(lia))
                 _ _ _ _ _ _ _ _ E1 Hr1).
      done.
    + destruct (Injector_get fuel _ _ _) as [[r1 p1] tr1] eqn:E1.
      assert (r1 ≠ OutOfFuel) as Hr1 by (destruct r1; naive_solver).
      by rewrite (IHg _ _ _ _ _ _ E1 Hr1 fuel') by lia.
Qed.

End Fuel.

(** ** Every call returns *)

Definition is_EMPTY (s : slot) : bool :=
  match s with EMPTY => true | _ => false end.

(** The tokens whose record is still to be computed. *)
Definition pending (records : gmap Token Record_) : gset Token :=
  dom (filter (λ kv, is_EMPTY (value kv.2) = true) records).

Lemma elem_of_pending records T :
  T ∈ pending records ↔ ∃ r, records !! T = Some r ∧ value r = EMPTY.
Proof.
  unfold pending. rewrite elem_of_dom. unfold is_Some.
  setoid_rewrite map_lookup_filter_Some. simpl. split.
  - intros (r & Hr & He). exists r. split; [done|]. by destruct (value r).
  - intros (r & Hr & He). exists r. by rewrite He.
Qed.

Lemma pending_insert_not records T r :
  value r ≠ EMPTY → pending (<[T := r]> records) = pending records ∖ {[T]}.
Proof.
  intros Hne. apply set_eq. intros T'.
  rewrite elem_of_difference, !elem_of_pending, elem_of_singleton.
  destruct (decide (T = T')) as [->|Hneq].
  - rewrite lookup_insert_eq. naive_solver.
  - rewrite lookup_insert_ne by done. naive_solver.
Qed.

Lemma pending_size_lookup records T r :
  records !! T = Some r → value r = EMPTY →
  S (size (pending records ∖ {[T]})) = size (pending records).
Proof.
  intros Hr He.
  assert (T ∈ pending records) as Hin by (apply elem_of_pending; eauto).
  rewrite size_difference by set_solver. rewrite size_singleton.
  assert (size (pending records) ≠ 0)%nat; [|lia].
  apply size_non_empty_iff. set_solver.
Qed.

Lemma pending_size_le records : (size (pending records) ≤ size records)%nat.
Proof.
  unfold pending. rewrite size_dom. apply map_subseteq_size, map_filter_subseteq.
Qed.

(** Fuel that a call needs in the state it starts from. *)
Fixpoint need (inj : Injector) : nat :=
  match inj with
  | NULL_INJECTOR => 1
  | StaticInjector _ records parent => 3 + 2 * size (pending records) + need parent
  end.

Lemma need_pos inj : (1 ≤ need inj)%nat.
Proof. destruct inj; simpl; lia. Qed.

Lemma need_fuel_of inj : (need inj ≤ fuel_of inj)%nat.
Proof.
  induction inj as [|self records parent IH]; simpl; [lia|].
  pose proof (pending_size_le records). lia.
Qed.

Definition is_Normal {A E} (c : completion A E) : Prop :=
  match c with Normal _ => True | _ => False end.

Section Total.
Context `{Host}.

(** What the loop needs from the function that resolves one dependency. *)
Definition try_total
    (tryR : Token → option Record_ → gmap Token Record_ → Injector → val →
            completion val Error * gmap Token Record_ * Injector * list event)
    (bound : nat) : Prop :=
  ∀ token record records parent nf r records' parent' tr,
    record_ok records token record →
    (2 * size (pending records) + need parent ≤ bound)%nat →
    tryR token record records parent nf = (r, records', parent', tr) →
    r ≠ OutOfFuel ∧
    (is_Normal r → pending records' ⊆ pending records ∧ (need parent' ≤ need parent)%nat).

Lemma resolveDeps_total tryR bound :
  try_total tryR bound →
  ∀ depRecords deps records parent r records' parent' tr,
    (2 * size (pending records) + need parent ≤ bound)%nat →
    resolveDeps tryR depRecords deps records parent = (r, records', parent', tr) →
    r ≠ OutOfFuel ∧
    (is_Normal r → pending records' ⊆ pending records ∧ (need parent' ≤ need parent)%nat).
Proof.
  intros Htry depRecords.
  induction depRecords as [|d rest IH]; intros deps records parent r records' parent' tr Hb.
  { intros [= <- <- <- <-]. done. }
  rewrite resolveDeps_cons. cbv zeta.
  set (childRecord := if has_flag (options d) CheckSelf then records !! token d else None).
  set (toNull := match childRecord with
                 | None => negb (has_flag (options d) CheckParent)
                 | Some _ => false end).
  destruct (tryR _ _ _ _ _) as [[[r1 recs1] p1] tr1] eqn:E1.
  apply Htry in E1 as [Hne Hnorm]; [|apply record_ok_child|].
  2:{ destruct toNull; simpl; [pose proof (need_pos parent)|]; lia. }
  destruct r1 as [v|e|]; [|by intros [= <- <- <- <-]|done].
  destruct Hnorm as [Hsub Hneed]; [done|].
  destruct (resolveDeps tryR rest _ _ _) as [[[r2 recs2] p2] tr2] eqn:E2.
  intros [= <- <- <- <-].
  assert (need (if toNull then parent else p1) ≤ need parent)%nat as Hp
    by (destruct toNull; lia).
  apply IH in E2 as [Hne2 Hnorm2].
  2:{ apply subseteq_size in Hsub. lia. }
  split; [done|]. intros Hn. destruct (Hnorm2 Hn) as [Hsub2 Hneed2].
  split; [set_solver|lia].
Qed.

Lemma total_aux fuel :
  (∀ inj token nf r inj' tr,
      (need inj ≤ fuel)%nat →
      Injector_get fuel inj token nf = (r, inj', tr) →
      r ≠ OutOfFuel ∧ (is_Normal r → (need inj' ≤ need inj)%nat)) ∧
  try_total (tryResolveToken fuel) (fuel - 2) ∧
  (∀ token record records parent nf r records' parent' tr,
      record_ok records token record →
      (1 + 2 * size (pending records) + need parent ≤ fuel)%nat →
      resolveToken fuel token record records parent nf = (r, records', parent', tr) →
      r ≠ OutOfFuel ∧
      (is_Normal r → pending records' ⊆ pending records ∧ (need parent' ≤ need parent)%nat)).
Proof.
  induction fuel as [|fuel (IHg & IHt & IHr)].
  { split; [|split].
    - intros inj token nf r inj' tr Hb. pose proof (need_pos inj). lia.
    - intros token record records parent nf r records' parent' tr _ Hb.
      pose proof (need_pos parent). lia.
    - intros token record records parent nf r records' parent' tr _ Hb. lia. }
  split; [|split].
  - intros inj token nf r inj' tr Hb. rewrite Injector_get_S.
    destruct inj as [|self records parent].
    { intros [= <- <- <-]. unfold NullInjector_get.
      destruct nf; simpl; done. }
    simpl in Hb.
    destruct (tryResolveToken fuel _ _ _ _ _) as [[[r1 recs1] p1] tr1] eqn:E1.
    apply IHt in E1 as [Hne Hnorm]; [|apply record_ok_lookup|lia].
    destruct r1 as [v|e|]; intros [= <- <- <-]; [|done|done].
    split; [done|]. intros _. destruct Hnorm as [Hsub Hneed]; [done|].
    apply subseteq_size in Hsub. simpl. lia.
  - intros token record records parent nf r records' parent' tr Hok Hb.
    pose proof (need_pos parent).
    rewrite tryResolveToken_S.
    destruct (resolveToken fuel _ _ _ _ _) as [[[r1 recs1] p1] tr1] eqn:E1.
    apply IHr in E1 as [Hne Hnorm]; [|done|lia].
    destruct r1 as [v|e|]; intros [= <- <- <- <-]; done.
  - intros token record records parent nf r records' parent' tr Hok Hb.
    destruct fuel as [|fuel]; [pose proof (need_pos parent); lia|].
    rewrite resolveToken_S.
    destruct record as [rec|].
    + destruct (value rec) eqn:Hv; [|by intros [= <- <- <- <-]..].
      cbv zeta.
      destruct (resolveDeps _ _ _ _ _) as [[[r1 recs1] p1] tr1] eqn:E1.
      assert (records !! token = Some rec) as Hlook by by apply Hok.
      pose proof (pending_size_lookup _ _ _ Hlook Hv) as Hsz.
      apply (resolveDeps_total _ _ IHt) in E1 as [Hne Hnorm].
      2:{ rewrite pending_insert_not by done. lia. }
      rewrite pending_insert_not in Hnorm by done.
      destruct r1 as [args|e|]; [|by intros [= <- <- <- <-]|done].
      destruct Hnorm as [Hsub Hneed]; [done|].
      destruct (invoke _ _ _); intros [= <- <- <- <-]; [|done].
      split; [done|]. intros _. rewrite pending_insert_not by done.
      split; [set_solver|done].
    + destruct (Injector_get (S fuel) _ _ _) as [[r1 p1] tr1] eqn:E1.
      apply IHg in E1 as [Hne Hnorm]; [|lia].
      destruct r1 as [v|e|]; intros [= <- <- <- <-]; [|done|done].
      split; [done|]. intros _. split; [done|]. by apply Hnorm.
Qed.

(** [get] never runs out of fuel. *)
Lemma Injector_get_total inj token nf : (get inj token nf).1.1 ≠ OutOfFuel.
Proof.
  unfold get.
  destruct (Injector_get _ _ _ _) as [[r inj'] tr] eqn:E.
  destruct (total_aux (fuel_of inj)) as (Hg & _ & _).
  apply Hg in E as [Hne _]; [done|apply need_fuel_of].
Qed.

(** Two runs that both return agree, whatever their fuel. *)
Lemma Injector_get_fuel fuel inj token nf r inj' tr :
  Injector_get fuel inj token nf = (r, inj', tr) → r ≠ OutOfFuel →
  get inj token nf = (r, inj', tr).
Proof.
  intros Hrun Hr.
  destruct (get inj token nf) as [[r0 inj0] tr0] eqn:E.
  pose proof (Injector_get_total inj token nf) as Htot. rewrite E in Htot. simpl in Htot.
  unfold get in E.
  destruct (fuel_mono_aux fuel) as (Hm & _ & _).
  destruct (fuel_mono_aux (fuel_of inj)) as (Hm0 & _ & _).
  specialize (Hm _ _ _ _ _ _ Hrun Hr (fuel `max` fuel_of inj) ltac:(lia)).
  specialize (Hm0 _ _ _ _ _ _ E Htot (fuel `max` fuel_of inj) ltac:(lia)).
  congruence.
Qed.

End Total.

(** ** What a call may change *)

(** The record of token [T] in the injector [d] parent links up. *)
Fixpoint record_at (inj : Injector) (d : nat) (T : Token) : option Record_ :=
  match inj with
  | NULL_INJECTOR => None
  | StaticInjector _ records parent =>
      match d with
      | O => records !! T
      | S d => record_at parent d T
      end
  end.

Definition slot_at (inj : Injector) (d : nat) (T : Token) : option slot :=
  value <$> record_at inj d T.

(** [tryResolveToken] sees a table and a parent: the state it works on. *)
Abbreviation St records parent := (StaticInjector O records parent).

(** The parts of a record that are fixed when the table is built. *)
Definition static (r : Record_) : fnref * bool * list DependencyRecord :=
  (fn r, useNew r, deps r).

Lemma record_eq r1 r2 : static r1 = static r2 → value r1 = value r2 → r1 = r2.
Proof. destruct r1, r2. unfold static. simpl. congruence. Qed.

(** Over any call: a cached value stays, and no slot becomes in-progress. *)
Definition slot_step (x y : option slot) : Prop :=
  (∀ v, x = Some (Value v) → y = Some (Value v)) ∧
  (y = Some CIRCULAR → x = Some CIRCULAR).

(** Over a call that returns: moreover no in-progress slot is touched, so
    the only change is from [EMPTY] to a value. *)
Definition slot_step_normal (x y : option slot) : Prop :=
  (∀ v, x = Some (Value v) → y = Some (Value v)) ∧
  (x = Some CIRCULAR ↔ y = Some CIRCULAR).

Definition same_static (s s' : Injector) : Prop :=
  ∀ d T, static <$> record_at s' d T = static <$> record_at s d T.

Definition evolves (s s' : Injector) : Prop :=
  ∀ d T, slot_step (slot_at s d T) (slot_at s' d T).

Definition evolves_normal (s s' : Injector) : Prop :=
  ∀ d T, slot_step_normal (slot_at s d T) (slot_at s' d T).

Lemma slot_step_refl x : slot_step x x.
Proof. by split. Qed.

Lemma slot_step_trans x y z : slot_step x y → slot_step y z → slot_step x z.
Proof. intros [H1 H2] [H3 H4]. split; eauto. Qed.

Lemma slot_step_normal_refl x : slot_step_normal x x.
Proof. by split. Qed.

Lemma slot_step_normal_trans x y z :
  slot_step_normal x y → slot_step_normal y z → slot_step_normal x z.
Proof. intros [H1 H2] [H3 H4]. split; [eauto|]. by rewrite H2. Qed.

Lemma slot_step_normal_step x y : slot_step_normal x y → slot_step x y.
Proof. intros [H1 H2]. split; [done|]. apply H2. Qed.

(** After a call that returned, a slot that is still [EMPTY] was [EMPTY]. *)
Lemma slot_step_normal_EMPTY x y :
  (x = None ↔ y = None) → slot_step_normal x y → y = Some EMPTY → x = Some EMPTY.
Proof.
  intros Hn [H1 H2] ->. destruct x as [[| |v]|].
  - done.
  - by destruct H2 as [H2 _]; specialize (H2 eq_refl).
  - by specialize (H1 v eq_refl).
  - by destruct Hn as [Hn _]; specialize (Hn eq_refl).
Qed.

Lemma same_static_refl s : same_static s s.
Proof. by intros d T. Qed.

Lemma same_static_trans s1 s2 s3 :
  same_static s1 s2 → same_static s2 s3 → same_static s1 s3.
Proof. intros H1 H2 d T. by rewrite H2, H1. Qed.

Lemma same_static_None s s' d T :
  same_static s s' → (slot_at s d T = None ↔ slot_at s' d T = None).
Proof.
  intros Hs. specialize (Hs d T). unfold slot_at.
  destruct (record_at s d T), (record_at s' d T); naive_solver.
Qed.

Lemma evolves_refl s : evolves s s.
Proof. intros d T. apply slot_step_refl. Qed.

Lemma evolves_trans s1 s2 s3 : evolves s1 s2 → evolves s2 s3 → evolves s1 s3.
Proof. intros H1 H2 d T. eapply slot_step_trans; eauto. Qed.

Lemma evolves_normal_refl s : evolves_normal s s.
Proof. intros d T. apply slot_step_normal_refl. Qed.

Lemma evolves_normal_trans s1 s2 s3 :
  evolves_normal s1 s2 → evolves_normal s2 s3 → evolves_normal s1 s3.
Proof. intros H1 H2 d T. eapply slot_step_normal_trans; eauto. Qed.

Lemma evolves_normal_evolves s s' : evolves_normal s s' → evolves s s'.
Proof. intros Hs d T. by apply slot_step_normal_step. Qed.

(** ** The trace of a call *)

Definition key (ev : event) : nat * Token := (ev_depth ev, ev_token ev).

Definition returns (ev : event) : Prop := ∃ v, ev_result ev = Returns v.

(** The invariant of a call that goes from state [s] to state [s'] with
    outcome [r] and trace [tr]. *)
Record call_inv {A E} (s : Injector) (r : completion A E) (tr : list event)
    (s' : Injector) : Prop := {
  (* the table keeps its records, their functions and their dependencies *)
  inv_static : same_static s s';
  (* cached values stay and nothing is left in progress *)
  inv_evolves : evolves s s';
  inv_normal : is_Normal r → evolves_normal s s';
  (* a function is only invoked for a record that had no value yet ... *)
  inv_fresh : ∀ ev, ev ∈ tr → slot_at s (ev_depth ev) (ev_token ev) = Some EMPTY;
  (* ... at most once ... *)
  inv_once : NoDup (key <$> tr);
  (* ... and what it returns is cached *)
  inv_cached : ∀ ev v, ev ∈ tr → ev_result ev = Returns v →
               slot_at s' (ev_depth ev) (ev_token ev) = Some (Value v);
  (* a call that returns had no throwing invocation *)
  inv_returns : is_Normal r → ∀ ev, ev ∈ tr → returns ev
}.

Lemma call_inv_nil {A E} s (r : completion A E) : call_inv s r [] s.
Proof.
  split; try (intros; by apply same_static_refl || by apply evolves_refl
                      || by apply evolves_normal_refl).
  - intros ev Hin. by apply elem_of_nil in Hin.
  - constructor.
  - intros ev v Hin. by apply elem_of_nil in Hin.
  - intros _ ev Hin. by apply elem_of_nil in Hin.
Qed.

(** A call that returned, followed by another call. *)
Lemma call_inv_seq {A E A' E'} s s1 s2 (r1 : completion A E) (r2 : completion A' E')
    tr1 tr2 :
  is_Normal r1 → call_inv s r1 tr1 s1 → call_inv s1 r2 tr2 s2 →
  call_inv s r2 (tr1 ++ tr2) s2.
Proof.
  intros Hn [Hst1 He1 Hn1 Hf1 Ho1 Hc1 Hr1] [Hst2 He2 Hn2 Hf2 Ho2 Hc2 Hr2].
  specialize (Hn1 Hn). specialize (Hr1 Hn).
  split.
  - by eapply same_static_trans.
  - by eapply evolves_trans.
  - intros Hn'. eapply evolves_normal_trans; eauto.
  - intros ev [Hin|Hin]%elem_of_app; [by apply Hf1|].
    eapply slot_step_normal_EMPTY; [by apply same_static_None|apply Hn1|by apply Hf2].
  - rewrite fmap_app. apply NoDup_app. split; [done|]. split; [|done].
    intros k (ev1 & -> & Hin1)%list_elem_of_fmap (ev2 & Hk & Hin2)%list_elem_of_fmap.
    destruct (Hr1 _ Hin1) as [v Hv].
    pose proof (Hc1 _ _ Hin1 Hv) as Hval.
    pose proof (Hf2 _ Hin2) as Hemp.
    unfold key in Hk. injection Hk as Hd Ht. rewrite <- Hd, <- Ht in Hemp. congruence.
  - intros ev v [Hin|Hin]%elem_of_app Hv; [|by eapply Hc2].
    apply (He2 _ _). by eapply Hc1.
  - intros Hn' ev [Hin|Hin]%elem_of_app; [by apply Hr1|by apply Hr2].
Qed.

Lemma slot_at_insert records parent token r d T :
  slot_at (St (<[token := r]> records) parent) d T =
  if decide ((d, T) = (O, token)) then Some (value r)
  else slot_at (St records parent) d T.
Proof.
  destruct (decide ((d, T) = (O, token))) as [[= -> ->]|Hne]; unfold slot_at.
  - cbn [record_at]. by rewrite lookup_insert_eq.
  - destruct d as [|d]; cbn [record_at]; [|done].
    rewrite lookup_insert_ne; [done|congruence].
Qed.

Lemma static_at_insert records parent token r d T :
  static <$> record_at (St (<[token := r]> records) parent) d T =
  if decide ((d, T) = (O, token)) then Some (static r)
  else static <$> record_at (St records parent) d T.
Proof.
  destruct (decide ((d, T) = (O, token))) as [[= -> ->]|Hne].
  - cbn [record_at]. by rewrite lookup_insert_eq.
  - destruct d as [|d]; cbn [record_at]; [|done].
    rewrite lookup_insert_ne; [done|congruence].
Qed.

(** A call that leaves the record of [token] alone can be framed by any
    change of that record's slot at both ends. *)
Lemma call_inv_override {A E A' E'} records parent recs1 p1 token r0 a b
    (r : completion A E) (r' : completion A' E') tr :
  call_inv (St (<[token := a]> records) parent) r tr (St recs1 p1) →
  records !! token = Some r0 → static a = static r0 → static b = static r0 →
  (∀ ev, ev ∈ tr → key ev ≠ (O, token)) →
  slot_step (Some (value r0)) (Some (value b)) →
  (is_Normal r' → is_Normal r ∧ slot_step_normal (Some (value r0)) (Some (value b))) →
  call_inv (St records parent) r' tr (St (<[token := b]> recs1) p1).
Proof.
  intros [Hst He Hn Hf Ho Hc Hr] Hlook Ha Hb Hkey Hstep Hnorm.
  assert (slot_at (St records parent) O token = Some (value r0)) as Hs0
    by (unfold slot_at; simpl; by rewrite Hlook).
  split.
  - intros d T. specialize (Hst d T).
    rewrite static_at_insert in Hst. rewrite static_at_insert.
    case_decide as Hk; [|done]. injection Hk as -> ->. simpl. by rewrite Hlook, Hb.
  - intros d T. specialize (He d T).
    rewrite slot_at_insert in He. rewrite slot_at_insert.
    case_decide as Hk; [|done]. injection Hk as -> ->. by rewrite Hs0.
  - intros Hn'. destruct (Hnorm Hn') as [Hnr Hsn]. specialize (Hn Hnr).
    intros d T. specialize (Hn d T).
    rewrite slot_at_insert in Hn. rewrite slot_at_insert.
    case_decide as Hk; [|done]. injection Hk as -> ->. by rewrite Hs0.
  - intros ev Hin. specialize (Hf ev Hin). rewrite slot_at_insert in Hf.
    rewrite decide_False in Hf by by apply Hkey. done.
  - done.
  - intros ev v Hin Hv. rewrite slot_at_insert.
    rewrite decide_False by by apply Hkey. by eapply Hc.
  - intros Hn' ev Hin. apply Hr; [|done]. by apply Hnorm.
Qed.

(** One more invocation at the end of a call. *)
Lemma call_inv_snoc {A E A' E'} s s' (r : completion A E) (r' : completion A' E') tr ev :
  call_inv s r tr s' →
  key ev ∉ key <$> tr →
  slot_at s (ev_depth ev) (ev_token ev) = Some EMPTY →
  (∀ v, ev_result ev = Returns v → slot_at s' (ev_depth ev) (ev_token ev) = Some (Value v)) →
  (is_Normal r' → is_Normal r ∧ returns ev) →
  call_inv s r' (tr ++ [ev]) s'.
Proof.
  intros [Hst He Hn Hf Ho Hc Hr] Hkey Hs Hv Hnorm. split.
  - done.
  - done.
  - intros Hn'. apply Hn. by apply Hnorm.
  - intros ev' [Hin| ->%list_elem_of_singleton]%elem_of_app; [by apply Hf|done].
  - rewrite fmap_app. apply NoDup_app. split; [done|]. split.
    + intros k Hk ->%list_elem_of_singleton. done.
    + apply NoDup_singleton.
  - intros ev' v [Hin| ->%list_elem_of_singleton]%elem_of_app Hres; [by eapply Hc|by apply Hv].
  - intros Hn' ev' [Hin| ->%list_elem_of_singleton]%elem_of_app.
    + apply Hr; [|done]. by apply Hnorm.
    + by apply Hnorm.
Qed.

(** A call on the parent, seen from the child. *)
Lemma call_inv_lift {A E A' E'} records parent p1 (r : completion A E)
    (r' : completion A' E') tr :
  call_inv parent r tr p1 → (is_Normal r' → is_Normal r) →
  call_inv (St records parent) r' (in_parent <$> tr) (St records p1).
Proof.
  intros [Hst He Hn Hf Ho Hc Hr] Hnorm. split.
  - intros [|d] T; [done|]. apply Hst.
  - intros [|d] T; [apply slot_step_refl|]. apply He.
  - intros Hn' [|d] T; [apply slot_step_normal_refl|]. by apply Hn, Hnorm.
  - intros ev (ev0 & -> & Hin)%list_elem_of_fmap. by apply (Hf ev0).
  - rewrite <- list_fmap_compose.
    assert (key ∘ in_parent = (λ k, (S k.1, k.2)) ∘ key) as -> by done.
    rewrite list_fmap_compose. apply NoDup_fmap_2; [|done].
    intros [d1 T1] [d2 T2]. simpl. congruence.
  - intros ev v (ev0 & -> & Hin)%list_elem_of_fmap Hv. by apply (Hc ev0).
  - intros Hn' ev (ev0 & -> & Hin)%list_elem_of_fmap.
    destruct (Hr (Hnorm Hn') ev0 Hin) as [v Hv]. by exists v.
Qed.

(** A call that was handed the null injector instead of the parent. *)
Lemma call_inv_null_parent {A E} records parent recs1 p1 (r : completion A E) tr :
  call_inv (St records NULL_INJECTOR) r tr (St recs1 p1) →
  call_inv (St records parent) r tr (St recs1 parent).
Proof.
  intros [Hst He Hn Hf Ho Hc Hr].
  assert (∀ ev, ev ∈ tr → ev_depth ev = O) as Hd.
  { intros ev Hin. specialize (Hf ev Hin). by destruct (ev_depth ev). }
  split.
  - intros [|d] T; [apply (Hst O T)|done].
  - intros [|d] T; [apply (He O T)|apply slot_step_refl].
  - intros Hn' [|d] T; [apply (Hn Hn' O T)|apply slot_step_normal_refl].
  - intros ev Hin. specialize (Hf ev Hin). by rewrite (Hd ev Hin) in *.
  - done.
  - intros ev v Hin Hv. specialize (Hc ev v Hin Hv). by rewrite (Hd ev Hin) in *.
  - done.
Qed.

Lemma call_inv_outcome {A E A' E'} s s' (r : completion A E) (r' : completion A' E') tr :
  call_inv s r tr s' → (is_Normal r' → is_Normal r) → call_inv s r' tr s'.
Proof. intros [Hst He Hn Hf Ho Hc Hr] Hnorm. split; auto. Qed.

Lemma resetCircular_insert `{Host} token rec records r1 :
  records !! token = Some r1 →
  ∃ b, resetCircular token (Some rec) records = <[token := b]> records ∧
       static b = static r1 ∧ value b ≠ CIRCULAR ∧
       (value r1 ≠ CIRCULAR → b = r1).
Proof.
  intros Hlook. unfold resetCircular. rewrite Hlook.
  destruct (value r1) eqn:Hv.
  - exists r1. rewrite insert_id by done. rewrite Hv. done.
  - exists (set_value r1 EMPTY). done.
  - exists r1. rewrite insert_id by done. rewrite Hv. done.
Qed.

Lemma call_inv_self {A E} self self' records parent recs1 p1 (r : completion A E) tr :
  call_inv (StaticInjector self records parent) r tr (StaticInjector self recs1 p1) →
  call_inv (StaticInjector self' records parent) r tr (StaticInjector self' recs1 p1).
Proof. intros [Hst He Hn Hf Ho Hc Hr]. by split. Qed.

Section Invariant.
Context `{Host}.

Definition try_inv
    (tryR : Token → option Record_ → gmap Token Record_ → Injector → val →
            completion val Error * gmap Token Record_ * Injector * list event) : Prop :=
  ∀ token record records parent nf r records' parent' tr,
    record_ok records token record →
    tryR token record records parent nf = (r, records', parent', tr) →
    r ≠ OutOfFuel →
    call_inv (St records parent) r tr (St records' parent').

Lemma resolveDeps_inv tryR :
  try_inv tryR →
  ∀ depRecords deps records parent r records' parent' tr,
    resolveDeps tryR depRecords deps records parent = (r, records', parent', tr) →
    r ≠ OutOfFuel →
    call_inv (St records parent) r tr (St records' parent').
Proof.
  intros Htry depRecords.
  induction depRecords as [|d rest IH]; intros deps records parent r records' parent' tr.
  { intros [= <- <- <- <-] _. apply call_inv_nil. }
  rewrite resolveDeps_cons. cbv zeta.
  set (childRecord := if has_flag (options d) CheckSelf then records !! token d else None).
  set (toNull := match childRecord with
                 | None => negb (has_flag (options d) CheckParent)
                 | Some _ => false end).
  destruct (tryR _ _ _ _ _) as [[[r1 recs1] p1] tr1] eqn:E1.
  assert (r1 ≠ OutOfFuel →
          call_inv (St records parent) r1 tr1 (St recs1 (if toNull then parent else p1)))
    as H1.
  { intros Hne. pose proof (Htry _ _ _ _ _ _ _ _ _ (record_ok_child records d) E1 Hne) as Hi.
    destruct toNull; [by eapply call_inv_null_parent|done]. }
  destruct r1 as [v|e|].
  - destruct (resolveDeps tryR rest _ _ _) as [[[r2 recs2] p2] tr2] eqn:E2.
    intros [= <- <- <- <-] Hne. pose proof (IH _ _ _ _ _ _ _ E2 Hne) as Hi2.
    eapply call_inv_seq; [|by apply H1|exact Hi2]. done.
  - intros [= <- <- <- <-] _. eapply call_inv_outcome; [by apply H1|done].
  - by intros [= <- <- <- <-].
Qed.

(** The table as the catch block of [tryResolveToken] leaves it. *)
Definition after_catch {A E} (token : Token) (record : option Record_)
    (r : completion A E) (records : gmap Token Record_) : gmap Token Record_ :=
  match r with
  | Abrupt _ => resetCircular token record records
  | _ => records
  end.

Lemma engine_inv fuel :
  (∀ inj token nf r inj' tr,
      Injector_get fuel inj token nf = (r, inj', tr) → r ≠ OutOfFuel →
      call_inv inj r tr inj') ∧
  try_inv (tryResolveToken fuel) ∧
  (∀ token record records parent nf r records' parent' tr,
      record_ok records token record →
      resolveToken fuel token record records parent nf = (r, records', parent', tr) →
      r ≠ OutOfFuel →
      call_inv (St records parent) r tr (St (after_catch token record r records') parent')).
Proof.
  induction fuel as [|fuel (IHg & IHt & IHr)].
  { split; [|split].
    - by intros inj token nf r inj' tr [= <- <- <-] Hne.
    - by intros token record records parent nf r records' parent' tr _ [= <- <- <- <-] Hne.
    - by intros token record records parent nf r records' parent' tr _ [= <- <- <- <-] Hne. }
  split; [|split].
  - intros inj token nf r inj' tr. rewrite Injector_get_S.
    destruct inj as [|self records parent].
    { intros [= <- <- <-] _. apply call_inv_nil. }
    destruct (tryResolveToken fuel _ _ _ _ _) as [[[r1 recs1] p1] tr1] eqn:E1.
    intros Hrun Hne.
    assert (r1 ≠ OutOfFuel) as Hne1 by (by destruct r1; simplify_eq).
    pose proof (IHt _ _ _ _ _ _ _ _ _ (record_ok_lookup _ _) E1 Hne1) as Hi.
    destruct r1; simplify_eq; apply (call_inv_self O);
      eapply call_inv_outcome; eauto.
  - intros token record records parent nf r records' parent' tr Hok.
    rewrite tryResolveToken_S.
    destruct (resolveToken fuel _ _ _ _ _) as [[[r1 recs1] p1] tr1] eqn:E1.
    intros Hrun Hne.
    assert (r1 ≠ OutOfFuel) as Hne1 by (by destruct r1; simplify_eq).
    pose proof (IHr _ _ _ _ _ _ _ _ _ Hok E1 Hne1) as Hi.
    destruct r1; simplify_eq; eapply call_inv_outcome; eauto.
  - intros token record records parent nf r records' parent' tr Hok.
    rewrite resolveToken_S. destruct record as [rec|].
    + assert (records !! token = Some rec) as Hlook by by apply Hok.
      assert (slot_at (St records parent) O token = Some (value rec)) as Hslot
        by (unfold slot_at; simpl; by rewrite Hlook).
      destruct (value rec) eqn:Hv.
      * (* EMPTY: the record is computed now *)
        cbv zeta.
        destruct (resolveDeps _ _ _ _ _) as [[[r1 recs1] p1] tr1] eqn:E1.
        intros Hrun Hne.
        assert (r1 ≠ OutOfFuel) as Hne1 by (by destruct r1; simplify_eq).
        apply (λ E, resolveDeps_inv _ IHt _ _ _ _ _ _ _ _ E Hne1) in E1.
        assert (∀ ev, ev ∈ tr1 → key ev ≠ (O, token)) as Hkey.
        { intros ev Hin Hk. pose proof (inv_fresh _ _ _ _ E1 ev Hin) as Hf.
          unfold key in Hk. injection Hk as Hd Ht.
          rewrite Hd, Ht, slot_at_insert, decide_True in Hf by done. done. }
        assert (key (mkEvent O token (fn rec) (useNew rec) [] (Returns VNull))
                  ∉ key <$> tr1) as Hnotin.
        { intros (ev' & Hk & Hin)%list_elem_of_fmap. by apply (Hkey ev' Hin). }
        assert (∃ r1', recs1 !! token = Some r1') as [r1' Hlook1].
        { pose proof (inv_static _ _ _ _ E1 O token) as Hst.
          simpl in Hst. rewrite lookup_insert_eq in Hst.
          destruct (recs1 !! token); [eauto|done]. }
        destruct (resetCircular_insert token rec recs1 r1' Hlook1)
          as (b & Hb & Hstb & Hvb & _).
        assert (static b = static rec) as Hstb'.
        { rewrite Hstb. pose proof (inv_static _ _ _ _ E1 O token) as Hst.
          simpl in Hst. rewrite lookup_insert_eq, Hlook1 in Hst.
          injection Hst as Hf Hu Hd. unfold static. congruence. }
        assert (slot_step (Some EMPTY) (Some (value b))) as Hstep.
        { split; [done|]. intros [= Hc]. done. }
        destruct r1 as [args|e|]; [| |done].
        -- destruct (invoke _ _ _) as [v|x] eqn:Hinv; injection Hrun as <- <- <- <-;
             cbn [after_catch].
           ++ eapply (call_inv_snoc _ _ (Normal args : completion (list val) Error)).
              ** eapply call_inv_override;
                   [exact E1|exact Hlook|done|done|exact Hkey| |].
                 { rewrite Hv. split; [done|]. intros [= Hc]. }
                 { intros _. split; [done|]. rewrite Hv.
                   split; [done|]. split; intros [= Hc]. }
              ** exact Hnotin.
              ** exact Hslot.
              ** simpl. intros v' [= <-]. by rewrite slot_at_insert, decide_True.
              ** intros _. split; [done|]. by eexists.
           ++ rewrite Hb.
              eapply (call_inv_snoc _ _ (Abrupt x : completion val thrown)).
              ** eapply (call_inv_override _ _ _ _ _ _ _ _
                           (Normal args : completion (list val) Error));
                   [exact E1|exact Hlook|done|exact Hstb'|exact Hkey| |intros []].
                 rewrite Hv. exact Hstep.
              ** exact Hnotin.
              ** exact Hslot.
              ** simpl. intros v' Hc. discriminate.
              ** intros [].
        -- injection Hrun as <- <- <- <-. cbn [after_catch]. rewrite Hb.
           eapply call_inv_override;
             [exact E1|exact Hlook|done|exact Hstb'|exact Hkey| |intros []].
           rewrite Hv. exact Hstep.
      * (* CIRCULAR: a circular dependency; the catch block resets the slot *)
        intros [= <- <- <- <-] _. simpl. unfold resetCircular. rewrite Hlook, Hv.
        eapply (call_inv_override _ _ _ _ _ _ rec _
                  (Abrupt (new_Error []) : completion val Error)); eauto.
        { rewrite insert_id by done. apply call_inv_nil. }
        { intros ev Hin. by apply elem_of_nil in Hin. }
        { rewrite Hv. split; [done|]. intros [= Hc]. }
        { intros []. }
      * intros [= <- <- <- <-] _. apply call_inv_nil.
    + destruct (Injector_get fuel _ _ _) as [[r1 p1] tr1] eqn:E1.
      intros Hrun Hne.
      cbv zeta in Hrun.
      assert (r1 ≠ OutOfFuel) as Hne1 by (by destruct r1; simplify_eq).
      pose proof (IHg _ _ _ _ _ _ E1 Hne1) as Hi.
      destruct r1; injection Hrun as <- <- <- <-; [| |done];
        eapply call_inv_lift; eauto.
Qed.


End Invariant.

(** ** Several calls in a row *)













Section Sequences.
Context `{Host}.



(** A value that is there is returned as it is, without any invocation
    and without touching the injector. *)
Lemma get_cached inj T v nf :
  slot_at inj O T = Some (Value v) → get inj T nf = (Normal v, inj, []).
Proof.
  destruct inj as [|self records parent]; [done|].
  unfold slot_at, get. cbn [record_at fuel_of].
  destruct (records !! T) as [r|] eqn:Hlook; [|done].
  intros [= Hv]. change (3 + 2 * size records + fuel_of parent)
    with (S (S (S (2 * size records + fuel_of parent)))).
  rewrite Injector_get_S, Hlook, tryResolveToken_S, resolveToken_S, Hv. done.
Qed.



End Sequences.

(** ** The provider table *)

(** The provider list with nested arrays flattened and falsy entries
    dropped, in declaration order. *)
Fixpoint flatten (provider : StaticProvider) : list StaticProvider :=
  match provider with
  | PFalsy => []
  | PArray items =>
      (fix go (items : list StaticProvider) : list StaticProvider :=
         match items with
         | [] => []
         | item :: rest => flatten item ++ go rest
         end) items
  | leaf => [leaf]
  end.

Lemma flatten_PArray items : flatten (PArray items) = items ≫= flatten.
Proof. simpl. induction items as [|item rest IH]; simpl; [done|]. by rewrite IH. Qed.

Lemma StaticProvider_nested_ind (P : StaticProvider → Prop) :
  P PFalsy →
  (∀ items, Forall P items → P (PArray items)) →
  (∀ f, P (PFunction f)) →
  (∀ p, P (PObject p)) →
  P POther →
  ∀ provider, P provider.
Proof.
  intros Hfalsy Harray Hfun Hobj Hother. fix IH 1.
  intros [|items|f|p|]; [done| |done|done|done].
  apply Harray. induction items as [|item rest IHitems]; constructor; [apply IH|done].
Qed.

Section Table.
Context `{Host}.

(** Processing the entries of a flat list one after the other. *)
Fixpoint processAll (records : gmap Token Record_) (leaves : list StaticProvider)
    : Error + gmap Token Record_ :=
  match leaves with
  | [] => inr records
  | leaf :: rest =>
      match recursivelyProcessProviders records leaf with
      | inl e => inl e
      | inr records => processAll records rest
      end
  end.

Lemma processAll_app records l1 l2 :
  processAll records (l1 ++ l2) =
  match processAll records l1 with
  | inl e => inl e
  | inr records => processAll records l2
  end.
Proof.
  revert records. induction l1 as [|leaf rest IH]; intros records; simpl; [done|].
  destruct (recursivelyProcessProviders records leaf); [done|apply IH].
Qed.

Lemma recursivelyProcessProviders_PArray records items :
  recursivelyProcessProviders records (PArray items) =
  (fix loop (records : gmap Token Record_) (items : list StaticProvider) :=
     match items with
     | [] => inr records
     | item :: rest =>
         match recursivelyProcessProviders records item with
         | inl e => inl e
         | inr records => loop records rest
         end
     end) records items.
Proof. reflexivity. Qed.

(** Nested arrays are processed as their flattening is. *)
Lemma recursivelyProcessProviders_flatten provider records :
  recursivelyProcessProviders records provider = processAll records (flatten provider).
Proof.
  revert records. induction provider as [|items IH|f|p|] using StaticProvider_nested_ind;
    intros records.
  - done.
  - rewrite recursivelyProcessProviders_PArray, flatten_PArray.
    revert records. induction IH as [|item rest Hitem _ IHrest]; intros records; [done|].
    simpl. rewrite processAll_app, <- Hitem.
    destruct (recursivelyProcessProviders records item); [done|apply IHrest].
  - done.
  - simpl. by destruct (provide p); [destruct (processProvider _ _ _)|].
  - done.
Qed.

Lemma StaticInjector_new_flatten self providers parent :
  StaticInjector_new self providers parent =
  match processAll (<[Injector_token := mkRecord IDENT false [] (Value (VInjector self))]> ∅)
                   (flatten (PArray providers)) with
  | inl e => inl e
  | inr records => inr (StaticInjector self records parent)
  end.
Proof. unfold StaticInjector_new. by rewrite recursivelyProcessProviders_flatten. Qed.

(** *** One provider literal *)

Lemma resolveProvider_fn provider r :
  resolveProvider provider = inr r → fn r ≠ MULTI_PROVIDER_FN.
Proof.
  unfold resolveProvider. destruct (computeDeps provider); [done|].
  repeat case_match; intros [= <-]; done.
Qed.


(** The placeholder of a multi provider, extended by the constituent [p]. *)
Definition constituent (p : ProviderObj) : DependencyRecord :=
  mkDep (TProvider (oid p)) Default.

Definition placeholder (deps : list DependencyRecord) : Record_ :=
  mkRecord MULTI_PROVIDER_FN false deps EMPTY.

Definition is_placeholder (records : gmap Token Record_) (T : Token) : Prop :=
  ∃ r, records !! T = Some r ∧ fn r = MULTI_PROVIDER_FN.

(** What a successful [processProvider] did. *)
Lemma processProvider_inr records provider token records' :
  processProvider records provider token = inr records' →
  ∃ resolved, resolveProvider provider = inr resolved ∧
    if multi provider then
      ∃ records1,
        match records !! token with
        | Some mp =>
            fn mp = MULTI_PROVIDER_FN ∧
            records1 = <[token := mkRecord (fn mp) (useNew mp)
                                    (deps mp ++ [constituent provider]) (value mp)]> records
        | None => records1 = <[token := placeholder [constituent provider]]> records
        end ∧
        ¬ is_placeholder records1 (TProvider (oid provider)) ∧
        records' = <[TProvider (oid provider) := resolved]> records1
    else
      ¬ is_placeholder records token ∧ records' = <[token := resolved]> records.
Proof.
  unfold processProvider.
  destruct (resolveProvider provider) as [e|resolved]; [done|].
  intros Hrun. exists resolved. split; [done|].
  unfold is_placeholder, constituent, placeholder.
  destruct (multi provider).
  - destruct (records !! token) as [mp|] eqn:Hlook.
    + destruct (decide (fn mp = MULTI_PROVIDER_FN)) as [Hfn|]; [|done].
      eexists. split; [done|].
      destruct (_ !! TProvider (oid provider)) as [rec|] eqn:Hl2.
      * destruct (decide (fn rec = MULTI_PROVIDER_FN)); [done|].
        injection Hrun as <-. split; [|done]. intros (r & Hr & Hfr). congruence.
      * injection Hrun as <-. split; [|done]. intros (r & Hr & Hfr). congruence.
    + eexists. split; [done|].
      destruct (_ !! TProvider (oid provider)) as [rec|] eqn:Hl2.
      * destruct (decide (fn rec = MULTI_PROVIDER_FN)); [done|].
        injection Hrun as <-. split; [|done]. intros (r & Hr & Hfr). congruence.
      * injection Hrun as <-. split; [|done]. intros (r & Hr & Hfr). congruence.
  - destruct (records !! token) as [rec|] eqn:Hlook.
    + destruct (decide (fn rec = MULTI_PROVIDER_FN)); [done|].
      injection Hrun as <-. split; [|done]. intros (r & Hr & Hfr). congruence.
    + injection Hrun as <-. split; [|done]. intros (r & Hr & Hfr). congruence.
Qed.


End Table.

Definition is_leaf (provider : StaticProvider) : Prop :=
  match provider with PArray _ => False | _ => True end.

Lemma flatten_is_leaf provider : Forall is_leaf (flatten provider).
Proof.
  induction provider as [|items IH|f|p|] using StaticProvider_nested_ind;
    try (by repeat constructor).
  rewrite flatten_PArray. induction IH as [|item rest Hitem _ IHrest]; simpl; [done|].
  by apply Forall_app.
Qed.

(** The multi providers of token [M] in a flat list, in declaration order. *)
Definition multis (M : Token) (leaves : list StaticProvider) : list ProviderObj :=
  leaves ≫= (λ leaf,
    match leaf with
    | PObject p => if decide (provide p = Some M ∧ multi p = true) then [p] else []
    | _ => []
    end).

(** The regular (not multi) providers of token [M]. *)
Definition regulars (M : Token) (leaves : list StaticProvider) : list ProviderObj :=
  leaves ≫= (λ leaf,
    match leaf with
    | PObject p => if decide (provide p = Some M ∧ multi p = false) then [p] else []
    | _ => []
    end).

Lemma multis_cons M leaf rest : multis M (leaf :: rest) = multis M [leaf] ++ multis M rest.
Proof. unfold multis. simpl. by rewrite app_nil_r. Qed.

Lemma regulars_cons M leaf rest :
  regulars M (leaf :: rest) = regulars M [leaf] ++ regulars M rest.
Proof. unfold regulars. simpl. by rewrite app_nil_r. Qed.



(** A record extended by more constituents. *)
Definition extend (r : Record_) (more : list DependencyRecord) : Record_ :=
  mkRecord (fn r) (useNew r) (deps r ++ more) (value r).

Lemma extend_nil r : extend r [] = r.
Proof. destruct r. unfold extend. simpl. by rewrite app_nil_r. Qed.

Lemma extend_extend r l1 l2 : extend (extend r l1) l2 = extend r (l1 ++ l2).
Proof. unfold extend. simpl. by rewrite app_assoc. Qed.

Definition is_regular (records : gmap Token Record_) (T : Token) : Prop :=
  ∃ r, records !! T = Some r ∧ fn r ≠ MULTI_PROVIDER_FN.

Section TableInvariant.
Context `{Host}.

(** How the entry of a token [M] moves while the list is processed: a
    placeholder only grows, by the multi providers of [M]; a regular
    record stays regular and excludes multi providers of [M]; an absent
    entry becomes a placeholder exactly when [M] has multi providers. *)
Definition entry_inv (M : Token) (records : gmap Token Record_)
    (leaves : list StaticProvider) (records' : gmap Token Record_) : Prop :=
  match records !! M with
  | Some r =>
      if decide (fn r = MULTI_PROVIDER_FN)
      then records' !! M = Some (extend r (constituent <$> multis M leaves))
      else multis M leaves = [] ∧ is_regular records' M
  | None =>
      match multis M leaves with
      | [] => ¬ is_placeholder records' M ∧
              (regulars M leaves ≠ [] → is_regular records' M)
      | ps => records' !! M = Some (placeholder (constituent <$> ps))
      end
  end.

Lemma entry_inv_leaf M records leaf records' :
  is_leaf leaf →
  recursivelyProcessProviders records leaf = inr records' →
  entry_inv M records [leaf] records'.
Proof.
  intros Hleaf Hrun. unfold entry_inv.
  destruct leaf as [|items|f|p|]; [|done|done| |done].
  { injection Hrun as <-. unfold multis, regulars, is_placeholder, is_regular. simpl.
    destruct (records !! M) as [r|]; [|naive_solver].
    case_decide; [by rewrite extend_nil|]. eauto. }
  simpl in Hrun. destruct (provide p) as [token|] eqn:Hprov; [|done].
  unfold resolveForwardRef in Hrun.
  apply processProvider_inr in Hrun as (resolved & Hres & Hrun).
  pose proof (resolveProvider_fn _ _ Hres) as Hfn.
  unfold multis, regulars, is_placeholder, is_regular in *. simpl.
  rewrite Hprov. destruct (multi p) eqn:Hmulti.
  - destruct Hrun as (records1 & Hrec1 & Hnp & ->).
    destruct (decide (token = M)) as [->|Hne].
    + rewrite (decide_True (P := Some M = Some M ∧ true = true)) by done.
      rewrite (decide_False (P := Some M = Some M ∧ true = false)) by naive_solver.
      destruct (records !! M) as [mp|] eqn:Hlook.
      * destruct Hrec1 as [Hmp ->]. rewrite decide_True by done.
        destruct (decide (TProvider (oid p) = M)) as [<-|Hne].
        { exfalso. apply Hnp. eexists. rewrite lookup_insert_eq. done. }
        rewrite lookup_insert_ne by done. by rewrite lookup_insert_eq.
      * subst records1. simpl.
        destruct (decide (TProvider (oid p) = M)) as [<-|Hne].
        { exfalso. apply Hnp. eexists. rewrite lookup_insert_eq. done. }
        rewrite lookup_insert_ne by done. by rewrite lookup_insert_eq.
    + rewrite (decide_False (P := Some token = Some M ∧ true = true)) by naive_solver.
      rewrite (decide_False (P := Some token = Some M ∧ true = false)) by naive_solver.
      simpl.
      assert (records1 !! M = records !! M) as Hsame.
      { destruct (records !! token); [destruct Hrec1 as [_ ->]|subst records1];
          by rewrite lookup_insert_ne. }
      destruct (decide (TProvider (oid p) = M)) as [<-|Hne'].
      * rewrite lookup_insert_eq. rewrite <- Hsame.
        destruct (records1 !! TProvider (oid p)) as [r|] eqn:Hl.
        -- case_decide; [exfalso; apply Hnp; eauto|]. eauto.
        -- split; [|done]. intros (r & [= <-] & Hr). done.
      * rewrite lookup_insert_ne by done. rewrite Hsame.
        destruct (records !! M) as [r|]; [|naive_solver].
        case_decide; [by rewrite extend_nil|]. eauto.
  - destruct Hrun as (Hnp & ->).
    rewrite (decide_False (P := Some token = Some M ∧ false = true)) by naive_solver.
    destruct (decide (token = M)) as [->|Hne].
    + rewrite lookup_insert_eq.
      rewrite (decide_True (P := Some M = Some M ∧ false = false)) by done. simpl.
      destruct (records !! M) as [r|] eqn:Hl.
      * case_decide; [exfalso; apply Hnp; eauto|]. eauto.
      * split; [|eauto]. intros (r & [= <-] & Hr). done.
    + rewrite lookup_insert_ne by done.
      rewrite (decide_False (P := Some token = Some M ∧ false = false)) by naive_solver.
      simpl. destruct (records !! M) as [r|]; [|naive_solver].
      case_decide; [by rewrite extend_nil|]. eauto.
Qed.

Lemma entry_inv_processAll M leaves records records' :
  Forall is_leaf leaves →
  processAll records leaves = inr records' →
  entry_inv M records leaves records'.
Proof.
  intros Hleaves. revert records.
  induction Hleaves as [|leaf rest Hleaf _ IH]; intros records.
  { intros [= <-]. unfold entry_inv, multis, regulars, is_placeholder, is_regular. simpl.
    destruct (records !! M) as [r|]; [|naive_solver].
    case_decide; [by rewrite extend_nil|]. eauto. }
  simpl. destruct (recursivelyProcessProviders records leaf) as [e|records1] eqn:E1; [done|].
  intros Hrest. specialize (IH _ Hrest).
  pose proof (entry_inv_leaf M _ _ _ Hleaf E1) as Hstep.
  unfold entry_inv in *. rewrite (multis_cons M leaf rest), (regulars_cons M leaf rest).
  destruct (records !! M) as [r|] eqn:Hl.
  - case_decide as Hfn.
    + rewrite Hstep in IH. rewrite decide_True in IH by done.
      by rewrite IH, extend_extend, fmap_app.
    + destruct Hstep as [-> (r1 & Hr1 & Hfn1)]. rewrite Hr1 in IH.
      by rewrite decide_False in IH.
  - destruct (multis M [leaf]) as [|p ps] eqn:Hm.
    + destruct Hstep as [Hnp Hreg]. rewrite app_nil_l.
      destruct (records1 !! M) as [r1|] eqn:Hl1.
      * rewrite decide_False in IH by (intros Hfn; apply Hnp; by exists r1).
        destruct IH as [-> Hreg']. split; [|done].
        destruct Hreg' as (r' & Hr' & Hfn'). intros (r'' & Hr'' & Hfn''). congruence.
      * destruct (multis M rest); [|done]. destruct IH as [Hnp' Hreg'].
        split; [done|]. intros Hne. apply Hreg'.
        destruct (regulars M [leaf]) eqn:Hrl; [done|].
        destruct Hreg as (r1 & Hr1 & _); [done|congruence].
    + rewrite Hstep in IH. rewrite decide_True in IH by done.
      change ((p :: ps) ++ multis M rest) with (p :: (ps ++ multis M rest)).
      rewrite IH. unfold extend, placeholder. cbn [fn useNew deps value].
      by rewrite <- fmap_app.
Qed.

(** A token that no provider names keeps its entry. *)
Lemma processAll_untouched T leaves records records' :
  Forall is_leaf leaves →
  processAll records leaves = inr records' →
  (∀ p, PObject p ∈ leaves →
        provide p ≠ Some T ∧ (multi p = true → TProvider (oid p) ≠ T)) →
  records' !! T = records !! T.
Proof.
  intros Hleaves. revert records.
  induction Hleaves as [|leaf rest Hleaf _ IH]; intros records.
  { by intros [= <-]. }
  simpl. destruct (recursivelyProcessProviders records leaf) as [e|records1] eqn:E1; [done|].
  intros Hrest Hno. rewrite (IH _ Hrest) by (intros p Hp; apply Hno; by right).
  destruct leaf as [|items|f|p|]; [by injection E1 as <-|done|done| |done].
  simpl in E1. destruct (provide p) as [token|] eqn:Hprov; [|done].
  destruct (Hno p ltac:(left)) as [Hne Hne']. rewrite Hprov in Hne.
  apply processProvider_inr in E1 as (resolved & Hres & Hrun).
  unfold resolveForwardRef in *.
  destruct (multi p).
  - destruct Hrun as (records1' & Hrec1 & _ & ->).
    rewrite lookup_insert_ne by (by apply Hne').
    destruct (records !! token); [destruct Hrec1 as [_ ->]|subst records1'];
      rewrite lookup_insert_ne; congruence.
  - destruct Hrun as [_ ->]. rewrite lookup_insert_ne; congruence.
Qed.

(** A regular provider leaves its record under its token. *)
Lemma processProvider_regular records p token records' :
  processProvider records p token = inr records' → multi p = false →
  ∃ resolved, resolveProvider p = inr resolved ∧ records' !! token = Some resolved.
Proof.
  intros (resolved & Hres & Hrun)%processProvider_inr Hmulti.
  rewrite Hmulti in Hrun. destruct Hrun as [_ ->].
  exists resolved. by rewrite lookup_insert_eq.
Qed.

(** If nothing fails but mixing, a failure is a mix. *)
Definition well_formed (leaf : StaticProvider) : Prop :=
  match leaf with
  | PObject p => is_Some (provide p) ∧ ∃ r, resolveProvider p = inr r
  | _ => False
  end.


End TableInvariant.

(** ** A token that nobody provides *)

(** The token has no record in the injector nor in any of its ancestors. *)
Definition absent (inj : Injector) (T : Token) : Prop :=
  ∀ d, record_at inj d T = None.

(** The number of static injectors down to the null injector. *)
Fixpoint depth (inj : Injector) : nat :=
  match inj with
  | NULL_INJECTOR => O
  | StaticInjector _ _ parent => S (depth parent)
  end.

Section Absent.
Context `{Host}.

(** The error of the null injector. *)
Definition nullInjectorError (T : Token) : Error :=
  new_Error (js "NullInjectorError: No provider for " ++ stringify T ++ js "!").

(** What one static injector does to an error that comes from its parent
    for the token [T] it was asked: [tryResolveToken] puts [T] on the path
    and [get] decorates. *)
Definition relay (T : Token) (e : Error) : Error :=
  decorate (addToPath T (ThrownError e)).

(** The not-found error as [k] static injectors in a row hand it down. *)
Definition notFoundError (k : nat) (T : Token) : Error :=
  Nat.iter k (relay T) (nullInjectorError T).

Definition absent_outcome (k : nat) (T : Token) (nf : val) : completion val Error :=
  match NullInjector_get T nf with
  | Normal v => Normal v
  | Abrupt e => Abrupt (Nat.iter k (relay T) e)
  | OutOfFuel => OutOfFuel
  end.

Lemma Injector_get_absent inj T nf :
  absent inj T →
  ∀ fuel r inj' tr,
    Injector_get fuel inj T nf = (r, inj', tr) → r ≠ OutOfFuel →
    (r, inj', tr) = (absent_outcome (depth inj) T nf, inj, []).
Proof.
  induction inj as [|self records parent IH]; intros Habs fuel r inj' tr.
  - destruct fuel as [|fuel]; [by intros [= <- <- <-]|].
    rewrite Injector_get_S. intros [= <- <- <-] _. unfold absent_outcome. simpl.
    by destruct (NullInjector_get T nf).
  - assert (records !! T = None) as Hlook by apply (Habs O).
    assert (absent parent T) as Hpar by (intros d; apply (Habs (S d))).
    destruct fuel as [|fuel]; [by intros [= <- <- <-]|].
    rewrite Injector_get_S, Hlook.
    destruct fuel as [|fuel]; [by intros [= <- <- <-]|].
    rewrite tryResolveToken_S.
    destruct fuel as [|fuel]; [by intros [= <- <- <-]|].
    rewrite resolveToken_S.
    destruct (Injector_get fuel parent T nf) as [[r1 p1] tr1] eqn:E1.
    assert (r1 ≠ OutOfFuel → (r1, p1, tr1) = (absent_outcome (depth parent) T nf, parent, []))
      as Hi by (intros Hne; by eapply IH).
    unfold absent_outcome in *. cbn [depth].
    destruct r1 as [v|e|]; cbv zeta; intros [= <- <- <-] Hne; [| |done].
    + specialize (Hi ltac:(done)). injection Hi as Hr -> ->.
      destruct (NullInjector_get T nf); by simplify_eq.
    + specialize (Hi ltac:(done)). injection Hi as Hr -> ->.
      destruct (NullInjector_get T nf); by simplify_eq.
Qed.

Lemma get_absent inj T nf :
  absent inj T → get inj T nf = (absent_outcome (depth inj) T nf, inj, []).
Proof.
  intros Habs. pose proof (Injector_get_total inj T nf) as Htot.
  unfold get in *. destruct (Injector_get _ _ _ _) as [[r inj'] tr] eqn:E.
  by eapply Injector_get_absent.
Qed.

End Absent.

(** ** One dependency entry *)

Section Dependency.
Context `{Host}.

(** The body of the loop of [resolveToken]: the resolution of one entry of
    [record.deps], whatever the entries before and after it. *)
Definition resolveDep
    (tryResolve : Token → option Record_ → gmap Token Record_ → Injector → val →
                  completion val Error * gmap Token Record_ * Injector * list event)
    (depRecord : DependencyRecord) (records : gmap Token Record_) (parent : Injector)
    : completion val Error * gmap Token Record_ * Injector * list event :=
  let options := options depRecord in
  let childRecord :=
    if has_flag options CheckSelf then records !! token depRecord else None in
  let toNull :=
    match childRecord with
    | None => negb (has_flag options CheckParent)
    | Some _ => false
    end in
  let '(r, records, parent', tr) :=
    tryResolve (token depRecord) childRecord records
               (if toNull then NULL_INJECTOR else parent)
               (if has_flag options Optional then VNull else THROW_IF_NOT_FOUND) in
  (r, records, if toNull then parent else parent', tr).


(** The resolution of the dependency entry [depRecord] by an injector with
    the table [records] and the parent [parent]. *)
Definition resolveDependency (depRecord : DependencyRecord)
    (records : gmap Token Record_) (parent : Injector)
    : completion val Error * gmap Token Record_ * Injector * list event :=
  resolveDep (tryResolveToken (fuel_of (St records parent))) depRecord records parent.

Lemma tryResolveToken_total token record records parent parent0 nf :
  record_ok records token record → need parent ≤ need parent0 →
  (tryResolveToken (fuel_of (St records parent0)) token record records parent nf).1.1.1
    ≠ OutOfFuel.
Proof.
  intros Hok Hneed.
  destruct (tryResolveToken _ _ _ _ _ _) as [[[r recs1] p1] tr1] eqn:E. simpl.
  destruct (total_aux (fuel_of (St records parent0))) as (_ & Ht & _).
  eapply Ht in E as [Hne _]; [done|done|].
  cbn [fuel_of]. pose proof (pending_size_le records). pose proof (need_fuel_of parent0). lia.
Qed.

Lemma resolveDependency_total depRecord records parent :
  (resolveDependency depRecord records parent).1.1.1 ≠ OutOfFuel.
Proof.
  unfold resolveDependency, resolveDep. cbv zeta.
  set (childRecord := if has_flag _ _ then _ else _).
  set (toNull := match childRecord with None => _ | Some _ => false end).
  pose proof (tryResolveToken_total (token depRecord) childRecord records
                (if toNull then NULL_INJECTOR else parent) parent
                (if has_flag (options depRecord) Optional then VNull else THROW_IF_NOT_FOUND)
                (record_ok_child records depRecord)) as Htot.
  destruct (tryResolveToken _ _ _ _ _ _) as [[[r recs1] p1] tr1]. simpl in *.
  apply Htot. destruct toNull; [apply need_pos|done].
Qed.







End Dependency.

Section Frames.
Context `{Host}.







End Frames.

(** * A concrete host and concrete injectors *)

Module Demo.

(** Tokens print as a letter and their number. *)
Definition name (t : Token) : jsstring :=
  match t with
  | TFunction n => js "F" ++ [N.of_nat (48 + n)]
  | TObject n => js "T" ++ [N.of_nat (48 + n)]
  | TProvider n => js "P" ++ [N.of_nat (48 + n)]
  end.

(** The function number 9 throws; every other function returns an array of
    its own number and its arguments. *)
Definition host : Host := {|
  stringify := name;
  objContext := λ obj, match obj with ObjToken t => name t | _ => js "{}" end;
  String_ := λ _, js "value";
  apply_fn := λ f args,
    match f with
    | 9 => Throws (ThrownError (new_Error (js "boom")))
    | _ => Returns (VArray (VNumber (Z.of_nat f) :: args))
    end;
  construct := λ fn args, Returns (VArray (VObject 0 :: args))
|}.

Definition A : Token := TObject 1.
Definition B : Token := TObject 2.
Definition X : Token := TObject 4.
Definition M : Token := TObject 5.

Definition valueProvider (o : nat) (t : Token) (v : val) : StaticProvider :=
  PObject (mkProvider o (Some t) (Some v) None None None None false).

Definition factoryProvider (o : nat) (t : Token) (f : nat) (deps : list depDecl)
    : StaticProvider :=
  PObject (mkProvider o (Some t) None (Some f) None None (Some deps) false).


Definition built (r : Error + Injector) : Injector :=
  match r with inr inj => inj | inl _ => NULL_INJECTOR end.

(** An injector with no provider of its own, and its child, equally empty. *)
Definition emptyParent : Injector :=
  built (StaticInjector_new (H := host) 1 [] NULL_INJECTOR).

Definition emptyChild : Injector :=
  built (StaticInjector_new (H := host) 2 [] emptyParent).

(** [X] is the literal 2 in the parent and the literal 1 in the child. *)
Definition parentX : Injector :=
  built (StaticInjector_new (H := host) 1 [valueProvider 1 X (VNumber 2)] NULL_INJECTOR).

Definition childX : Injector :=
  built (StaticInjector_new (H := host) 2 [valueProvider 2 X (VNumber 1)] parentX).

(** [A] is made by a factory that throws. *)
Definition throwing : Injector :=
  built (StaticInjector_new (H := host) 1 [factoryProvider 1 A 9 []] NULL_INJECTOR).




(** The injector token given a value by the provider list. *)
Definition overridden : Injector :=
  built (StaticInjector_new (H := host) 1
           [valueProvider 1 Injector_token (VNumber 5)] NULL_INJECTOR).



End Demo.

(** * The claims *)

Section NotFound.
Context `{Host}.

(** C9. For a token absent from the whole chain, [get(token, undefined)]
    throws the null injector's not-found error, handed down by each static
    injector of the chain, and leaves the chain as it was; passing
    [undefined] is the same as passing the throw sentinel. *)
Theorem explicit_undefined_throws inj T :
  absent inj T →
  get inj T VUndefined = (Abrupt (notFoundError (depth inj) T), inj, []) ∧
  get inj T VUndefined = get inj T THROW_IF_NOT_FOUND.
Proof.
  intros Habs. by rewrite !get_absent.
Qed.

Lemma nullInjector_fallback T fallback :
  fallback ≠ THROW_IF_NOT_FOUND → fallback ≠ VUndefined →
  NullInjector_get T fallback = Normal fallback.
Proof. unfold NullInjector_get. by destruct fallback. Qed.

(** An entry with the [Optional] flag whose token is absent resolves to
    [null]. *)
Lemma resolveDependency_optional_absent depRecord records parent :
  absent (St records parent) (token depRecord) →
  has_flag (options depRecord) Optional = true →
  resolveDependency depRecord records parent = (Normal VNull, records, parent, []).
Proof.
  intros Habs Hopt.
  pose proof (resolveDependency_total depRecord records parent) as Htot.
  assert (records !! token depRecord = None) as Hlook by apply (Habs O).
  unfold resolveDependency, resolveDep in *. cbv zeta in *. rewrite Hopt, Hlook in *.
  assert (∀ b : bool, (if b then None else None) = (@None Record_)) as Hnone
    by by intros [].
  rewrite Hnone in *. clear Hnone.
  set (p := if negb (has_flag (options depRecord) CheckParent)
            then NULL_INJECTOR else parent) in *.
  assert (absent p (token depRecord)) as Hp.
  { subst p. destruct (negb _); [by intros d|]. intros d. apply (Habs (S d)). }
  destruct (fuel_of (St records parent)) as [|fuel]; [done|].
  rewrite tryResolveToken_S in *. destruct fuel as [|fuel]; [done|].
  rewrite resolveToken_S in *.
  destruct (Injector_get fuel p _ _) as [[r1 p1] tr1] eqn:E1.
  destruct r1 as [v|e|]; [| |done]; cbv zeta in *.
  - apply (Injector_get_absent _ _ _ Hp) in E1; [|done].
    injection E1 as -> -> ->. subst p. by destruct (negb _).
  - apply (Injector_get_absent _ _ _ Hp) in E1; [|done]. by injection E1.
Qed.

(** C4 (amended). For a token absent from the whole chain: [get(token)]
    throws the not-found error; [get(token, fallback)] returns the fallback
    when it is neither the throw sentinel nor [undefined]; and a dependency
    entry with the [Optional] flag resolves to [null]. *)
Theorem absent_token inj T :
  absent inj T →
  get inj T VUndefined = (Abrupt (notFoundError (depth inj) T), inj, []) ∧
  (∀ fallback, fallback ≠ THROW_IF_NOT_FOUND → fallback ≠ VUndefined →
     get inj T fallback = (Normal fallback, inj, [])) ∧
  (∀ self records parent depRecord,
     inj = StaticInjector self records parent → token depRecord = T →
     has_flag (options depRecord) Optional = true →
     resolveDependency depRecord records parent = (Normal VNull, records, parent, [])).
Proof.
  intros Habs. split; [|split].
  - by rewrite get_absent.
  - intros fallback Hthrow Hundef. rewrite get_absent by done.
    unfold absent_outcome. by rewrite nullInjector_fallback.
  - intros self records parent depRecord -> <- Hopt.
    by apply resolveDependency_optional_absent.
Qed.

End NotFound.

(** The witness of C9: an empty child of an empty parent. *)
Lemma explicit_undefined_throws_witness :
  absent Demo.emptyChild Demo.X ∧
  get (H := Demo.host) Demo.emptyChild Demo.X VUndefined
    = (Abrupt (notFoundError (H := Demo.host) 2 Demo.X), Demo.emptyChild, []).
Proof.
  assert (absent Demo.emptyChild Demo.X) as Habs by (by intros [|[|[|d]]]).
  split; [exact Habs|].
  exact (proj1 (explicit_undefined_throws (H := Demo.host) Demo.emptyChild Demo.X Habs)).
Defined.

(** The witness of C4. *)
Lemma absent_token_witness :
  absent Demo.emptyChild Demo.X ∧
  get (H := Demo.host) Demo.emptyChild Demo.X (VNumber 7)
    = (Normal (VNumber 7), Demo.emptyChild, []).
Proof.
  assert (absent Demo.emptyChild Demo.X) as Habs by (by intros [|[|[|d]]]).
  split; [exact Habs|].
  apply (proj1 (proj2 (absent_token (H := Demo.host) Demo.emptyChild Demo.X Habs))); done.
Defined.

(** The counterexample to C4 as stated: [undefined] is a fallback distinct
    from the throw sentinel, and [get] throws instead of returning it. *)
Lemma absent_token_counterexample :
  VUndefined ≠ THROW_IF_NOT_FOUND ∧
  (get (H := Demo.host) Demo.emptyChild Demo.X VUndefined).1.1
    = Abrupt (notFoundError (H := Demo.host) 2 Demo.X) ∧
  (get (H := Demo.host) Demo.emptyChild Demo.X VUndefined).1.1 ≠ Normal VUndefined.
Proof. split; [done|]. split; [by vm_compute|by vm_compute]. Qed.

(** A record is in progress when its slot holds the [CIRCULAR] marker. *)
Definition in_progress (inj : Injector) (d : nat) (T : Token) : Prop :=
  slot_at inj d T = Some CIRCULAR.

Section InProgress.
Context `{Host}.


(** A table that was just built has no record in progress. *)
Definition no_CIRCULAR (records : gmap Token Record_) : Prop :=
  ∀ T r, records !! T = Some r → value r ≠ CIRCULAR.

Lemma resolveProvider_value provider r :
  resolveProvider provider = inr r → value r ≠ CIRCULAR.
Proof.
  unfold resolveProvider. destruct (computeDeps provider); [done|].
  repeat case_match; intros [= <-]; done.
Qed.

Lemma processAll_no_CIRCULAR leaves records records' :
  Forall is_leaf leaves → processAll records leaves = inr records' →
  no_CIRCULAR records → no_CIRCULAR records'.
Proof.
  intros Hleaves. revert records.
  induction Hleaves as [|leaf rest Hleaf _ IH]; intros records; [by intros [= <-]|].
  simpl. destruct (recursivelyProcessProviders records leaf) as [e|records1] eqn:E1; [done|].
  intros Hrest Hno. apply (IH _ Hrest). clear IH Hrest.
  destruct leaf as [|items|f|p|]; [by injection E1 as <-|done|done| |done].
  simpl in E1. destruct (provide p) as [token|]; [|done].
  apply processProvider_inr in E1 as (resolved & Hres & Hrun).
  pose proof (resolveProvider_value _ _ Hres) as Hval.
  unfold resolveForwardRef in *. destruct (multi p).
  - destruct Hrun as (records1' & Hrec1 & _ & ->).
    assert (no_CIRCULAR records1') as Hno1.
    { destruct (records !! token) as [mp|] eqn:Hl.
      - destruct Hrec1 as [_ ->]. intros T r.
        destruct (decide (token = T)) as [<-|Hne].
        + rewrite lookup_insert_eq. intros [= <-]. simpl. by eapply Hno.
        + rewrite lookup_insert_ne by done. apply Hno.
      - subst records1'. intros T r.
        destruct (decide (token = T)) as [<-|Hne].
        + rewrite lookup_insert_eq. by intros [= <-].
        + rewrite lookup_insert_ne by done. apply Hno. }
    intros T r. destruct (decide (TProvider (oid p) = T)) as [<-|Hne].
    + rewrite lookup_insert_eq. by intros [= <-].
    + rewrite lookup_insert_ne by done. apply Hno1.
  - destruct Hrun as [_ ->]. intros T r.
    destruct (decide (token = T)) as [<-|Hne].
    + rewrite lookup_insert_eq. by intros [= <-].
    + rewrite lookup_insert_ne by done. apply Hno.
Qed.

Lemma StaticInjector_new_no_in_progress self providers parent inj :
  StaticInjector_new self providers parent = inr inj →
  (∀ d T, ¬ in_progress parent d T) →
  ∀ d T, ¬ in_progress inj d T.
Proof.
  rewrite StaticInjector_new_flatten.
  destruct (processAll _ _) as [e|records] eqn:E; [done|].
  intros [= <-] Hparent [|d] T; [|apply Hparent].
  apply processAll_no_CIRCULAR in E; [|apply flatten_is_leaf|].
  - unfold in_progress, slot_at. simpl. destruct (records !! T) as [r|] eqn:Hl; [|done].
    simpl. intros [= Hc]. by eapply E.
  - intros T' r. destruct (decide (Injector_token = T')) as [<-|Hne].
    + rewrite lookup_insert_eq. by intros [= <-].
    + rewrite lookup_insert_ne by done. by rewrite lookup_empty.
Qed.

End InProgress.


Section InjectorToken.
Context `{Host}.

(** The entry that the constructor puts under the [Injector] token. *)
Definition selfRecord (self : nat) : Record_ :=
  mkRecord IDENT false [] (Value (VInjector self)).

(** C8 (amended). For every injector built from a provider list in which no
    provider is registered under the [Injector] token, the table has the
    pre-seeded entry under that token (identity function, no dependencies,
    the injector itself as its value), and [get(Injector)] returns that
    injector, without any invocation. *)
Theorem injector_provides_itself self providers parent inj :
  StaticInjector_new self providers parent = inr inj →
  (∀ p, PObject p ∈ flatten (PArray providers) → provide p ≠ Some Injector_token) →
  record_at inj O Injector_token = Some (selfRecord self) ∧
  ∀ nf, get inj Injector_token nf = (Normal (VInjector self), inj, []).
Proof.
  rewrite StaticInjector_new_flatten.
  destruct (processAll _ _) as [e|records] eqn:E; [done|].
  intros [= <-] Hno.
  assert (records !! Injector_token = Some (selfRecord self)) as Hlook.
  { erewrite processAll_untouched; [|apply flatten_is_leaf|exact E|].
    - by rewrite lookup_insert_eq.
    - intros p Hp. split; [by apply Hno|done]. }
  split; [done|]. intros nf. apply get_cached. unfold slot_at. simpl. by rewrite Hlook.
Qed.

End InjectorToken.

(** The witness of C8. *)
Lemma injector_provides_itself_witness :
  get (H := Demo.host) Demo.parentX Injector_token VUndefined
    = (Normal (VInjector 1), Demo.parentX, []).
Proof.
  apply (injector_provides_itself (H := Demo.host) 1
           [Demo.valueProvider 1 Demo.X (VNumber 2)] NULL_INJECTOR Demo.parentX).
  - reflexivity.
  - intros p Hp. simpl in Hp. apply list_elem_of_singleton in Hp.
    injection Hp as ->. discriminate.
Defined.

(** The counterexample to C8 as stated: a provider list that registers a
    value under the [Injector] token builds an injector whose
    [get(Injector)] returns that value, and not the injector. *)
Lemma injector_provides_itself_counterexample :
  StaticInjector_new (H := Demo.host) 1
    [Demo.valueProvider 1 Injector_token (VNumber 5)] NULL_INJECTOR
    = inr Demo.overridden ∧
  (get (H := Demo.host) Demo.overridden Injector_token VUndefined).1.1
    = Normal (VNumber 5) ∧
  (get (H := Demo.host) Demo.overridden Injector_token VUndefined).1.1
    ≠ Normal (VInjector 1).
Proof. split; [by vm_compute|]. split; by vm_compute. Qed.

(** ** Flags of an annotated dependency *)

Lemma has_flag_cases (o : Z) :
  (0 ≤ o ≤ 7)%Z →
  o = 0%Z ∨ o = 1%Z ∨ o = 2%Z ∨ o = 3%Z ∨ o = 4%Z ∨ o = 5%Z ∨ o = 6%Z ∨ o = 7%Z.
Proof. lia. Qed.

(** What the annotations seen so far have asked for, as the bits of
    [options] say it. *)
Record flags_inv (annotations : list annotation) (options : Z) : Prop := {
  fl_range : (0 ≤ options ≤ 7)%Z;
  fl_optional : has_flag options Optional = true ↔ AOptional ∈ annotations;
  fl_self : has_flag options CheckSelf = true ↔ ASkipSelf ∉ annotations;
  fl_parent : has_flag options CheckParent = true ↔ ASelf ∉ annotations
}.

Lemma flags_inv_Default : flags_inv [] Default.
Proof.
  split; [by vm_compute| | |]; split; try done.
  - by intros ?%elem_of_nil.
  - intros _. by intros ?%elem_of_nil.
  - intros _. by intros ?%elem_of_nil.
Qed.

Lemma flags_inv_annotate annotations t options a :
  flags_inv annotations options →
  flags_inv (annotations ++ [a]) (annotate (t, options) a).2.
Proof.
  intros [Hrange Hopt Hself Hparent].
  assert (∀ b : annotation, b ∈ annotations ++ [a] ↔ b ∈ annotations ∨ b = a) as Hin.
  { intros b. rewrite elem_of_app, list_elem_of_singleton. done. }
  destruct (has_flag_cases _ Hrange) as [->|[->|[->|[->|[->|[->|[->| ->]]]]]]];
    destruct a; (split; [by vm_compute|rewrite Hin..]);
    vm_compute in Hopt, Hself, Hparent; vm_compute (has_flag _ _);
    naive_solver.
Qed.

Lemma flags_inv_foldl annotations seen t options :
  flags_inv seen options →
  flags_inv (seen ++ annotations) (foldl annotate (t, options) annotations).2.
Proof.
  revert seen t options. induction annotations as [|a rest IH]; intros seen t options Hinv.
  { by rewrite app_nil_r. }
  change (foldl annotate (t, options) (a :: rest))
    with (foldl annotate (annotate (t, options) a) rest).
  destruct (annotate (t, options) a) as [t' options'] eqn:E.
  replace (seen ++ a :: rest) with ((seen ++ [a]) ++ rest) by by rewrite <- app_assoc.
  apply IH. pose proof (flags_inv_annotate seen t options a Hinv) as Hstep.
  by rewrite E in Hstep.
Qed.

(** The flags that [computeDeps] gives an annotated dependency. *)
Lemma computeDep_flags self annotations :
  flags_inv annotations (options (computeDep (DepArray self annotations))).
Proof.
  pose proof (flags_inv_foldl annotations [] (TObject self) Default flags_inv_Default)
    as Hinv.
  unfold computeDep, resolveForwardRef. simpl in *.
  by destruct (foldl annotate _ _).
Qed.

(** ** SkipSelf *)

Section SkipSelf.
Context `{Host}.

(** What an entry that is not looked up in the own table makes of the
    answer of the injector [p] it is sent to. *)
Definition delegated (T : Token) (records : gmap Token Record_)
    (answer : completion val Error * Injector * list event)
    : completion val Error * gmap Token Record_ * Injector * list event :=
  let '(r, p, tr) := answer in
  (match r with
   | Normal v => Normal v
   | Abrupt e => Abrupt (addToPath T (ThrownError e))
   | OutOfFuel => OutOfFuel
   end, records, p, in_parent <$> tr).

Definition notFoundValue_of (depRecord : DependencyRecord) : val :=
  if has_flag (options depRecord) Optional then VNull else THROW_IF_NOT_FOUND.

(** An entry without the [CheckSelf] bit goes to the parent, or to the null
    injector when it has no [CheckParent] bit either; the table is neither
    read nor written. *)
Lemma resolveDependency_not_self depRecord records parent :
  has_flag (options depRecord) CheckSelf = false →
  resolveDependency depRecord records parent =
  if has_flag (options depRecord) CheckParent
  then delegated (token depRecord) records
         (get parent (token depRecord) (notFoundValue_of depRecord))
  else (match NullInjector_get (token depRecord) (notFoundValue_of depRecord) with
        | Normal v => Normal v
        | Abrupt e => Abrupt (addToPath (token depRecord) (ThrownError e))
        | OutOfFuel => OutOfFuel
        end, records, parent, []).
Proof.
  intros Hself.
  pose proof (resolveDependency_total depRecord records parent) as Htot.
  unfold resolveDependency, resolveDep, notFoundValue_of, delegated in *.
  rewrite Hself in *. cbv zeta in *.
  destruct (fuel_of (St records parent)) as [|fuel]; [done|].
  rewrite tryResolveToken_S in *. destruct fuel as [|fuel]; [done|].
  rewrite resolveToken_S in *.
  destruct (has_flag (options depRecord) CheckParent); simpl negb in *; cbv iota in *.
  - destruct (Injector_get fuel parent _ _) as [[r1 p1] tr1] eqn:E1.
    assert (r1 ≠ OutOfFuel) as Hne by (intros ->; by apply Htot).
    rewrite (Injector_get_fuel _ _ _ _ _ _ _ E1 Hne). by destruct r1.
  - destruct fuel as [|fuel]; [done|]. rewrite Injector_get_S.
    by destruct (NullInjector_get _ _).
Qed.

(** C5 (amended). A dependency entry declared with the [SkipSelf] modifier
    never inspects the table of the requesting injector: the table is left
    as it is and the outcome is the same for any table. Unless the entry is
    also declared [Self], it resolves to what the parent's [get] gives for
    the token, never to the child's own record. *)
Theorem skip_self_never_own_table self annotations records parent :
  ASkipSelf ∈ annotations →
  let depRecord := computeDep (DepArray self annotations) in
  (resolveDependency depRecord records parent).1.1.2 = records ∧
  (∀ records',
     (resolveDependency depRecord records' parent).1.1.1
       = (resolveDependency depRecord records parent).1.1.1) ∧
  (ASelf ∉ annotations →
     resolveDependency depRecord records parent =
     delegated (token depRecord) records
       (get parent (token depRecord) (notFoundValue_of depRecord))).
Proof.
  intros Hskip depRecord.
  pose proof (computeDep_flags self annotations) as [_ _ Hself Hparent].
  fold depRecord in Hself, Hparent.
  assert (has_flag (options depRecord) CheckSelf = false) as Hs.
  { destruct (has_flag (options depRecord) CheckSelf); [|done].
    by destruct (proj1 Hself eq_refl). }
  split; [|split].
  - rewrite resolveDependency_not_self by done.
    destruct (has_flag (options depRecord) CheckParent); [|done].
    unfold delegated. by destruct (get _ _ _) as [[r p] tr].
  - intros records'. rewrite !resolveDependency_not_self by done.
    destruct (has_flag (options depRecord) CheckParent); [|done].
    unfold delegated. by destruct (get _ _ _) as [[r p] tr].
  - intros Hnoself. rewrite resolveDependency_not_self by done.
    by rewrite (proj2 Hparent Hnoself).
Qed.

End SkipSelf.

(** The table and the parent of a static injector. *)
Definition records_of (inj : Injector) : gmap Token Record_ :=
  match inj with
  | NULL_INJECTOR => ∅
  | StaticInjector _ records _ => records
  end.

Definition parent_of (inj : Injector) : Injector :=
  match inj with
  | NULL_INJECTOR => NULL_INJECTOR
  | StaticInjector _ _ parent => parent
  end.

(** The witness of C5: the child has the literal 1 for [X], the parent the
    literal 2, and the entry [[SkipSelf, X]] of the child resolves to 2. *)
Lemma skip_self_never_own_table_witness :
  ASkipSelf ∈ [ASkipSelf; AToken Demo.X] ∧
  resolveDependency (H := Demo.host)
    (computeDep (DepArray 0 [ASkipSelf; AToken Demo.X]))
    (records_of Demo.childX) Demo.parentX
  = (Normal (VNumber 2), records_of Demo.childX, Demo.parentX, []).
Proof.
  assert (ASkipSelf ∈ [ASkipSelf; AToken Demo.X]) as Hin by left.
  split; [exact Hin|].
  rewrite (proj2 (proj2 (skip_self_never_own_table (H := Demo.host) 0
                           [ASkipSelf; AToken Demo.X]
                           (records_of Demo.childX) Demo.parentX Hin))).
  - by vm_compute.
  - intros Hself. apply elem_of_cons in Hself as [Hself|Hself]; [discriminate|].
    apply list_elem_of_singleton in Hself. discriminate.
Defined.

(** The counterexample to C5 as stated: the entry [[SkipSelf, Self, X]] is
    declared with [SkipSelf], the child has its own record for [X] and the
    parent provides [X] (the literal 2); the entry does not resolve to the
    parent's value, it throws the null injector's error. *)
Lemma skip_self_counterexample :
  ASkipSelf ∈ [ASkipSelf; ASelf; AToken Demo.X] ∧
  (get (H := Demo.host) Demo.parentX Demo.X VUndefined).1.1 = Normal (VNumber 2) ∧
  (resolveDependency (H := Demo.host)
     (computeDep (DepArray 0 [ASkipSelf; ASelf; AToken Demo.X]))
     (records_of Demo.childX) Demo.parentX).1.1.1
  = Abrupt (mkError (js "NullInjectorError: No provider for T4!") (Some [Demo.X]) None).
Proof. split; [left|]. split; by vm_compute. Qed.

Section Order.
Context `{Host}.


End Order.


(** ** Multi providers *)

Section Multi.
Context `{Host}.

(** While a token has a placeholder, a regular provider for it fails. *)
Lemma placeholder_no_regular M leaves records records' :
  Forall is_leaf leaves → processAll records leaves = inr records' →
  is_placeholder records M → regulars M leaves = [].
Proof.
  intros Hleaves. revert records.
  induction Hleaves as [|leaf rest Hleaf _ IH]; intros records; [done|].
  cbn [processAll]. destruct (recursivelyProcessProviders records leaf) as [e|records1] eqn:E1; [done|].
  intros Hrest (r & Hr & Hfn).
  pose proof (entry_inv_leaf M _ _ _ Hleaf E1) as Hstep.
  unfold entry_inv in Hstep. rewrite Hr, decide_True in Hstep by done.
  rewrite regulars_cons, (IH _ Hrest) by (eexists; split; [exact Hstep|done]).
  rewrite app_nil_r. unfold regulars. simpl. rewrite app_nil_r.
  destruct leaf as [|items|f|p|]; try done.
  case_decide as Hp; [|done]. exfalso. destruct Hp as [Hprov Hmulti].
  simpl in E1. rewrite Hprov in E1.
  apply processProvider_inr in E1 as (resolved & _ & Hrun).
  rewrite Hmulti in Hrun. destruct Hrun as [Hnp _]. apply Hnp. by exists r.
Qed.

(** A list that is processed to the end does not mix multi and regular
    providers of one token. *)
Lemma no_mix M leaves records records' :
  Forall is_leaf leaves → processAll records leaves = inr records' →
  multis M leaves = [] ∨ regulars M leaves = [].
Proof.
  intros Hleaves. revert records.
  induction Hleaves as [|leaf rest Hleaf Hrest IH]; intros records; [by left|].
  cbn [processAll]. destruct (recursivelyProcessProviders records leaf) as [e|records1] eqn:E1; [done|].
  intros Hrun.
  pose proof (entry_inv_leaf M _ _ _ Hleaf E1) as Hstep.
  pose proof (entry_inv_processAll M _ _ _ Hrest Hrun) as Hall.
  rewrite multis_cons, regulars_cons.
  destruct (multis M [leaf]) as [|p ps] eqn:Hm.
  - destruct (regulars M [leaf]) as [|q qs] eqn:Hr; [by apply (IH records1)|].
    left. simpl.
    assert (is_regular records1 M) as (r1 & Hr1 & Hfn1).
    { unfold entry_inv in Hstep. rewrite Hm in Hstep.
      destruct (records !! M) as [r|] eqn:Hl.
      - case_decide as Hfn; [|by destruct Hstep].
        assert (regulars M [leaf] = []) as Hnil; [|congruence].
        eapply (placeholder_no_regular M [leaf] records records1); [by constructor| |by exists r].
        simpl. by rewrite E1.
      - apply Hstep. by rewrite Hr. }
    unfold entry_inv in Hall. rewrite Hr1, decide_False in Hall by done. by destruct Hall.
  - right.
    assert (is_placeholder records1 M) as Hph.
    { unfold entry_inv in Hstep. rewrite Hm in Hstep.
      destruct (records !! M) as [r|] eqn:Hl.
      - case_decide as Hfn; [|by destruct Hstep]. by eexists.
      - by eexists. }
    rewrite (placeholder_no_regular M rest records1 records') by done.
    rewrite app_nil_r.
    destruct leaf as [|items|f|q|]; try done.
    clear -Hm. unfold multis, regulars in *. cbn [mbind list_bind app] in *.
    rewrite app_nil_r in *.
    case_decide as Hq; [|done]. rewrite decide_False; [done|].
    intros [_ Hfalse]. destruct Hq as [_ Htrue]. congruence.
Qed.









End Multi.

Section MultiClaim.
Context `{Host}.






End MultiClaim.


(** ** Singletons *)

Section Singleton.
Context `{Host}.




End Singleton.



(** ** The path of an error *)

Section ErrorPath.
Context `{Host}.


(** [tryResolveToken] turns what is thrown into an [Error]. *)
Definition toError (x : thrown) : Error :=
  match x with
  | ThrownError e => e
  | ThrownValue v => new_Error (String_ v)
  end.

(** What was thrown, after the frames for the tokens [frames] (outermost
    first) have each put their token in front of the temporary path. *)
Definition with_frames (frames : list Token) (x : thrown) : Error :=
  mkError (message (toError x))
          (Some (frames ++ default [] (ngTempTokenPath (toError x))))
          (ngTokenPath (toError x)).


Lemma addToPath_frame T frames x :
  addToPath T (ThrownError (with_frames frames x)) = with_frames (T :: frames) x.
Proof. done. Qed.








End ErrorPath.

(** ** Decoration of errors *)

Section Decoration.
Context `{Host}.


End Decoration.



(** ** What a token denotes *)

(** A specification device, used in the proofs only: the value of a token
    in an injector, computed from the tables without a cache and without
    marking, to the depth [n]. The values already in the slots count as
    they are. *)
Section Denotation.
Context `{Host}.

Definition notFound (d : DependencyRecord) : val :=
  if has_flag (options d) Optional then VNull else THROW_IF_NOT_FOUND.

(** The injector that an entry of a record of the table [records] is
    looked up in. *)
Definition target (inj : Injector) (records : gmap Token Record_) (parent : Injector)
    (d : DependencyRecord) : Injector :=
  match (if has_flag (options d) CheckSelf then records !! token d else None) with
  | Some _ => inj
  | None => if negb (has_flag (options d) CheckParent) then NULL_INJECTOR else parent
  end.

Definition apply_to (r : Record_) (args : option (list val)) : option val :=
  match args with
  | Some args =>
      match invoke (fn r) (useNew r) args with
      | Returns v => Some v
      | Throws _ => None
      end
  | None => None
  end.

Fixpoint denote (n : nat) (inj : Injector) (T : Token) (nf : val) : option val :=
  match n with
  | O => None
  | S n =>
      match inj with
      | NULL_INJECTOR =>
          match NullInjector_get T nf with
          | Normal v => Some v
          | _ => None
          end
      | StaticInjector _ records parent =>
          match records !! T with
          | Some r =>
              match value r with
              | Value v => Some v
              | CIRCULAR => None
              | EMPTY =>
                  apply_to r
                    (mapM (λ d, denote n (target inj records parent d) (token d) (notFound d))
                          (deps r))
              end
          | None => denote n parent T nf
          end
      end
  end.

Lemma denote_mono n : ∀ inj T nf v,
  denote n inj T nf = Some v → denote (S n) inj T nf = Some v.
Proof.
  induction n as [|n IH]; intros inj T nf v; [done|].
  intros Hd. change (denote (S (S n)) inj T nf) with
    (match inj with
     | NULL_INJECTOR =>
         match NullInjector_get T nf with
         | Normal v => Some v
         | _ => None
         end
     | StaticInjector _ records parent =>
         match records !! T with
         | Some r =>
             match value r with
             | Value v => Some v
             | CIRCULAR => None
             | EMPTY =>
                 apply_to r
                   (mapM (λ d, denote (S n) (target inj records parent d) (token d) (notFound d))
                         (deps r))
             end
         | None => denote (S n) parent T nf
         end
     end).
  cbn [denote] in Hd.
  destruct inj as [|self records parent]; [done|].
  destruct (records !! T) as [r|]; [|by apply IH].
  destruct (value r); [|done|done].
  destruct (mapM _ (deps r)) as [args|] eqn:E; [|done].
  apply mapM_Some in E.
  assert (mapM (λ d, denote (S n) (target (StaticInjector self records parent)
                                     records parent d) (token d) (notFound d))
               (deps r) = Some args) as ->; [|done].
  apply mapM_Some. eapply Forall2_impl; [exact E|]. intros d v'. apply IH.
Qed.

Lemma denote_le n m inj T nf v :
  n ≤ m → denote n inj T nf = Some v → denote m inj T nf = Some v.
Proof. induction 1; [done|]. intros Hd. by apply denote_mono, IHle. Qed.

Lemma denote_det n m inj T nf v w :
  denote n inj T nf = Some v → denote m inj T nf = Some w → v = w.
Proof.
  intros Hn Hm.
  apply (denote_le n (n `max` m)) in Hn; [|lia].
  apply (denote_le m (n `max` m)) in Hm; [|lia]. congruence.
Qed.

Lemma denote_None n m inj T nf :
  n ≤ m → denote m inj T nf = None → denote n inj T nf = None.
Proof.
  intros Hle Hm. destruct (denote n inj T nf) as [v|] eqn:E; [|done].
  apply (denote_le n m) in E; [congruence|done].
Qed.

(** For a token of the table, the value to give when nothing is found
    plays no part. *)
Lemma denote_own n self records parent T r nf nf' :
  records !! T = Some r →
  denote n (StaticInjector self records parent) T nf
    = denote n (StaticInjector self records parent) T nf'.
Proof. intros Hr. destruct n as [|n]; [done|]. cbn [denote]. by rewrite Hr. Qed.

End Denotation.

(** ** Cached values are the denoted values *)

Section Coherence.
Context `{Host}.

(** A slot [y] of a later state against the slot [x] of the state [b] the
    injector started from: the value that was there is there, and a value
    that has come since is the value that the token denotes in [b]. *)
Definition slot_coherent (b : Injector) (T : Token) (x y : slot) : Prop :=
  match x with
  | Value w => y = Value w
  | EMPTY => ∀ v, y = Value v → ∃ n, denote n b T THROW_IF_NOT_FOUND = Some v
  | CIRCULAR => False
  end.

Definition table_coherent (b : Injector) (rb records : gmap Token Record_) : Prop :=
  ∀ T, match rb !! T, records !! T with
       | None, None => True
       | Some r0, Some r => static r0 = static r ∧ slot_coherent b T (value r0) (value r)
       | _, _ => False
       end.

Fixpoint coherent (b s : Injector) : Prop :=
  match b, s with
  | NULL_INJECTOR, NULL_INJECTOR => True
  | StaticInjector _ rb pb, StaticInjector _ records parent =>
      table_coherent b rb records ∧ coherent pb parent
  | _, _ => False
  end.

Lemma static_set_value r s : static (set_value r s) = static r.
Proof. by destruct r. Qed.

Lemma value_set_value r s : value (set_value r s) = s.
Proof. by destruct r. Qed.

Lemma slot_coherent_unresolved b T x y s :
  slot_coherent b T x y → (∀ v, y ≠ Value v) → (∀ v, s ≠ Value v) →
  slot_coherent b T x s.
Proof.
  destruct x as [| |w]; simpl.
  - intros _ _ Hs v ->. by destruct (Hs v).
  - done.
  - intros -> Hy. by destruct (Hy w).
Qed.

Lemma table_coherent_lookup b rb records T r :
  table_coherent b rb records → records !! T = Some r →
  ∃ r0, rb !! T = Some r0 ∧ static r0 = static r ∧ slot_coherent b T (value r0) (value r).
Proof.
  intros Hc Hr. specialize (Hc T). rewrite Hr in Hc.
  destruct (rb !! T) as [r0|]; [|done]. by exists r0.
Qed.

Lemma table_coherent_None b rb records T :
  table_coherent b rb records → (rb !! T = None ↔ records !! T = None).
Proof. intros Hc. specialize (Hc T). destruct (rb !! T), (records !! T); naive_solver. Qed.

Lemma table_coherent_insert b rb records T rec s r0 :
  table_coherent b rb records → rb !! T = Some r0 → static r0 = static rec →
  slot_coherent b T (value r0) s →
  table_coherent b rb (<[T := set_value rec s]> records).
Proof.
  intros Hc Hr0 Hst Hs K. destruct (decide (T = K)) as [<-|Hne].
  - rewrite lookup_insert_eq, Hr0. by rewrite static_set_value, value_set_value.
  - rewrite lookup_insert_ne by done. apply Hc.
Qed.

Lemma table_coherent_reset b rb records T record :
  table_coherent b rb records → table_coherent b rb (resetCircular T record records).
Proof.
  intros Hc. unfold resetCircular. destruct record as [rec|]; [|done].
  destruct (records !! T) as [r|] eqn:Hr; [|done].
  destruct (value r) eqn:Hv; [done| |done].
  destruct (table_coherent_lookup _ _ _ _ _ Hc Hr) as (r0 & Hr0 & Hst & Hs).
  eapply table_coherent_insert; [done|done|done|].
  eapply slot_coherent_unresolved; [exact Hs|by rewrite Hv|done].
Qed.

(** The state an injector starts from, with nothing in progress, is
    coherent with itself. *)
Lemma coherent_refl b : (∀ d T, slot_at b d T ≠ Some CIRCULAR) → coherent b b.
Proof.
  induction b as [|self rb pb IH]; [done|]. intros Hq. split.
  - intros T. destruct (rb !! T) as [r|] eqn:Hr; [|done]. split; [done|].
    specialize (Hq O T). unfold slot_at in Hq. cbn [record_at] in Hq.
    rewrite Hr in Hq. simpl in Hq.
    destruct (value r) as [| |w]; simpl; [done|done|done].
  - apply IH. intros d T. apply (Hq (S d) T).
Qed.

End Coherence.

Section Soundness.
Context `{Host}.

(** What [tryResolveToken] is asked: the token in the injector itself for a
    record of the table, in the parent it was given otherwise. *)
Definition asked (b pbx : Injector) (record : option Record_) : Injector :=
  match record with
  | Some _ => b
  | None => pbx
  end.

Definition sound_try (fuel : nat) : Prop :=
  ∀ self rb pb pbx token record records parent nf r records' parent' tr,
    let b := StaticInjector self rb pb in
    table_coherent b rb records → coherent pbx parent →
    record_ok records token record → (is_Some record → pbx = pb) →
    tryResolveToken fuel token record records parent nf = (r, records', parent', tr) →
    r ≠ OutOfFuel →
    table_coherent b rb records' ∧ coherent pbx parent' ∧
    ∀ v, r = Normal v → ∃ n, denote n (asked b pbx record) token nf = Some v.

Lemma target_asked self rb pb records d :
  table_coherent (StaticInjector self rb pb) rb records →
  asked (StaticInjector self rb pb)
        (if match (if has_flag (options d) CheckSelf then records !! token d else None) with
            | None => negb (has_flag (options d) CheckParent)
            | Some _ => false
            end then NULL_INJECTOR else pb)
        (if has_flag (options d) CheckSelf then records !! token d else None)
  = target (StaticInjector self rb pb) rb pb d.
Proof.
  intros Hc. unfold target, asked.
  destruct (has_flag (options d) CheckSelf); [|done].
  pose proof (table_coherent_None _ _ _ (token d) Hc) as Hn.
  destruct (records !! token d) as [r|] eqn:Hr, (rb !! token d) as [r0|] eqn:Hr0; try done.
  - discriminate (proj1 Hn eq_refl).
  - discriminate (proj2 Hn eq_refl).
Qed.

Lemma resolveDeps_sound fuel :
  sound_try fuel →
  ∀ depRecords self rb pb deps records parent r records' parent' tr,
    let b := StaticInjector self rb pb in
    table_coherent b rb records → coherent pb parent →
    resolveDeps (tryResolveToken fuel) depRecords deps records parent
      = (r, records', parent', tr) →
    r ≠ OutOfFuel →
    table_coherent b rb records' ∧ coherent pb parent' ∧
    ∀ args, r = Normal args →
      ∃ n vs, args = deps ++ vs ∧
              mapM (λ d, denote n (target b rb pb d) (token d) (notFound d)) depRecords
                = Some vs.
Proof.
  intros Htry depRecords.
  induction depRecords as [|d rest IH];
    intros self rb pb deps records parent r records' parent' tr b Hc Hp.
  { intros [= <- <- <- <-] _. split; [done|]. split; [done|].
    intros args [= <-]. exists O, []. by rewrite app_nil_r. }
  rewrite resolveDeps_cons. cbv zeta.
  pose proof (target_asked self rb pb records d Hc) as Htarget.
  set (childRecord := if has_flag (options d) CheckSelf then records !! token d else None)
    in *.
  set (toNull := match childRecord with
                 | None => negb (has_flag (options d) CheckParent)
                 | Some _ => false end) in *.
  destruct (tryResolveToken fuel _ _ _ _ _) as [[[r1 recs1] p1] tr1] eqn:E1.
  assert (coherent (if toNull then NULL_INJECTOR else pb)
                   (if toNull then NULL_INJECTOR else parent)) as Hpx
    by by destruct toNull.
  assert (is_Some childRecord → (if toNull then NULL_INJECTOR else pb) = pb) as Hsome.
  { intros [rc Hrc]. subst toNull. by rewrite Hrc. }
  destruct r1 as [v|e1|].
  - destruct (Htry self rb pb _ _ _ _ _ _ _ _ _ _ Hc Hpx (record_ok_child records d) Hsome
                E1 ltac:(done)) as (Hc1 & Hp1 & Hv).
    destruct (Hv v eq_refl) as (n1 & Hn1').
    assert (denote n1 (target b rb pb d) (token d) (notFound d) = Some v) as Hn1
      by (unfold b; rewrite <- Htarget; exact Hn1').
    destruct (resolveDeps _ rest _ _ _) as [[[r2 recs2] p2] tr2] eqn:E2.
    intros [= <- <- <- <-] Hne.
    assert (coherent pb (if toNull then parent else p1)) as Hp1' by by destruct toNull.
    destruct (IH self rb pb _ _ _ _ _ _ _ Hc1 Hp1' E2 Hne) as (Hc2 & Hp2 & Hargs).
    split; [done|]. split; [done|]. intros args ->.
    destruct (Hargs args eq_refl) as (n2 & vs & -> & Hvs).
    exists (n1 `max` n2), (v :: vs). split; [by rewrite <- app_assoc|].
    apply mapM_Some. constructor.
    + eapply denote_le; [|exact Hn1]. lia.
    + apply mapM_Some in Hvs. eapply Forall2_impl; [exact Hvs|].
      intros d' v'. apply denote_le. lia.
  - intros [= <- <- <- <-] _.
    destruct (Htry self rb pb _ _ _ _ _ _ _ _ _ _ Hc Hpx (record_ok_child records d) Hsome
                E1 ltac:(done)) as (Hc1 & Hp1 & _).
    split; [done|]. split; [by destruct toNull|done].
  - by intros [= <- <- <- <-].
Qed.

Lemma engine_sound fuel :
  (∀ b inj token nf r inj' tr,
      coherent b inj →
      Injector_get fuel inj token nf = (r, inj', tr) → r ≠ OutOfFuel →
      coherent b inj' ∧ ∀ v, r = Normal v → ∃ n, denote n b token nf = Some v) ∧
  sound_try fuel ∧
  (∀ self rb pb pbx token record records parent nf r records' parent' tr,
      let b := StaticInjector self rb pb in
      table_coherent b rb records → coherent pbx parent →
      record_ok records token record → (is_Some record → pbx = pb) →
      resolveToken fuel token record records parent nf = (r, records', parent', tr) →
      r ≠ OutOfFuel →
      table_coherent b rb records' ∧ coherent pbx parent' ∧
      ∀ v, r = Normal v → ∃ n, denote n (asked b pbx record) token nf = Some v).
Proof.
  induction fuel as [|fuel (IHg & IHt & IHr)].
  { split; [|split].
    - by intros b inj token nf r inj' tr _ [= <- _ _].
    - by intros self rb pb pbx token record records parent nf r records' parent' tr b
        _ _ _ _ [= <- _ _ _].
    - by intros self rb pb pbx token record records parent nf r records' parent' tr b
        _ _ _ _ [= <- _ _ _]. }
  split; [|split].
  - intros b inj token nf r inj' tr Hb. rewrite Injector_get_S.
    destruct inj as [|self records parent].
    { destruct b; [|done]. intros [= <- <- _] _. split; [done|].
      intros v Hv. exists 1. cbn [denote]. by rewrite Hv. }
    destruct b as [|self0 rb pb]; [done|]. destruct Hb as [Hc Hp].
    destruct (tryResolveToken fuel _ _ _ _ _) as [[[r1 recs1] p1] tr1] eqn:E1.
    intros Hrun Hne.
    assert (r1 ≠ OutOfFuel) as Hne1 by (destruct r1; by simplify_eq).
    destruct (IHt self0 rb pb pb _ _ _ _ _ _ _ _ _ Hc Hp (record_ok_lookup records token)
                ltac:(done) E1 Hne1) as (Hc1 & Hp1 & Hv).
    destruct r1 as [v1|e1|]; [| |done]; injection Hrun as <- <- <-.
    + split; [done|]. intros v [= <-]. destruct (Hv v1 eq_refl) as (n & Hn).
      unfold asked in Hn. destruct (records !! token) as [rec|] eqn:Hrec; [by exists n|].
      exists (S n). cbn [denote].
      by rewrite (proj2 (table_coherent_None _ _ _ token Hc) Hrec).
    + split; [done|]. done.
  - intros self rb pb pbx token record records parent nf r records' parent' tr b
      Hc Hp Hok Hsome. rewrite tryResolveToken_S.
    destruct (resolveToken fuel _ _ _ _ _) as [[[r1 recs1] p1] tr1] eqn:E1.
    intros Hrun Hne.
    assert (r1 ≠ OutOfFuel) as Hne1 by (destruct r1; by simplify_eq).
    destruct (IHr self rb pb pbx _ _ _ _ _ _ _ _ _ Hc Hp Hok Hsome E1 Hne1)
      as (Hc1 & Hp1 & Hv).
    destruct r1 as [v1|e1|]; [| |done]; injection Hrun as <- <- <- <-.
    + split; [exact Hc1|]. split; [exact Hp1|]. intros v [= <-]. by apply Hv.
    + split; [by apply table_coherent_reset|]. split; [exact Hp1|done].
  - intros self rb pb pbx token record records parent nf r records' parent' tr b
      Hc Hp Hok Hsome. subst b. rewrite resolveToken_S.
    destruct record as [rec|].
    + assert (records !! token = Some rec) as Hlook by by apply Hok.
      rewrite (Hsome ltac:(done)) in *.
      destruct (table_coherent_lookup _ _ _ _ _ Hc Hlook) as (r0 & Hr0 & Hst & Hs).
      destruct (value rec) as [| |w] eqn:Hv.
      * cbv zeta.
        assert (value r0 = EMPTY) as Hv0.
        { destruct (value r0) as [| |w]; simpl in Hs; [done|done|congruence]. }
        assert (table_coherent (StaticInjector self rb pb) rb
                  (<[token := set_value rec CIRCULAR]> records)) as Hcm.
        { eapply table_coherent_insert; [done|done|done|]. by rewrite Hv0. }
        destruct (resolveDeps _ _ _ _ _) as [[[r1 recs1] p1] tr1] eqn:E1.
        intros Hrun Hne.
        assert (r1 ≠ OutOfFuel) as Hne1 by (destruct r1; by simplify_eq).
        destruct (resolveDeps_sound fuel IHt _ self rb pb _ _ _ _ _ _ _ Hcm Hp E1 Hne1)
          as (Hc1 & Hp1 & Hargs).
        destruct r1 as [args|e1|]; [| |done].
        -- destruct (Hargs args eq_refl) as (n & vs & -> & Hvs). simpl in Hrun.
           destruct (invoke _ _ _) as [v|x] eqn:Hinv; injection Hrun as <- <- <- <-.
           ++ assert (denote (S n) (StaticInjector self rb pb) token nf = Some v) as Hd.
              { cbn [denote]. rewrite Hr0, Hv0.
                unfold static in Hst. injection Hst as Hfn Hnew Hdeps.
                rewrite Hdeps, Hvs. unfold apply_to.
                by rewrite Hfn, Hnew, Hinv. }
              split; [|split; [done|]].
              ** eapply table_coherent_insert; [done|done|done|].
                 rewrite Hv0. intros v' [= <-]. exists (S n).
                 by rewrite (denote_own _ _ _ _ _ _ THROW_IF_NOT_FOUND nf Hr0).
              ** intros v' [= <-]. by exists (S n).
           ++ done.
        -- injection Hrun as <- <- <- <-. done.
      * intros [= <- <- <- <-] _. done.
      * intros [= <- <- <- <-] _. split; [done|]. split; [done|]. intros v [= <-].
        destruct (value r0) as [| |w0] eqn:Hv0; simpl in Hs.
        -- destruct (Hs w eq_refl) as (n & Hn). exists n. cbn [asked].
           by rewrite (denote_own _ _ _ _ _ _ nf THROW_IF_NOT_FOUND Hr0).
        -- done.
        -- exists 1. cbn [asked denote]. rewrite Hr0, Hv0. congruence.
    + destruct (Injector_get fuel parent _ _) as [[r1 p1] tr1] eqn:E1.
      cbv zeta. intros Hrun Hne.
      assert (r1 ≠ OutOfFuel) as Hne1 by (intros ->; by injection Hrun as <- _ _ _).
      destruct (IHg pbx _ _ _ _ _ _ Hp E1 Hne1) as (Hp1 & Hv).
      destruct r1 as [v1|e1|]; [| |done]; injection Hrun as <- <- <- <-.
      * split; [done|]. split; [done|]. intros v [= <-]. by apply Hv.
      * done.
Qed.

End Soundness.

Section Completeness.
Context `{Host}.

(** Nothing in progress, in an injector and its ancestors. *)
Definition unmarked (inj : Injector) : Prop :=
  ∀ d T, slot_at inj d T ≠ Some CIRCULAR.

(** The records in progress are records that denote nothing to the depth
    [n]: the frames above the one for a token that does. *)
Definition quiet (n : nat) (b : Injector) (records : gmap Token Record_) : Prop :=
  ∀ K r nf, records !! K = Some r → value r = CIRCULAR → denote n b K nf = None.

Lemma unmarked_quiet n b p : unmarked p → quiet n b (records_of p).
Proof.
  intros Hp K r nf Hr Hv. destruct p as [|self records parent]; [done|].
  destruct (Hp O K). unfold slot_at. cbn [record_at]. simpl in Hr. by rewrite Hr, <- Hv.
Qed.

Lemma unmarked_parent p : unmarked p → unmarked (parent_of p).
Proof.
  intros Hp d T. destruct p as [|self records parent]; [done|]. apply (Hp (S d) T).
Qed.

Lemma quiet_le n m b records : n ≤ m → quiet m b records → quiet n b records.
Proof. intros Hle Hq K r nf Hr Hv. eapply denote_None; [done|]. by eapply Hq. Qed.

(** What is in progress after a call was in progress before it. *)
Lemma try_marks fuel token record records parent nf r records' parent' tr :
  record_ok records token record →
  tryResolveToken fuel token record records parent nf = (r, records', parent', tr) →
  r ≠ OutOfFuel →
  (∀ n b, quiet n b records → quiet n b records') ∧
  (unmarked parent → unmarked parent').
Proof.
  intros Hok Hrun Hne.
  destruct (engine_inv fuel) as (_ & Hinv & _).
  pose proof (inv_evolves _ _ _ _ (Hinv _ _ _ _ _ _ _ _ _ Hok Hrun Hne)) as Hev.
  split.
  - intros n b Hq K r' nf' Hr' Hv'.
    destruct (Hev O K) as [_ Hc]. unfold slot_at in Hc. cbn [record_at] in Hc.
    rewrite Hr' in Hc. simpl in Hc. rewrite Hv' in Hc. specialize (Hc eq_refl).
    destruct (records !! K) as [r0|] eqn:Hr0; [|done]. injection Hc as Hc.
    by eapply Hq.
  - intros Hp d T Hs. destruct (Hev (S d) T) as [_ Hc].
    by apply (Hp d T), Hc.
Qed.

Definition complete_own (n : nat) : Prop :=
  ∀ fuel self rb pb token rec records parent nf v r records' parent' tr,
    table_coherent (StaticInjector self rb pb) rb records → coherent pb parent →
    unmarked parent → quiet n (StaticInjector self rb pb) records →
    records !! token = Some rec →
    denote n (StaticInjector self rb pb) token nf = Some v →
    tryResolveToken fuel token (Some rec) records parent nf = (r, records', parent', tr) →
    r ≠ OutOfFuel → r = Normal v.

Definition complete_get (n : nat) : Prop :=
  ∀ fuel b inj token nf v r inj' tr,
    coherent b inj → unmarked (parent_of inj) → quiet n b (records_of inj) →
    denote n b token nf = Some v →
    Injector_get fuel inj token nf = (r, inj', tr) →
    r ≠ OutOfFuel → r = Normal v.

Lemma resolveDeps_complete n :
  complete_own n → complete_get n →
  ∀ fuel depRecords self rb pb deps records parent vs r records' parent' tr,
    table_coherent (StaticInjector self rb pb) rb records → coherent pb parent →
    unmarked parent → quiet n (StaticInjector self rb pb) records →
    mapM (λ d, denote n (target (StaticInjector self rb pb) rb pb d) (token d) (notFound d))
         depRecords = Some vs →
    resolveDeps (tryResolveToken fuel) depRecords deps records parent
      = (r, records', parent', tr) →
    r ≠ OutOfFuel → r = Normal (deps ++ vs).
Proof.
  intros Hown Hget fuel depRecords.
  induction depRecords as [|d rest IH];
    intros self rb pb deps records parent vs r records' parent' tr Hc Hp Hun Hq Hvs.
  { injection Hvs as <-. intros [= <- _ _ _] _. by rewrite app_nil_r. }
  apply mapM_Some in Hvs. apply Forall2_cons_inv_l in Hvs as (v & vs' & Hv & Hvs' & ->).
  apply mapM_Some in Hvs'.
  rewrite resolveDeps_cons. cbv zeta.
  pose proof (target_asked self rb pb records d Hc) as Htarget.
  set (childRecord := if has_flag (options d) CheckSelf then records !! token d else None)
    in *.
  set (toNull := match childRecord with
                 | None => negb (has_flag (options d) CheckParent)
                 | Some _ => false end) in *.
  destruct (tryResolveToken fuel _ _ _ _ _) as [[[r1 recs1] p1] tr1] eqn:E1.
  intros Hrun Hne.
  assert (r1 ≠ OutOfFuel) as Hne1.
  { intros ->. by injection Hrun as <- _ _ _. }
  assert (coherent (if toNull then NULL_INJECTOR else pb)
                   (if toNull then NULL_INJECTOR else parent)) as Hpx
    by by destruct toNull.
  assert (is_Some childRecord → (if toNull then NULL_INJECTOR else pb) = pb) as Hsome.
  { intros [rc Hrc]. subst toNull. by rewrite Hrc. }
  assert (unmarked (if toNull then NULL_INJECTOR else parent)) as Hunx
    by by destruct toNull.
  rewrite <- Htarget in Hv.
  assert (r1 = Normal v) as ->.
  { destruct childRecord as [rc|] eqn:Hrc.
    - cbn [asked] in Hv. eapply Hown; [exact Hc|exact Hp|exact Hun|exact Hq| |exact Hv| |done].
      + apply (record_ok_child records d). fold childRecord. by rewrite Hrc.
      + subst toNull. exact E1.
    - cbn [asked] in Hv.
      destruct fuel as [|fuel]; [by injection E1 as <- _ _ _|].
      rewrite tryResolveToken_S in E1.
      destruct fuel as [|fuel]; [by injection E1 as <- _ _ _|].
      rewrite resolveToken_S in E1.
      destruct (Injector_get fuel _ _ _) as [[r0 p0] tr0] eqn:E0. cbv zeta in E1.
      assert (r0 ≠ OutOfFuel) as Hne0.
      { intros ->. by injection E1 as <- _ _ _. }
      assert (r0 = Normal v) as ->.
      { eapply Hget; [exact Hpx|by apply unmarked_parent|by apply unmarked_quiet
                     |exact Hv|exact E0|exact Hne0]. }
      by injection E1 as <- _ _ _. }
  destruct (engine_sound fuel) as (_ & Hsound & _).
  destruct (Hsound self rb pb _ _ _ _ _ _ _ _ _ _ Hc Hpx (record_ok_child records d) Hsome
              E1 ltac:(done)) as (Hc1 & Hp1 & _).
  destruct (try_marks _ _ _ _ _ _ _ _ _ _ (record_ok_child records d) E1 ltac:(done))
    as (Hq1 & Hun1).
  destruct (resolveDeps _ rest _ _ _) as [[[r2 recs2] p2] tr2] eqn:E2.
  injection Hrun as <- <- <- <-.
  change (v :: vs') with ([v] ++ vs'). rewrite (app_assoc deps [v] vs').
  eapply IH; [exact Hc1| | |by apply Hq1|exact Hvs'|exact E2|exact Hne].
  - by destruct toNull.
  - destruct toNull; [done|by apply Hun1, Hunx].
Qed.

Lemma engine_complete n : complete_own n ∧ complete_get n.
Proof.
  induction n as [|n [IHown IHget]].
  { split; [by intros fuel self rb pb token rec records parent nf v r records' parent' tr
                  _ _ _ _ _ [=]
           |by intros fuel b inj token nf v r inj' tr _ _ _ [=]]. }
  assert (complete_own (S n)) as Hown.
  { intros fuel self rb pb token rec records parent nf v r records' parent' tr
      Hc Hp Hun Hq Hlook Hd Hrun Hne.
    destruct (denote n (StaticInjector self rb pb) token nf) as [v'|] eqn:Hdn.
    { (* the token denotes its value at a lesser depth already *)
      assert (v' = v) as -> by (eapply denote_det; eauto).
      eapply IHown; [exact Hc|exact Hp|exact Hun| |exact Hlook|exact Hdn|exact Hrun|exact Hne].
      eapply quiet_le; [|exact Hq]. lia. }
    destruct (table_coherent_lookup _ _ _ _ _ Hc Hlook) as (r0 & Hr0 & Hst & Hs).
    destruct fuel as [|fuel]; [by injection Hrun as <- _ _ _|].
    rewrite tryResolveToken_S in Hrun.
    destruct fuel as [|fuel]; [by injection Hrun as <- _ _ _|].
    rewrite resolveToken_S in Hrun.
    destruct (value rec) as [| |w] eqn:Hv.
    - cbv zeta in Hrun.
      assert (value r0 = EMPTY) as Hv0.
      { destruct (value r0) as [| |w]; simpl in Hs; [done|done|congruence]. }
      pose proof Hd as Hd'. cbn [denote] in Hd'. rewrite Hr0, Hv0 in Hd'.
      destruct (mapM _ (deps r0)) as [args|] eqn:Hargs; [|done]. simpl in Hd'.
      destruct (invoke (fn r0) (useNew r0) args) as [v0|x0] eqn:Hinv; [|done].
      injection Hd' as ->.
      unfold static in Hst. injection Hst as Hfn Hnew Hdeps.
      destruct (resolveDeps _ _ _ _ _) as [[[r1 recs1] p1] tr1] eqn:E1.
      assert (r1 ≠ OutOfFuel) as Hne1.
      { intros ->. injection Hrun as <- _ _ _. done. }
      assert (r1 = Normal ([] ++ args)) as ->.
      2:{ simpl in Hrun. rewrite <- Hfn, <- Hnew, Hinv in Hrun.
          by injection Hrun as <- _ _ _. }
      eapply (resolveDeps_complete n IHown IHget _ (deps rec) self rb pb);
        [ |exact Hp|exact Hun| |rewrite <- Hdeps; exact Hargs|exact E1|exact Hne1].
      + eapply table_coherent_insert; [done|done|by unfold static; congruence|].
        by rewrite Hv0.
      + intros K r' nf' Hr' Hv'. destruct (decide (token = K)) as [<-|HK].
        * by rewrite (denote_own _ _ _ _ _ _ nf' nf Hr0).
        * rewrite lookup_insert_ne in Hr' by done.
          eapply denote_None; [|by eapply Hq]. lia.
    - by rewrite (Hq _ _ nf Hlook Hv) in Hd.
    - injection Hrun as <- _ _ _. f_equal.
      destruct (value r0) as [| |w0] eqn:Hv0; simpl in Hs.
      + destruct (Hs w eq_refl) as (m & Hm).
        rewrite (denote_own _ _ _ _ _ _ _ nf Hr0) in Hm. eapply denote_det; eauto.
      + done.
      + cbn [denote] in Hd. rewrite Hr0, Hv0 in Hd. congruence. }
  split; [done|].
  intros fuel b inj token nf v r inj' tr Hb Hun Hq Hd Hrun Hne.
  destruct fuel as [|fuel]; [by injection Hrun as <- _ _|].
  rewrite Injector_get_S in Hrun.
  destruct inj as [|self records parent].
  { destruct b; [|done]. cbn [denote] in Hd. injection Hrun as <- _ _.
    destruct (NullInjector_get token nf); congruence. }
  destruct b as [|self0 rb pb]; [done|]. destruct Hb as [Hc Hp].
  destruct (tryResolveToken fuel _ _ _ _ _) as [[[r1 recs1] p1] tr1] eqn:E1.
  assert (r1 ≠ OutOfFuel) as Hne1.
  { intros ->. by injection Hrun as <- _ _. }
  assert (r1 = Normal v) as ->; [|by injection Hrun as <- _ _].
  destruct (records !! token) as [rec|] eqn:Hlook.
  - eapply Hown; [exact Hc|exact Hp|exact Hun|exact Hq|exact Hlook|exact Hd|exact E1|done].
  - cbn [denote] in Hd. rewrite (proj2 (table_coherent_None _ _ _ token Hc) Hlook) in Hd.
    destruct fuel as [|fuel]; [by injection E1 as <- _ _ _|].
    rewrite tryResolveToken_S in E1.
    destruct fuel as [|fuel]; [by injection E1 as <- _ _ _|].
    rewrite resolveToken_S in E1.
    destruct (Injector_get fuel _ _ _) as [[r0 p0] tr0] eqn:E0. cbv zeta in E1.
    assert (r0 ≠ OutOfFuel) as Hne0.
    { intros ->. by injection E1 as <- _ _ _. }
    assert (r0 = Normal v) as ->.
    { eapply IHget; [exact Hp|by apply unmarked_parent|by apply unmarked_quiet
                    |exact Hd|exact E0|exact Hne0]. }
    by injection E1 as <- _ _ _.
Qed.

End Completeness.

(** ** A call after another *)

Section Again.
Context `{Host}.

Lemma get_sound b inj T nf :
  coherent b inj →
  coherent b (get inj T nf).1.2 ∧
  ∀ v, (get inj T nf).1.1 = Normal v → ∃ n, denote n b T nf = Some v.
Proof.
  intros Hb. pose proof (Injector_get_total inj T nf) as Htot. unfold get in *.
  destruct (Injector_get _ _ _ _) as [[r inj'] tr] eqn:E.
  destruct (engine_sound (fuel_of inj)) as (Hg & _ & _). by eapply Hg.
Qed.

Lemma get_complete n b inj T nf v :
  coherent b inj → unmarked inj → denote n b T nf = Some v →
  (get inj T nf).1.1 = Normal v.
Proof.
  intros Hb Hun Hd. pose proof (Injector_get_total inj T nf) as Htot. unfold get in *.
  destruct (Injector_get _ _ _ _) as [[r inj'] tr] eqn:E.
  destruct (engine_complete n) as [_ Hg].
  eapply Hg; [exact Hb|by apply unmarked_parent|by apply unmarked_quiet
             |exact Hd|exact E|exact Htot].
Qed.



(** ** Cycles *)



End Again.

Section Circular.
Context `{Host}.





End Circular.

Section CircularDependency.
Context `{Host}.



End CircularDependency.





(** * More of the container *)

(** ** Termination *)

Section Termination.
Context `{Host}.

(** X1. Every call of [get] ends, by returning or by throwing, on every
    table, cyclic ones included: the recursion of [resolveToken] and
    [tryResolveToken] marks one more record of the table at each frame or
    moves to the parent, so the bound [fuel_of] is never used up; and any
    larger bound gives the same outcome, the same tables and the same
    invocations. *)
Theorem get_terminates inj token nf :
  (get inj token nf).1.1 ≠ OutOfFuel ∧
  ∀ fuel, fuel_of inj ≤ fuel → Injector_get fuel inj token nf = get inj token nf.
Proof.
  pose proof (Injector_get_total inj token nf) as Htot. split; [done|].
  intros fuel Hle. unfold get in *.
  destruct (Injector_get (fuel_of inj) inj token nf) as [[r inj'] tr] eqn:E.
  destruct (fuel_mono_aux (fuel_of inj)) as (Hm & _ & _). by eapply Hm.
Qed.

End Termination.

(** ** More on the provider table *)

(** A leaf that is not a falsy entry. *)
Definition is_entry (provider : StaticProvider) : Prop :=
  match provider with
  | PArray _ | PFalsy => False
  | _ => True
  end.

Lemma flatten_is_entry provider : Forall is_entry (flatten provider).
Proof.
  induction provider as [|items IH|f|p|] using StaticProvider_nested_ind;
    try (by repeat constructor).
  rewrite flatten_PArray. induction IH as [|item rest Hitem _ IHrest]; simpl; [done|].
  by apply Forall_app.
Qed.

Lemma flatten_entries leaves : Forall is_entry leaves → flatten (PArray leaves) = leaves.
Proof.
  rewrite flatten_PArray. induction 1 as [|leaf rest Hleaf _ IH]; [done|].
  change ((leaf :: rest) ≫= flatten) with (flatten leaf ++ (rest ≫= flatten)).
  rewrite IH. by destruct leaf.
Qed.

Section MoreTable.
Context `{Host}.

Lemma recursivelyProcessProviders_app records l1 l2 :
  recursivelyProcessProviders records (PArray (l1 ++ l2)) =
  match recursivelyProcessProviders records (PArray l1) with
  | inl e => inl e
  | inr records1 => recursivelyProcessProviders records1 (PArray l2)
  end.
Proof.
  rewrite !recursivelyProcessProviders_flatten.
  rewrite !flatten_PArray, bind_app, processAll_app.
  destruct (processAll records (l1 ≫= flatten)) as [e|records1]; [done|].
  by rewrite recursivelyProcessProviders_flatten, flatten_PArray.
Qed.

(** X2. Nesting plays no part in a provider list, and falsy entries are
    skipped: a list builds what its flattening builds, injector or error;
    and a list in two parts is processed as the first part, then the second
    on the table the first left. *)
Theorem nested_providers_flatten :
  (∀ self providers parent,
     StaticInjector_new self providers parent
       = StaticInjector_new self (flatten (PArray providers)) parent) ∧
  (∀ records l1 l2,
     recursivelyProcessProviders records (PArray (l1 ++ l2)) =
     match recursivelyProcessProviders records (PArray l1) with
     | inl e => inl e
     | inr records1 => recursivelyProcessProviders records1 (PArray l2)
     end).
Proof.
  split.
  - intros self providers parent. rewrite !StaticInjector_new_flatten.
    by rewrite (flatten_entries _ (flatten_is_entry (PArray providers))).
  - apply recursivelyProcessProviders_app.
Qed.

Lemma processAll_well_formed leaves records records' :
  processAll records leaves = inr records' → Forall is_entry leaves →
  Forall well_formed leaves.
Proof.
  intros Hrun Hleaves. revert records Hrun.
  induction Hleaves as [|leaf rest Hleaf _ IH]; intros records; [done|].
  simpl. destruct (recursivelyProcessProviders records leaf) as [e|records1] eqn:E1; [done|].
  intros Hrest. constructor; [|by eapply IH].
  destruct leaf as [|items|f|p|]; try done.
  simpl in E1. destruct (provide p) as [token|] eqn:Hprov; [|done].
  split; [done|]. apply processProvider_inr in E1 as (resolved & Hres & _). by exists resolved.
Qed.

(** X3. An injector is only ever built from a list in which every entry,
    after flattening, is a provider literal with a truthy [provide] that
    [resolveProvider] accepts, and in which no token has both multi and
    regular providers: a bare class or function, any other value, a
    literal without [provide] or without a usable recipe makes the
    constructor throw. *)
Theorem built_from_well_formed self providers parent inj :
  StaticInjector_new self providers parent = inr inj →
  Forall well_formed (flatten (PArray providers)) ∧
  ∀ M, multis M (flatten (PArray providers)) = [] ∨
       regulars M (flatten (PArray providers)) = [].
Proof.
  rewrite StaticInjector_new_flatten.
  destruct (processAll _ _) as [e|records] eqn:E; [done|]. intros _. split.
  - eapply processAll_well_formed; [exact E|apply flatten_is_entry].
  - intros M. eapply no_mix; [apply flatten_is_leaf|exact E].
Qed.

(** The last regular provider of a token leaves its record there. *)
Lemma last_regular self providers parent inj l1 p l2 T :
  StaticInjector_new self providers parent = inr inj →
  flatten (PArray providers) = l1 ++ PObject p :: l2 →
  provide p = Some T → multi p = false →
  (∀ q, PObject q ∈ l2 →
        provide q ≠ Some T ∧ (multi q = true → TProvider (oid q) ≠ T)) →
  ∃ r, resolveProvider p = inr r ∧ record_at inj O T = Some r.
Proof.
  rewrite StaticInjector_new_flatten.
  destruct (processAll _ _) as [e|records] eqn:E; [done|].
  intros [= <-] Hflat Hprov Hmulti Hl2.
  pose proof (flatten_is_leaf (PArray providers)) as Hleaves.
  rewrite Hflat in E, Hleaves.
  apply Forall_app in Hleaves as [_ Hleaves]. apply Forall_cons in Hleaves as [_ Hleaves].
  rewrite processAll_app in E. destruct (processAll _ l1) as [e|records1]; [done|].
  cbn [processAll] in E. simpl in E. rewrite Hprov in E.
  destruct (processProvider records1 p _) as [e|records2] eqn:E2; [done|].
  apply processProvider_regular in E2 as (r & Hres & Hlook); [|done].
  exists r. split; [done|]. cbn [record_at].
  by rewrite (processAll_untouched T l2 records2 records Hleaves E Hl2).
Qed.

(** X4. The last registration wins: when several regular providers name
    one token, the record of the token is the one [resolveProvider] makes
    of the last of them in the flattened list, whatever came before. *)
Theorem last_registration_wins self providers parent inj l1 p l2 T :
  StaticInjector_new self providers parent = inr inj →
  flatten (PArray providers) = l1 ++ PObject p :: l2 →
  provide p = Some T → multi p = false →
  (∀ q, PObject q ∈ l2 →
        provide q ≠ Some T ∧ (multi q = true → TProvider (oid q) ≠ T)) →
  ∃ r, resolveProvider p = inr r ∧ record_at inj O T = Some r.
Proof. apply last_regular. Qed.

End MoreTable.

(** A nested list with a falsy entry, in which [X] is registered twice. *)
Definition nestedProviders : list StaticProvider :=
  [Demo.valueProvider 1 Demo.X (VNumber 1);
   PArray [PFalsy; Demo.factoryProvider 2 Demo.A 1 [DepToken Demo.X];
           PArray [Demo.valueProvider 3 Demo.X (VNumber 2)]]].

Definition nested : Injector :=
  Demo.built (StaticInjector_new (H := Demo.host) 1 nestedProviders NULL_INJECTOR).

(** The witness of X3. *)
Lemma built_from_well_formed_witness :
  StaticInjector_new (H := Demo.host) 1 nestedProviders NULL_INJECTOR = inr nested ∧
  Forall (well_formed (H := Demo.host)) (flatten (PArray nestedProviders)).
Proof.
  assert (StaticInjector_new (H := Demo.host) 1 nestedProviders NULL_INJECTOR = inr nested)
    as Hnew by by vm_compute.
  split; [exact Hnew|].
  exact (proj1 (built_from_well_formed (H := Demo.host) 1 nestedProviders NULL_INJECTOR
                  nested Hnew)).
Defined.

(** The witness of X4: the second literal of [X] is the one in the table. *)
Lemma last_registration_wins_witness :
  StaticInjector_new (H := Demo.host) 1 nestedProviders NULL_INJECTOR = inr nested ∧
  ∃ r, resolveProvider (H := Demo.host)
         (mkProvider 3 (Some Demo.X) (Some (VNumber 2)) None None None None false) = inr r ∧
       record_at nested O Demo.X = Some r.
Proof.
  assert (StaticInjector_new (H := Demo.host) 1 nestedProviders NULL_INJECTOR = inr nested)
    as Hnew by by vm_compute.
  split; [exact Hnew|].
  apply (last_registration_wins (H := Demo.host) 1 nestedProviders NULL_INJECTOR nested
           [Demo.valueProvider 1 Demo.X (VNumber 1);
            Demo.factoryProvider 2 Demo.A 1 [DepToken Demo.X]]
           (mkProvider 3 (Some Demo.X) (Some (VNumber 2)) None None None None false)
           [] Demo.X Hnew); [done|done|done|].
  intros q Hq. by apply elem_of_nil in Hq.
Defined.

(** A provider of the list names the token [T]: as its [provide], or, for a
    multi provider, by being the literal itself. *)
Definition names_token (T : Token) (leaves : list StaticProvider) : Prop :=
  ∃ p, PObject p ∈ leaves ∧
       (provide p = Some T ∨ (multi p = true ∧ T = TProvider (oid p))).

Section TableTokens.
Context `{Host}.

Lemma processAll_tokens leaves records records' T :
  Forall is_leaf leaves → processAll records leaves = inr records' →
  is_Some (records' !! T) ↔ is_Some (records !! T) ∨ names_token T leaves.
Proof.
  intros Hleaves. revert records.
  induction Hleaves as [|leaf rest Hleaf _ IH]; intros records.
  { intros [= <-]. split; [by left|]. intros [?|(p & Hp & _)]; [done|].
    by apply elem_of_nil in Hp. }
  simpl. destruct (recursivelyProcessProviders records leaf) as [e|records1] eqn:E1; [done|].
  intros Hrest. rewrite (IH _ Hrest).
  assert (is_Some (records1 !! T) ↔ is_Some (records !! T) ∨ names_token T [leaf]) as ->.
  { destruct leaf as [|items|f|p|]; [|done|done| |done].
    { injection E1 as <-. split; [by left|]. intros [?|(p & Hp & _)]; [done|].
      apply list_elem_of_singleton in Hp. done. }
    simpl in E1. destruct (provide p) as [token|] eqn:Hprov; [|done].
    unfold resolveForwardRef in E1.
    apply processProvider_inr in E1 as (resolved & _ & Hrun).
    assert (names_token T [PObject p] ↔
            token = T ∨ (multi p = true ∧ T = TProvider (oid p))) as ->.
    { split.
      - intros (q & Hq & Hn). apply list_elem_of_singleton in Hq. injection Hq as ->.
        rewrite Hprov in Hn. destruct Hn as [[= ->]|Hn]; [by left|by right].
      - intros Hn. exists p. split; [left|]. rewrite Hprov.
        destruct Hn as [->|Hn]; [by left|by right]. }
    destruct (multi p).
    - destruct Hrun as (records1' & Hrec1 & _ & ->).
      rewrite lookup_insert_is_Some.
      assert (is_Some (records1' !! T) ↔ token = T ∨ is_Some (records !! T)) as Hr1.
      { destruct (records !! token) as [mp|] eqn:Hl; [destruct Hrec1 as [_ ->]|subst records1'];
          rewrite lookup_insert_is_Some; split; try naive_solver.
        - intros [->|Hs]; [by left|]. destruct (decide (token = T)); naive_solver.
        - intros [->|Hs]; [by left|]. destruct (decide (token = T)); naive_solver. }
      rewrite Hr1. split; [naive_solver|].
      destruct (decide (TProvider (oid p) = T)); naive_solver.
    - destruct Hrun as [_ ->]. rewrite lookup_insert_is_Some.
      split; [naive_solver|]. destruct (decide (token = T)); naive_solver. }
  unfold names_token. split.
  - intros [[Hs|(p & Hp & Hn)]|(p & Hp & Hn)]; [by left| |].
    + right. exists p. split; [|done]. apply list_elem_of_singleton in Hp as ->. left.
    + right. exists p. split; [by right|done].
  - intros [Hs|(p & Hp & Hn)]; [by left; left|].
    apply elem_of_cons in Hp as [<-|Hp].
    + left. right. exists p. split; [left|done].
    + right. by exists p.
Qed.

(** X5. The table of an injector holds a record for exactly the tokens
    that were registered: the [Injector] token, the [provide] of every
    provider of the flattened list, and every multi provider literal
    itself; no other token ever gets a record at construction. *)
Theorem table_tokens self providers parent inj T :
  StaticInjector_new self providers parent = inr inj →
  is_Some (record_at inj O T) ↔
  T = Injector_token ∨ names_token T (flatten (PArray providers)).
Proof.
  rewrite StaticInjector_new_flatten.
  destruct (processAll _ _) as [e|records] eqn:E; [done|]. intros [= <-].
  cbn [record_at].
  rewrite (processAll_tokens _ _ _ T (flatten_is_leaf (PArray providers)) E).
  rewrite lookup_insert_is_Some, lookup_empty. split.
  - intros [[->|[_ Hs]]|Hn]; [by left|by destruct Hs|by right].
  - intros [->|Hn]; [by left; left|by right].
Qed.

End TableTokens.

(** The witness of X5: [A] has a record in [nested], [B] has none. *)
Lemma table_tokens_witness :
  StaticInjector_new (H := Demo.host) 1 nestedProviders NULL_INJECTOR = inr nested ∧
  (is_Some (record_at nested O Demo.A) ↔
   Demo.A = Injector_token ∨ names_token Demo.A (flatten (PArray nestedProviders))) ∧
  record_at nested O Demo.A
    = Some (mkRecord (UserFn 1) false [mkDep Demo.X Default] EMPTY) ∧
  record_at nested O Demo.B = None.
Proof.
  assert (StaticInjector_new (H := Demo.host) 1 nestedProviders NULL_INJECTOR = inr nested)
    as Hnew by by vm_compute.
  split; [exact Hnew|]. split; [|split; by vm_compute].
  exact (table_tokens (H := Demo.host) 1 nestedProviders NULL_INJECTOR nested Demo.A Hnew).
Defined.

(** ** The parent chain *)

Section ParentChain.
Context `{Host}.

(** What a static injector makes of the answer of its parent for a token
    [T] that it has no record of. *)
Definition handed_down (self : nat) (records : gmap Token Record_) (T : Token)
    (answer : completion val Error * Injector * list event)
    : completion val Error * Injector * list event :=
  let '(r, p, tr) := answer in
  (match r with
   | Normal v => Normal v
   | Abrupt e => Abrupt (relay T e)
   | OutOfFuel => OutOfFuel
   end, StaticInjector self records p, in_parent <$> tr).

Lemma unregistered_token_goes_to_parent_aux self records parent T nf :
  records !! T = None →
  get (StaticInjector self records parent) T nf
    = handed_down self records T (get parent T nf).
Proof.
  intros Hlook.
  pose proof (Injector_get_total parent T nf) as Htot.
  destruct (get parent T nf) as [[r p] tr] eqn:E. simpl in Htot.
  unfold get in *. cbn [fuel_of].
  change (3 + 2 * size records + fuel_of parent)
    with (S (S (S (2 * size records + fuel_of parent)))).
  rewrite Injector_get_S, Hlook, tryResolveToken_S, resolveToken_S.
  destruct (fuel_mono_aux (fuel_of parent)) as (Hm & _ & _).
  rewrite (Hm _ _ _ _ _ _ E Htot (2 * size records + fuel_of parent) ltac:(lia)).
  unfold handed_down, relay. by destruct r.
Qed.

(** X6. A token without a record in the table of an injector is resolved by
    the parent, with the same value to give when nothing is found: the
    child returns what the parent returns, its own table is left as it is,
    the parent is left as its own [get] leaves it, and an error of the
    parent is thrown on with the token put on its path and decorated once
    more. *)
Theorem unregistered_token_goes_to_parent self records parent T nf :
  records !! T = None →
  get (StaticInjector self records parent) T nf
    = handed_down self records T (get parent T nf).
Proof. apply unregistered_token_goes_to_parent_aux. Qed.

Lemma tryResolveToken_own fuel T r records parent nf nf' :
  tryResolveToken fuel T (Some r) records parent nf
    = tryResolveToken fuel T (Some r) records parent nf'.
Proof.
  destruct fuel as [|fuel]; [done|]. rewrite !tryResolveToken_S.
  destruct fuel as [|fuel]; [done|]. by rewrite !resolveToken_S.
Qed.

(** X7. For a token that has a record in the table, the value to give when
    nothing is found plays no part: [get(token, notFoundValue)] does what
    [get(token)] does, so a fallback never hides the failure of a
    registered token. Likewise for a dependency entry that is looked up in
    the own table and found there: [Optional] and [Self] change nothing,
    and a failure is not turned into [null]. *)
Theorem registered_token_ignores_fallback :
  (∀ self records parent T nf nf',
     is_Some (records !! T) →
     get (StaticInjector self records parent) T nf
       = get (StaticInjector self records parent) T nf') ∧
  (∀ records parent d d',
     token d = token d' → is_Some (records !! token d) →
     has_flag (options d) CheckSelf = true → has_flag (options d') CheckSelf = true →
     resolveDependency d records parent = resolveDependency d' records parent).
Proof.
  split.
  - intros self records parent T nf nf' [r Hr]. unfold get. cbn [fuel_of].
    change (3 + 2 * size records + fuel_of parent)
      with (S (S (S (2 * size records + fuel_of parent)))).
    by rewrite !Injector_get_S, Hr, !tryResolveToken_S, !resolveToken_S.
  - intros records parent d d' Htoken [r Hr] Hself Hself'.
    unfold resolveDependency, resolveDep. cbv zeta.
    rewrite Hself, Hself', <- Htoken, Hr.
    by rewrite (tryResolveToken_own _ _ _ _ _
                  (if has_flag (options d) Optional then VNull else THROW_IF_NOT_FOUND)
                  (if has_flag (options d') Optional then VNull else THROW_IF_NOT_FOUND)).
Qed.

End ParentChain.

(** The witness of X6: [B] is not in the table of [Demo.childX], and its
    parent has no record of it either. *)
Lemma unregistered_token_goes_to_parent_witness :
  records_of Demo.childX !! Demo.B = None ∧
  get (H := Demo.host) (StaticInjector 2 (records_of Demo.childX) Demo.parentX)
      Demo.B (VNumber 7)
    = (Normal (VNumber 7), StaticInjector 2 (records_of Demo.childX) Demo.parentX, []).
Proof.
  assert (records_of Demo.childX !! Demo.B = None) as Hlook by by vm_compute.
  split; [exact Hlook|].
  rewrite (unregistered_token_goes_to_parent (H := Demo.host) 2 (records_of Demo.childX)
             Demo.parentX Demo.B (VNumber 7) Hlook).
  by vm_compute.
Defined.

(** The witness of X7: the factory of [A] throws, fallback or not. *)
Lemma registered_token_ignores_fallback_witness :
  is_Some (records_of Demo.throwing !! Demo.A) ∧
  get (H := Demo.host) (StaticInjector 1 (records_of Demo.throwing) NULL_INJECTOR)
      Demo.A (VNumber 7)
    = get (H := Demo.host) (StaticInjector 1 (records_of Demo.throwing) NULL_INJECTOR)
          Demo.A VUndefined.
Proof.
  assert (is_Some (records_of Demo.throwing !! Demo.A)) as Hsome
    by (vm_compute; by eexists).
  split; [exact Hsome|].
  exact (proj1 (registered_token_ignores_fallback (H := Demo.host)) 1
           (records_of Demo.throwing) NULL_INJECTOR Demo.A (VNumber 7) VUndefined Hsome).
Defined.

(** ** The cache is transparent *)

Section Transparent.
Context `{Host}.



(** The record that [resolveProvider] makes of [{provide, useExisting}]. *)
Definition is_alias (r : Record_) (E : Token) : Prop :=
  fn r = IDENT ∧ useNew r = false ∧ deps r = [mkDep E Default] ∧ value r = EMPTY.

Lemma resolveProvider_useExisting p E r :
  resolveProvider p = inr r →
  useExisting p = Some E → useValue p = None → useFactory p = None →
  providerDeps p = None ∨ providerDeps p = Some [] →
  is_alias r E.
Proof.
  unfold resolveProvider, computeDeps, is_alias.
  intros Hr HE Hv Hf Hd. rewrite HE, Hv, Hf in Hr.
  destruct Hd as [Hd|Hd]; rewrite Hd in Hr; by injection Hr as <-.
Qed.

Lemma alias_denote self records parent T E r nf v :
  records !! T = Some r → is_alias r E →
  (∃ n, denote n (StaticInjector self records parent) T nf = Some v) ↔
  (∃ n, denote n (StaticInjector self records parent) E THROW_IF_NOT_FOUND = Some v).
Proof.
  intros Hr (Hfn & Hnew & Hdeps & Hv).
  assert (∀ n, denote (S n) (StaticInjector self records parent) T nf
               = denote n (target (StaticInjector self records parent) records parent
                             (mkDep E Default)) E THROW_IF_NOT_FOUND) as HT.
  { intros n. cbn [denote]. rewrite Hr, Hv, Hdeps. cbn [mapM token].
    unfold notFound. cbn [options].
    change (has_flag Default Optional) with false. cbv iota.
    destruct (denote n _ E _) as [w|]; [|done]. simpl. unfold apply_to, invoke.
    by rewrite Hfn, Hnew. }
  unfold target in HT. cbn [options token] in HT.
  change (has_flag Default CheckSelf) with true in HT.
  change (has_flag Default CheckParent) with true in HT. cbn [negb] in HT.
  split; intros [n Hn].
  - destruct n as [|n]; [done|]. rewrite HT in Hn.
    destruct (records !! E) as [rE|] eqn:HE; [by exists n|].
    exists (S n). cbn [denote]. by rewrite HE.
  - destruct (records !! E) as [rE|] eqn:HE.
    + exists (S n). by rewrite HT.
    + destruct n as [|n]; [done|]. cbn [denote] in Hn. rewrite HE in Hn.
      exists (S n). by rewrite HT.
Qed.

(** X9. A provider [{provide: T, useExisting: E}] makes [T] an alias of
    [E]: on the injector built from the list, with nothing in progress in
    its ancestors, [get(T)] returns a value exactly when [get(E)] returns
    that value, whether [E] is a record of the same table or comes from
    the parent chain. *)
Theorem existing_provider_is_an_alias self providers parent inj l1 p l2 T E nf v :
  StaticInjector_new self providers parent = inr inj →
  flatten (PArray providers) = l1 ++ PObject p :: l2 →
  provide p = Some T → multi p = false →
  (∀ q, PObject q ∈ l2 →
        provide q ≠ Some T ∧ (multi q = true → TProvider (oid q) ≠ T)) →
  useExisting p = Some E → useValue p = None → useFactory p = None →
  providerDeps p = None ∨ providerDeps p = Some [] →
  (∀ d K, slot_at parent d K ≠ Some CIRCULAR) →
  (get inj T nf).1.1 = Normal v ↔ (get inj E THROW_IF_NOT_FOUND).1.1 = Normal v.
Proof.
  intros Hnew Hflat Hprov Hmulti Hlast HE Hv Hf Hd Hpar.
  destruct (last_regular _ _ _ _ _ _ _ _ Hnew Hflat Hprov Hmulti Hlast) as (r & Hres & Hr).
  pose proof (resolveProvider_useExisting _ _ _ Hres HE Hv Hf Hd) as Halias.
  assert (unmarked inj) as Hun.
  { intros d K. by apply (StaticInjector_new_no_in_progress _ _ _ _ Hnew). }
  pose proof (coherent_refl inj Hun) as Hb.
  destruct inj as [|self' records parent']; [done|]. cbn [record_at] in Hr.
  pose proof (alias_denote self' records parent' T E r nf v Hr Halias) as Hiff.
  split; intros Hget.
  - destruct (proj1 Hiff (proj2 (get_sound _ _ T nf Hb) v Hget)) as (n & Hn).
    by eapply get_complete.
  - destruct (proj2 Hiff (proj2 (get_sound _ _ E _ Hb) v Hget)) as (n & Hn).
    by eapply get_complete.
Qed.

End Transparent.


(** [A] is another name of [X]. *)
Definition existingProvider (o : nat) (t e : Token) : StaticProvider :=
  PObject (mkProvider o (Some t) None None (Some e) None None false).

Definition aliasProviders : list StaticProvider :=
  [Demo.valueProvider 1 Demo.X (VNumber 1); existingProvider 2 Demo.A Demo.X].

Definition aliased : Injector :=
  Demo.built (StaticInjector_new (H := Demo.host) 1 aliasProviders NULL_INJECTOR).

(** The witness of X9. *)
Lemma existing_provider_is_an_alias_witness :
  StaticInjector_new (H := Demo.host) 1 aliasProviders NULL_INJECTOR = inr aliased ∧
  ((get (H := Demo.host) aliased Demo.A VUndefined).1.1 = Normal (VNumber 1) ↔
   (get (H := Demo.host) aliased Demo.X THROW_IF_NOT_FOUND).1.1 = Normal (VNumber 1)) ∧
  (get (H := Demo.host) aliased Demo.A VUndefined).1.1 = Normal (VNumber 1).
Proof.
  assert (StaticInjector_new (H := Demo.host) 1 aliasProviders NULL_INJECTOR = inr aliased)
    as Hnew by by vm_compute.
  split; [exact Hnew|]. split; [|by vm_compute].
  apply (existing_provider_is_an_alias (H := Demo.host) 1 aliasProviders NULL_INJECTOR
           aliased [Demo.valueProvider 1 Demo.X (VNumber 1)]
           (mkProvider 2 (Some Demo.A) None None (Some Demo.X) None None false) []
           Demo.A Demo.X VUndefined (VNumber 1) Hnew); try done.
  - intros q Hq. by apply elem_of_nil in Hq.
  - by left.
Defined.

(** ** Annotated dependencies *)

#[global] Instance annotation_eq_dec : EqDecision annotation.
Proof. solve_decision. Defined.

(** The token that an annotation names, if it does. *)
Definition names (a : annotation) : option Token :=
  match a with
  | AInject t | AToken t => Some t
  | _ => None
  end.

Lemma foldl_annotate_token annotations : ∀ t options,
  (foldl annotate (t, options) annotations).1 = default t (last (omap names annotations)).
Proof.
  induction annotations as [|a rest IH]; intros t options; [done|].
  change (foldl annotate (t, options) (a :: rest))
    with (foldl annotate (annotate (t, options) a) rest).
  destruct a as [| | |t'|t']; cbn [annotate]; rewrite IH;
    unfold resolveForwardRef; cbn [omap list_omap names]; try done;
    (destruct (omap names rest) as [|x l] eqn:E; [done|]);
    change (last (t' :: x :: l)) with (last (x :: l));
    (destruct (proj2 (last_is_Some (x :: l)) ltac:(done)) as [y Hy]); by rewrite Hy.
Qed.

Lemma options_by_flags (a b : Z) :
  (0 ≤ a ≤ 7)%Z → (0 ≤ b ≤ 7)%Z →
  has_flag a Optional = has_flag b Optional →
  has_flag a CheckSelf = has_flag b CheckSelf →
  has_flag a CheckParent = has_flag b CheckParent →
  a = b.
Proof.
  intros Ha Hb.
  assert (a = 0 ∨ a = 1 ∨ a = 2 ∨ a = 3 ∨ a = 4 ∨ a = 5 ∨ a = 6 ∨ a = 7)%Z as Ha' by lia.
  assert (b = 0 ∨ b = 1 ∨ b = 2 ∨ b = 3 ∨ b = 4 ∨ b = 5 ∨ b = 6 ∨ b = 7)%Z as Hb' by lia.
  destruct Ha' as [->|[->|[->|[->|[->|[->|[->| ->]]]]]]];
    destruct Hb' as [->|[->|[->|[->|[->|[->|[->| ->]]]]]]]; by vm_compute.
Qed.

Lemma bool_iff_eq (x y : bool) : (x = true ↔ y = true) → x = y.
Proof. destruct x, y; naive_solver. Qed.

(** X10. The flags of an annotated dependency [[..., token]] depend on
    which modifiers occur, not on where or how often: [Optional] is set
    exactly when an [Optional] occurs, [CheckSelf] is cleared exactly when a
    [SkipSelf] occurs and [CheckParent] exactly when a [Self] occurs, so two
    arrays with the same annotations in another order have the same flags.
    The token is the one named last, by [Inject] or as a bare token; an
    array that names none stays the token itself. *)
Theorem annotations_in_any_order self annotations :
  (has_flag (options (computeDep (DepArray self annotations))) Optional = true
     ↔ AOptional ∈ annotations) ∧
  (has_flag (options (computeDep (DepArray self annotations))) CheckSelf = true
     ↔ ASkipSelf ∉ annotations) ∧
  (has_flag (options (computeDep (DepArray self annotations))) CheckParent = true
     ↔ ASelf ∉ annotations) ∧
  token (computeDep (DepArray self annotations))
    = default (TObject self) (last (omap names annotations)) ∧
  (∀ self' annotations',
     annotations ≡ₚ annotations' →
     options (computeDep (DepArray self' annotations'))
       = options (computeDep (DepArray self annotations))).
Proof.
  pose proof (computeDep_flags self annotations) as [Hrange Hopt Hself Hparent].
  split; [done|]. split; [done|]. split; [done|]. split.
  - pose proof (foldl_annotate_token annotations (TObject self) Default) as Ht.
    unfold computeDep, resolveForwardRef. by destruct (foldl annotate _ _).
  - intros self' annotations' Hperm.
    pose proof (computeDep_flags self' annotations') as [Hrange' Hopt' Hself' Hparent'].
    apply options_by_flags; [done|done|..]; apply bool_iff_eq.
    + by rewrite Hopt, Hopt', Hperm.
    + by rewrite Hself, Hself', Hperm.
    + by rewrite Hparent, Hparent', Hperm.
Qed.

Section SelfOnly.
Context `{Host}.

(** X11. A dependency entry declared [Self] never asks the parent: when the
    table of the injector has no record for its token, the entry is looked
    up in the null injector, whatever the parent provides. It throws the
    null injector's error, or resolves to [null] when it is [Optional] as
    well; the table and the parent are left as they are and nothing is
    invoked. *)
Theorem self_never_asks_parent self annotations records parent :
  ASelf ∈ annotations →
  records !! token (computeDep (DepArray self annotations)) = None →
  resolveDependency (computeDep (DepArray self annotations)) records parent
  = (if decide (AOptional ∈ annotations) then Normal VNull
     else Abrupt (addToPath (token (computeDep (DepArray self annotations)))
                    (ThrownError
                       (nullInjectorError (token (computeDep (DepArray self annotations)))))),
     records, parent, []).
Proof.
  intros HSelf Hlook.
  pose proof (computeDep_flags self annotations) as [_ Hopt _ Hparent].
  set (d := computeDep (DepArray self annotations)) in *.
  assert (has_flag (options d) CheckParent = false) as Hp.
  { destruct (has_flag (options d) CheckParent); [|done]. by destruct (proj1 Hparent eq_refl). }
  assert (has_flag (options d) Optional = bool_decide (AOptional ∈ annotations)) as Ho.
  { apply bool_iff_eq. by rewrite Hopt, bool_decide_eq_true. }
  pose proof (resolveDependency_total d records parent) as Htot.
  unfold resolveDependency, resolveDep in *. cbv zeta in *.
  assert ((if has_flag (options d) CheckSelf then records !! token d else None) = None)
    as Hchild by (by destruct (has_flag (options d) CheckSelf)).
  rewrite Hchild, Hp, Ho in *. cbn [negb] in *.
  destruct (fuel_of (St records parent)) as [|fuel]; [done|].
  rewrite tryResolveToken_S in *. destruct fuel as [|fuel]; [done|].
  rewrite resolveToken_S in *. destruct fuel as [|fuel]; [done|].
  rewrite Injector_get_S. unfold NullInjector_get, nullInjectorError.
  by case_bool_decide; rewrite ?decide_True, ?decide_False by done.
Qed.

End SelfOnly.

(** The witness of X11: the parent has the literal 2 for [X], and the
    entry [[Self, X]] of an injector with no record for [X] throws. *)
Lemma self_never_asks_parent_witness :
  ASelf ∈ [ASelf; AToken Demo.X] ∧
  records_of Demo.emptyChild !! Demo.X = None ∧
  (get (H := Demo.host) Demo.parentX Demo.X VUndefined).1.1 = Normal (VNumber 2) ∧
  resolveDependency (H := Demo.host) (computeDep (DepArray 0 [ASelf; AToken Demo.X]))
    (records_of Demo.emptyChild) Demo.parentX
  = (Abrupt (addToPath (H := Demo.host) Demo.X
               (ThrownError (nullInjectorError (H := Demo.host) Demo.X))),
     records_of Demo.emptyChild, Demo.parentX, []).
Proof.
  assert (ASelf ∈ [ASelf; AToken Demo.X]) as Hself by left.
  assert (records_of Demo.emptyChild !! Demo.X = None) as Hlook by by vm_compute.
  split; [exact Hself|]. split; [exact Hlook|]. split; [by vm_compute|].
  rewrite (self_never_asks_parent (H := Demo.host) 0 [ASelf; AToken Demo.X]
             (records_of Demo.emptyChild) Demo.parentX Hself Hlook).
  rewrite decide_False; [done|].
  intros Hin. apply elem_of_cons in Hin as [Hin|Hin]; [discriminate|].
  apply list_elem_of_singleton in Hin. discriminate.
Defined.

(** ** An injector with one value provider *)

Section OneValue.
Context `{Host}.



End OneValue.


(** ** The path of a circular dependency error *)

Section CyclePath.
Context `{Host}.








End CyclePath.

Section CyclePathEngine.
Context `{Host}.





End CyclePathEngine.


(** * The error handler

    [ErrorHandler] of [error_handler.ts]. The accessors [getOriginalError],
    [getDebugContext] and [getErrorLogger] are imported from [./errors],
    which is not among the sources: they are taken as functions of the
    error, over any type of values with a truthiness and a [null]. A chain
    of original errors need not end, so the loops take fuel. *)

Section ErrorHandler.
Context {V L : Type}.
Context (truthy : V → bool) (null : V).
Context (getOriginalError getDebugContext : V → V) (getErrorLogger : V → L).



Fixpoint _findContext (fuel : nat) (error : V) : option V :=
  match fuel with
  | O => None
  | S fuel =>
      if truthy error then
        if truthy (getDebugContext error) then Some (getDebugContext error)
        else _findContext fuel (getOriginalError error)
      else Some null
  end.



(** The [i]-th original error of [error]. *)
Definition original (i : nat) (error : V) : V := Nat.iter i getOriginalError error.


Lemma original_S i error : original (S i) error = original i (getOriginalError error).
Proof. unfold original. by rewrite Nat.iter_succ_r. Qed.




(** X15. [_findContext] returns the debug context of the first error of
    the chain (the error, its original error, and so on) that has one, and
    [null] when the chain ends before. *)
Theorem findContext_first k error fuel :
  (∀ i, i < k → truthy (original i error) = true ∧
                truthy (getDebugContext (original i error)) = false) →
  k < fuel →
  (truthy (original k error) = true →
   truthy (getDebugContext (original k error)) = true →
   _findContext fuel error = Some (getDebugContext (original k error))) ∧
  (truthy (original k error) = false → _findContext fuel error = Some null).
Proof.
  revert error fuel. induction k as [|k IH]; intros error fuel Hchain Hfuel.
  - destruct fuel as [|fuel]; [lia|]. cbn [_findContext].
    change (original 0 error) with error. split.
    + by intros -> ->.
    + by intros ->.
  - destruct fuel as [|fuel]; [lia|]. cbn [_findContext].
    destruct (Hchain 0 ltac:(lia)) as [H0 H0'].
    change (original 0 error) with error in H0, H0'. rewrite H0, H0', original_S.
    apply IH; [|lia]. intros i Hi. rewrite <- original_S. apply Hchain. lia.
Qed.






End ErrorHandler.

(** A chain of errors in miniature: the error [n] wraps the error [n - 1],
    0 is the only falsy value, and only the error 1 has a debug context,
    7. *)
Definition tinyTruthy (n : nat) : bool := negb (n =? 0).
Definition tinyContext (n : nat) : nat := if n =? 1 then 7 else 0.



(** The witness of X15: the first debug context from the error 3 on is the
    one of the error 1. *)
Lemma findContext_first_witness :
  (∀ i, i < 2 → tinyTruthy (original Nat.pred i 3) = true ∧
                tinyTruthy (tinyContext (original Nat.pred i 3)) = false) ∧
  _findContext tinyTruthy 0 Nat.pred tinyContext 3 3 = Some 7.
Proof.
  assert (∀ i, i < 2 → tinyTruthy (original Nat.pred i 3) = true ∧
                       tinyTruthy (tinyContext (original Nat.pred i 3)) = false) as Hchain.
  { intros i Hi. assert (i = 0 ∨ i = 1) as [-> | ->] by lia; done. }
  split; [exact Hchain|].
  exact (proj1 (findContext_first tinyTruthy 0 Nat.pred tinyContext 2 3 3 Hchain
                  ltac:(lia)) eq_refl eq_refl).
Defined.


(** * The order of the table: [toString]

    A JavaScript [Map] keeps its keys in the order in which they were first
    set, and [forEach] visits them in that order. For [toString] the table
    is built once more as such a map; it holds what the table above
    holds. *)

Definition Map : Type := list (Token * Record_).

Fixpoint Map_get (m : Map) (k : Token) : option Record_ :=
  match m with
  | [] => None
  | (k', v) :: rest => if decide (k' = k) then Some v else Map_get rest k
  end.

(** [m.set(k, v)]: in place for a key that is there, at the end for a new
    one. *)
Fixpoint Map_set (m : Map) (k : Token) (v : Record_) : Map :=
  match m with
  | [] => [(k, v)]
  | (k', v') :: rest =>
      if decide (k' = k) then (k', v) :: rest else (k', v') :: Map_set rest k v
  end.

Section OrderedTable.
Context `{Host}.

(** [recursivelyProcessProviders] on the map. *)
Definition processProviderM (records : Map) (provider : ProviderObj) (token : Token)
    : Error + Map :=
  match resolveProvider provider with
  | inl e => inl e
  | inr resolvedProvider =>
      let multiStep : Error + (Map * Token) :=
        if multi provider then
          let dep := mkDep (TProvider (oid provider)) Default in
          match Map_get records token with
          | Some multiProvider =>
              if decide (fn multiProvider = MULTI_PROVIDER_FN) then
                inr (Map_set records token
                       (mkRecord (fn multiProvider) (useNew multiProvider)
                          (deps multiProvider ++ [dep]) (value multiProvider)),
                     TProvider (oid provider))
              else inl (multiProviderMixError token)
          | None =>
              inr (Map_set records token (mkRecord MULTI_PROVIDER_FN false [dep] EMPTY),
                   TProvider (oid provider))
          end
        else inr (records, token) in
      match multiStep with
      | inl e => inl e
      | inr (records, token) =>
          match Map_get records token with
          | Some record =>
              if decide (fn record = MULTI_PROVIDER_FN)
              then inl (multiProviderMixError token)
              else inr (Map_set records token resolvedProvider)
          | None => inr (Map_set records token resolvedProvider)
          end
      end
  end.

Fixpoint recursivelyProcessProvidersM (records : Map) (provider : StaticProvider)
    : Error + Map :=
  match resolveForwardRef provider with
  | PFalsy => inr records
  | PArray items =>
      (fix loop (records : Map) (items : list StaticProvider) :=
         match items with
         | [] => inr records
         | item :: rest =>
             match recursivelyProcessProvidersM records item with
             | inl e => inl e
             | inr records => loop records rest
             end
         end) records items
  | PFunction f =>
      inl (staticError (js "Function/Class not supported") (ObjProvider provider))
  | PObject p =>
      match provide p with
      | Some token => processProviderM records p (resolveForwardRef token)
      | None => inl (staticError (js "Unexpected provider") (ObjProvider provider))
      end
  | POther => inl (staticError (js "Unexpected provider") (ObjProvider provider))
  end.

(** The [_records] of [new StaticInjector(providers, parent)]. *)
Definition StaticInjector_records (self : nat) (providers : list StaticProvider)
    : Error + Map :=
  recursivelyProcessProvidersM
    [(Injector_token, mkRecord IDENT false [] (Value (VInjector self)))]
    (PArray providers).

(** [StaticInjector.toString]. *)
Definition toString (records : Map) : jsstring :=
  js "StaticInjector[" ++ join (js ", ") (stringify <$> records.*1) ++ js "]".

End OrderedTable.

(** The keys seen so far, and one more. *)
Definition seen (acc : list Token) (k : Token) : list Token :=
  if decide (k ∈ acc) then acc else acc ++ [k].

(** The keys that the entry [leaf] of a flat provider list sets, in order:
    its token, and for a multi provider the provider literal as well. *)
Definition tokens_of (leaf : StaticProvider) : list Token :=
  match leaf with
  | PObject p =>
      match provide p with
      | Some t => if multi p then [t; TProvider (oid p)] else [t]
      | None => []
      end
  | _ => []
  end.

Lemma Map_get_lookup (m : Map) k : Map_get m k = (list_to_map m : gmap Token Record_) !! k.
Proof.
  induction m as [|[k' v] rest IH]; [done|]. simpl.
  destruct (decide (k' = k)) as [->|Hne].
  - by rewrite lookup_insert_eq.
  - by rewrite lookup_insert_ne.
Qed.

Lemma Map_set_insert (m : Map) k v :
  (list_to_map (Map_set m k v) : gmap Token Record_) = <[k := v]> (list_to_map m).
Proof.
  induction m as [|[k' v'] rest IH]; [done|]. simpl.
  destruct (decide (k' = k)) as [->|Hne]; simpl.
  - by rewrite insert_insert_eq.
  - by rewrite IH, insert_insert_ne.
Qed.

Lemma Map_set_keys (m : Map) k v : (Map_set m k v).*1 = seen (m.*1) k.
Proof.
  unfold seen. induction m as [|[k' v'] rest IH]; [done|]. cbn [Map_set].
  destruct (decide (k' = k)) as [->|Hne]; rewrite !fmap_cons; cbn [fst].
  - rewrite decide_True; [done|left].
  - rewrite IH. destruct (decide (k ∈ rest.*1)) as [Hin|Hin].
    + rewrite decide_True; [done|by right].
    + rewrite decide_False; [done|]. intros [?|?]%elem_of_cons; congruence.
Qed.

Lemma seen_NoDup acc k : NoDup acc → NoDup (seen acc k).
Proof.
  intros Hnd. unfold seen. case_decide; [done|].
  apply NoDup_app. split; [done|]. split; [|apply NoDup_singleton].
  intros x Hx ->%list_elem_of_singleton. done.
Qed.

Lemma foldl_seen_NoDup ks : ∀ acc, NoDup acc → NoDup (foldl seen acc ks).
Proof. induction ks as [|k ks IH]; intros acc Hnd; [done|]. by apply IH, seen_NoDup. Qed.

Lemma foldl_seen_head ks : ∀ a acc, ∃ rest, foldl seen (a :: acc) ks = a :: rest.
Proof.
  induction ks as [|k ks IH]; intros a acc; [by exists acc|]. simpl.
  unfold seen at 2. case_decide; [apply IH|]. apply (IH a (acc ++ [k])).
Qed.

Lemma foldl_seen_elem ks : ∀ acc K, K ∈ foldl seen acc ks ↔ K ∈ acc ∨ K ∈ ks.
Proof.
  induction ks as [|k ks IH]; intros acc K; simpl.
  { split; [by left|]. intros [?|?%elem_of_nil]; done. }
  rewrite IH. unfold seen. case_decide as Hk.
  - rewrite elem_of_cons. split; [naive_solver|].
    intros [?|[->|?]]; [by left|by left|by right].
  - rewrite elem_of_app, list_elem_of_singleton, elem_of_cons. naive_solver.
Qed.

Section OrderedTableFacts.
Context `{Host}.

(** The map refines the table: the same error, or the same records, with
    the keys in the order in which [ks] were set after those of [m]. *)
Definition refines (m : Map) (ks : list Token)
    (x : Error + Map) (y : Error + gmap Token Record_) : Prop :=
  match x, y with
  | inl e, inl e' => e = e'
  | inr m', inr g' => list_to_map m' = g' ∧ m'.*1 = foldl seen (m.*1) ks
  | _, _ => False
  end.

Lemma processProviderM_refines m p token :
  refines m (if multi p then [token; TProvider (oid p)] else [token])
    (processProviderM m p token) (processProvider (list_to_map m) p token).
Proof.
  unfold refines, processProviderM, processProvider.
  destruct (resolveProvider p) as [e|resolved]; [done|].
  destruct (multi p).
  - rewrite Map_get_lookup.
    destruct (list_to_map m !! token) as [mp|].
    + destruct (decide (fn mp = MULTI_PROVIDER_FN)); [|done].
      rewrite Map_get_lookup, Map_set_insert.
      destruct (_ !! TProvider (oid p)) as [rec|].
      * destruct (decide (fn rec = MULTI_PROVIDER_FN)); [done|].
        (split; [by rewrite !Map_set_insert|by rewrite !Map_set_keys]).
      * (split; [by rewrite !Map_set_insert|by rewrite !Map_set_keys]).
    + rewrite Map_get_lookup, Map_set_insert.
      destruct (_ !! TProvider (oid p)) as [rec|].
      * destruct (decide (fn rec = MULTI_PROVIDER_FN)); [done|].
        (split; [by rewrite !Map_set_insert|by rewrite !Map_set_keys]).
      * (split; [by rewrite !Map_set_insert|by rewrite !Map_set_keys]).
  - rewrite Map_get_lookup.
    destruct (list_to_map m !! token) as [rec|].
    + destruct (decide (fn rec = MULTI_PROVIDER_FN)); [done|].
      (split; [by rewrite !Map_set_insert|by rewrite !Map_set_keys]).
    + (split; [by rewrite !Map_set_insert|by rewrite !Map_set_keys]).
Qed.

Lemma recursivelyProcessProvidersM_refines provider : ∀ m,
  refines m (flatten provider ≫= tokens_of)
    (recursivelyProcessProvidersM m provider)
    (recursivelyProcessProviders (list_to_map m) provider).
Proof.
  induction provider as [|items IH|f|p|] using StaticProvider_nested_ind; intros m.
  - done.
  - rewrite flatten_PArray.
    change (recursivelyProcessProvidersM m (PArray items)) with
      ((fix loop (records : Map) (items : list StaticProvider) :=
          match items with
          | [] => inr records
          | item :: rest =>
              match recursivelyProcessProvidersM records item with
              | inl e => inl e
              | inr records => loop records rest
              end
          end) m items).
    rewrite recursivelyProcessProviders_PArray.
    revert m. induction IH as [|item rest Hitem _ IHrest]; intros m; [done|].
    specialize (Hitem m). unfold refines in Hitem |- *.
    change ((item :: rest) ≫= flatten) with (flatten item ++ (rest ≫= flatten)).
    rewrite bind_app, foldl_app.
    destruct (recursivelyProcessProvidersM m item) as [e|m1],
             (recursivelyProcessProviders (list_to_map m) item) as [e'|g1]; try done.
    destruct Hitem as [<- <-]. apply IHrest.
  - done.
  - simpl. destruct (provide p) as [token|]; [|done]. unfold resolveForwardRef.
    rewrite app_nil_r. apply processProviderM_refines.
  - done.
Qed.

(** X17. [toString] of an injector lists the tokens of its table between
    [StaticInjector[] and []], separated by commas, in the order in which
    they were first registered: the [Injector] token first, then the token
    of each provider of the flattened list, a multi provider being followed
    by its own literal; a token registered again keeps its place and is
    listed once. The map that [toString] goes through holds the records of
    the table. *)
Theorem toString_in_registration_order self providers parent inj :
  StaticInjector_new self providers parent = inr inj →
  ∃ m rest,
    StaticInjector_records self providers = inr m ∧
    list_to_map m = records_of inj ∧
    m.*1 = foldl seen [Injector_token] (flatten (PArray providers) ≫= tokens_of) ∧
    m.*1 = Injector_token :: rest ∧ NoDup (m.*1) ∧
    (∀ K, K ∈ m.*1 ↔ is_Some (record_at inj O K)) ∧
    toString m = js "StaticInjector[" ++ join (js ", ") (stringify <$> m.*1) ++ js "]".
Proof.
  intros Hnew.
  pose proof (recursivelyProcessProvidersM_refines (PArray providers)
                [(Injector_token, mkRecord IDENT false [] (Value (VInjector self)))])
    as Href.
  unfold refines, StaticInjector_records, StaticInjector_new in *.
  change (list_to_map [(Injector_token, mkRecord IDENT false [] (Value (VInjector self)))])
    with (<[Injector_token := mkRecord IDENT false [] (Value (VInjector self))]>
            (∅ : gmap Token Record_)) in Href.
  destruct (recursivelyProcessProvidersM _ _) as [e|m]; 
    destruct (recursivelyProcessProviders _ _) as [e'|records]; try done.
  injection Hnew as <-. destruct Href as [Hmap Hkeys]. cbn [fmap list_fmap fst] in Hkeys.
  destruct (foldl_seen_head (flatten (PArray providers) ≫= tokens_of) Injector_token [])
    as [rest Hrest].
  exists m, rest. split; [done|]. split; [done|]. split; [done|].
  split; [by rewrite Hkeys|]. split; [|split; [|done]].
  - rewrite Hkeys. apply foldl_seen_NoDup, NoDup_singleton.
  - intros K. cbn [record_at]. rewrite <- Hmap, <- Map_get_lookup.
    clear. induction m as [|[k v] m IH]; simpl.
    + split; [by intros ?%elem_of_nil|by intros [? ?]].
    + rewrite elem_of_cons. destruct (decide (k = K)) as [->|Hne].
      * split; [by eexists|by left].
      * rewrite <- IH. naive_solver.
Qed.

End OrderedTableFacts.

(** The witness of X17: [X] is registered twice in [nestedProviders] and
    listed once, before [A]. *)
Lemma toString_in_registration_order_witness :
  StaticInjector_new (H := Demo.host) 1 nestedProviders NULL_INJECTOR = inr nested ∧
  ∃ m,
    StaticInjector_records (H := Demo.host) 1 nestedProviders = inr m ∧
    m.*1 = [Injector_token; Demo.X; Demo.A] ∧
    toString (H := Demo.host) m = js "StaticInjector[F0, T4, T1]".
Proof.
  assert (StaticInjector_new (H := Demo.host) 1 nestedProviders NULL_INJECTOR = inr nested)
    as Hnew by by vm_compute.
  split; [exact Hnew|].
  destruct (toString_in_registration_order (H := Demo.host) 1 nestedProviders NULL_INJECTOR
              nested Hnew) as (m & rest & Hm & _ & Hkeys & _ & _ & _ & Hstr).
  exists m. split; [exact Hm|]. split; [by rewrite Hkeys|].
  rewrite Hstr, Hkeys. by vm_compute.
Defined.

(** * [getClosureSafeProperty]

    The name under which a property survives minification: the key of the
    object whose value is the marker [GET_PROPERTY_NAME]. An object is the
    list of its enumerable properties, in the order of [for ... in]. *)

Inductive property_value :=
| GET_PROPERTY_NAME
| AnyOther (id : nat).

#[global] Instance property_value_eq_dec : EqDecision property_value.
Proof. solve_decision. Defined.

Fixpoint getClosureSafeProperty (objWithPropertyToExtract : list (string * property_value))
    : Error + string :=
  match objWithPropertyToExtract with
  | [] => inl (new_Error (js "!prop"))
  | (key, v) :: rest =>
      if decide (v = GET_PROPERTY_NAME) then inr key else getClosureSafeProperty rest
  end.

(** [{provide: String, useValue: GET_PROPERTY_NAME}]. *)
Definition USE_VALUE : Error + string :=
  getClosureSafeProperty [("provide"%string, AnyOther 0);
                          ("useValue"%string, GET_PROPERTY_NAME)].

(** X18. [getClosureSafeProperty] returns the first key of the object whose
    value is the marker, and throws [!prop] exactly when no property holds
    the marker; for the literal it is used on, the key is [useValue]. *)
Theorem getClosureSafeProperty_first obj :
  (∀ key, getClosureSafeProperty obj = inr key ↔
          ∃ l1 l2, obj = l1 ++ (key, GET_PROPERTY_NAME) :: l2 ∧
                   ∀ kv, kv ∈ l1 → kv.2 ≠ GET_PROPERTY_NAME) ∧
  ((∃ e, getClosureSafeProperty obj = inl e) ↔
   ∀ kv, kv ∈ obj → kv.2 ≠ GET_PROPERTY_NAME) ∧
  (∀ e, getClosureSafeProperty obj = inl e → message e = js "!prop") ∧
  USE_VALUE = inr "useValue"%string.
Proof.
  split; [|split; [|split; [|done]]].
  - intros key. induction obj as [|[k v] rest IH]; simpl.
    + split; [done|]. intros (l1 & l2 & Hobj & _). by destruct l1.
    + destruct (decide (v = GET_PROPERTY_NAME)) as [->|Hv].
      * split.
        -- intros [= ->]. exists [], rest. split; [done|]. by intros kv ?%elem_of_nil.
        -- intros (l1 & l2 & Hobj & Hl1). destruct l1 as [|kv l1].
           ++ by injection Hobj as -> _.
           ++ injection Hobj as <- _. by destruct (Hl1 (k, GET_PROPERTY_NAME) ltac:(left)).
      * rewrite IH. split.
        -- intros (l1 & l2 & -> & Hl1). exists ((k, v) :: l1), l2. split; [done|].
           intros kv [->|?]%elem_of_cons; [done|by apply Hl1].
        -- intros (l1 & l2 & Hobj & Hl1). destruct l1 as [|kv l1].
           ++ injection Hobj as _ Hv'. congruence.
           ++ injection Hobj as _ ->. exists l1, l2. split; [done|].
              intros kv' Hkv'. apply Hl1. by right.
  - induction obj as [|[k v] rest IH]; simpl.
    + split; [by intros _ kv ?%elem_of_nil|]. intros _. by eexists.
    + destruct (decide (v = GET_PROPERTY_NAME)) as [->|Hv].
      * split; [by intros [e ?]|]. intros Hno.
        by destruct (Hno (k, GET_PROPERTY_NAME) ltac:(left)).
      * rewrite IH. split.
        -- intros Hno kv [->|?]%elem_of_cons; [done|by apply Hno].
        -- intros Hno kv Hkv. apply Hno. by right.
  - intros e. induction obj as [|[k v] rest IH]; simpl; [by intros [= <-]|].
    by destruct (decide (v = GET_PROPERTY_NAME)).
Qed.

(** * The layout of a message *)

Section Layout.
Context `{Host}.

(** [text.replace(NEW_LINE, '\n  ')]: every line but the first is moved two
    columns to the right. *)
Definition indent (text : jsstring) : jsstring := replace_NEW_LINE (LF :: js "  ") text.

Definition no_LF (text : jsstring) : Prop := Forall (λ c, c ≠ LF) text.

Lemma indent_app a b : indent (a ++ b) = indent a ++ indent b.
Proof. unfold indent, replace_NEW_LINE. apply bind_app. Qed.

Lemma indent_no_LF text : no_LF text → indent text = text.
Proof.
  unfold indent, replace_NEW_LINE. induction 1 as [|c text Hc _ IH]; [done|].
  change ((c :: text) ≫= (λ c, if (c =? LF)%N then LF :: js "  " else [c]))
    with ((if (c =? LF)%N then LF :: js "  " else [c])
            ++ (text ≫= (λ c, if (c =? LF)%N then LF :: js "  " else [c]))).
  rewrite IH. by rewrite (proj2 (N.eqb_neq c LF) Hc).
Qed.

Lemma indent_LF : indent [LF] = LF :: js "  ".
Proof. done. Qed.

(** The first line of every message of [formatError]. *)
Definition header (obj : ErrObj) : jsstring :=
  js "StaticInjectorError["
  ++ match obj with
     | ObjPath path => join (js " -> ") (stringify <$> path)
     | _ => objContext obj
     end
  ++ js "]: ".

(** X19. The layout of a message of [formatError], as [get] calls it with
    a line feed before the message of the error it decorates: a message that
    starts with the marker [NO_NEW_LINE] follows the header on the same
    line, the marker dropped; any other message starts on a line of its own
    below the header; and in both cases every line of the message after the
    first is moved two columns to the right, so that nested decorations
    nest on the page. *)
Theorem formatError_layout obj text :
  formatError (LF :: NO_NEW_LINE ++ text) obj = header obj ++ indent text ∧
  (head text ≠ Some 629%N →
   formatError (LF :: text) obj = header obj ++ LF :: js "  " ++ indent text) ∧
  (no_LF text → indent text = text) ∧
  (∀ a b, indent (a ++ LF :: b) = indent a ++ LF :: js "  " ++ indent b).
Proof.
  split; [|split; [|split]].
  - unfold formatError, header, indent. cbn [NO_NEW_LINE app]. simpl.
    by rewrite <- !app_assoc.
  - intros Hhead.
    assert (formatError (LF :: text) obj = header obj ++ indent ([LF] ++ text)) as ->.
    { unfold formatError, header, indent. destruct text as [|c text].
      - by rewrite <- !app_assoc.
      - assert ((c =? 629)%N = false) as Hc.
        { apply N.eqb_neq. intros ->. by destruct Hhead. }
        cbv iota beta. change ((LF =? LF)%N) with true. rewrite Hc. cbn [andb].
        by rewrite <- !app_assoc. }
    by rewrite indent_app, indent_LF.
  - apply indent_no_LF.
  - intros a b. change (LF :: b) with ([LF] ++ b). by rewrite !indent_app, indent_LF.
Qed.

End Layout.

Section NotFoundLayout.
Context `{Host}.

Definition pad (n : nat) : jsstring := replicate n 32%N.

(** The message after [k] static injectors, the first header [j] levels
    deep: a header, and the rest one level deeper on the next line. *)
Fixpoint layout (T : Token) (j k : nat) : jsstring :=
  match k with
  | O => message (nullInjectorError T)
  | S k => header (ObjPath [T]) ++ LF :: pad (2 * S j) ++ layout T (S j) k
  end.

Lemma no_LF_js_decide (text : jsstring) :
  forallb (λ c, negb (c =? LF)%N) text = true → no_LF text.
Proof.
  unfold no_LF. induction text as [|c text IH]; [done|]. simpl.
  intros [Hc Ht]%andb_true_iff. constructor; [|by apply IH].
  apply N.eqb_neq. by destruct (c =? LF)%N.
Qed.

Lemma no_LF_pad n : no_LF (pad n).
Proof. unfold no_LF, pad. induction n; by constructor. Qed.

Lemma no_LF_header T : no_LF (stringify T) → no_LF (header (ObjPath [T])).
Proof.
  intros HT. unfold header, no_LF. cbn [fmap list_fmap join].
  apply Forall_app. split; [by apply no_LF_js_decide|].
  apply Forall_app. split; [done|by apply no_LF_js_decide].
Qed.

Lemma no_LF_base T : no_LF (stringify T) → no_LF (message (nullInjectorError T)).
Proof.
  intros HT. unfold nullInjectorError, new_Error, no_LF. cbn [message].
  apply Forall_app. split; [by apply no_LF_js_decide|].
  apply Forall_app. split; [done|by apply no_LF_js_decide].
Qed.

Lemma indent_layout T k : ∀ j,
  no_LF (stringify T) → indent (layout T j k) = layout T (S j) k.
Proof.
  induction k as [|k IH]; intros j HT; cbn [layout].
  - by apply indent_no_LF, no_LF_base.
  - change (LF :: pad (2 * S j) ++ layout T (S j) k)
      with ([LF] ++ pad (2 * S j) ++ layout T (S j) k).
    rewrite !indent_app, indent_LF, IH by done.
    rewrite (indent_no_LF _ (no_LF_header T HT)), (indent_no_LF _ (no_LF_pad _)).
    replace (2 * S (S j)) with (S (S (2 * S j))) by lia. done.
Qed.

Lemma layout_head T j k : head (layout T j k) ≠ Some 629%N.
Proof. destruct k; done. Qed.

Lemma relay_message T e :
  ngTempTokenPath e = None → head (message e) ≠ Some 629%N →
  message (relay T e) = header (ObjPath [T]) ++ LF :: js "  " ++ indent (message e) ∧
  ngTempTokenPath (relay T e) = None.
Proof.
  intros Hpath Hhead. unfold relay, decorate, addToPath. cbn [message ngTempTokenPath].
  rewrite Hpath. cbn [default]. split; [|done].
  assert (formatError (LF :: message e) (ObjPath [T])
          = header (ObjPath [T]) ++ indent ([LF] ++ message e)) as ->.
  { unfold formatError, header, indent. destruct (message e) as [|c text].
    - by rewrite <- !app_assoc.
    - assert ((c =? 629)%N = false) as Hc.
      { apply N.eqb_neq. intros ->. by destruct Hhead. }
      cbv iota beta. change ((LF =? LF)%N) with true. rewrite Hc. cbn [andb].
      by rewrite <- !app_assoc. }
  by rewrite indent_app, indent_LF.
Qed.

Lemma notFoundError_layout T k :
  no_LF (stringify T) →
  message (notFoundError k T) = layout T 0 k ∧ ngTempTokenPath (notFoundError k T) = None.
Proof.
  intros HT. unfold notFoundError. induction k as [|k [IHm IHp]]; [done|].
  change (Nat.iter (S k) (relay T) (nullInjectorError T))
    with (relay T (Nat.iter k (relay T) (nullInjectorError T))).
  destruct (relay_message T (Nat.iter k (relay T) (nullInjectorError T)) IHp) as [-> ->].
  { rewrite IHm. apply layout_head. }
  split; [|done]. cbn [layout]. by rewrite IHm, indent_layout.
Qed.

(** X20. The message for a token that is nowhere registered, asked of an
    injector with [k] static injectors down to the null injector: [k]
    header lines [StaticInjectorError[token]: ], each two columns further
    to the right than the one before, and the null injector's message on a
    last line, two columns further again. (The name of the token is
    supposed to be on one line.) *)
Theorem not_found_message_layout inj T e inj' tr :
  absent inj T → no_LF (stringify T) →
  get inj T THROW_IF_NOT_FOUND = (Abrupt e, inj', tr) →
  message e = layout T 0 (depth inj).
Proof.
  intros Habs HT Hget. rewrite (get_absent inj T _ Habs) in Hget.
  injection Hget as <- _ _. apply (notFoundError_layout T (depth inj) HT).
Qed.

End NotFoundLayout.

(** The witness of X20: two header lines for [Demo.emptyChild]. *)
Lemma not_found_message_layout_witness :
  absent Demo.emptyChild Demo.X ∧ no_LF (@stringify Demo.host Demo.X) ∧
  ∃ e inj' tr,
    get (H := Demo.host) Demo.emptyChild Demo.X THROW_IF_NOT_FOUND = (Abrupt e, inj', tr) ∧
    message e = layout (H := Demo.host) Demo.X 0 2 ∧
    layout (H := Demo.host) Demo.X 0 2
      = js "StaticInjectorError[T4]: " ++ [LF]
        ++ js "  StaticInjectorError[T4]: " ++ [LF]
        ++ js "    NullInjectorError: No provider for T4!".
Proof.
  assert (absent Demo.emptyChild Demo.X) as Habs by (by intros [|[|[|d]]]).
  assert (no_LF (@stringify Demo.host Demo.X)) as HT
    by (by apply no_LF_js_decide).
  split; [exact Habs|]. split; [exact HT|].
  destruct (get (H := Demo.host) Demo.emptyChild Demo.X THROW_IF_NOT_FOUND)
    as [[r inj'] tr] eqn:E.
  destruct r as [v|e|]; [by vm_compute in E| |by vm_compute in E].
  exists e, inj', tr. split; [done|]. split; [|by vm_compute].
  exact (not_found_message_layout (H := Demo.host) Demo.emptyChild Demo.X e inj' tr
           Habs HT E).
Defined.

(** * Which provider literals are accepted *)

Section Accepted.
Context `{Host}.

(** A literal says how its dependencies are found: by [deps], or by being a
    [useValue] or [useExisting] provider. *)
Definition says_deps (p : ProviderObj) : Prop :=
  is_Some (providerDeps p) ∨ is_Some (useExisting p) ∨ is_Some (useValue p).

(** A literal says how the value is made. *)
Definition says_recipe (p : ProviderObj) : Prop :=
  is_Some (useValue p) ∨ is_Some (useFactory p) ∨ is_Some (useExisting p) ∨
  is_Some (useClass p) ∨ ∃ f, provide p = Some (TFunction f).

Lemma computeDeps_cases p :
  (¬ says_deps p ∧
   computeDeps p = inl (staticError (js "'deps' required") (ObjProvider (PObject p)))) ∨
  (∃ deps, says_deps p ∧ computeDeps p = inr deps).
Proof.
  unfold says_deps, computeDeps.
  destruct (providerDeps p) as [[|d ds]|]; destruct (useExisting p) as [e|];
    destruct (useValue p) as [v|];
    try (right; eexists; split; [|done]; eauto 10; fail).
  left. split; [|done]. by intros [[? ?]|[[? ?]|[? ?]]].
Qed.

(** X21. [resolveProvider] accepts a provider literal exactly when it says
    how its dependencies are found and how its value is made. A literal
    without [deps] that is neither a [useValue] nor a [useExisting] provider
    is refused with ['deps' required], whatever else it holds; one with
    dependencies but without [useValue], [useFactory], [useExisting] or
    [useClass] and whose [provide] is not a function is refused as not
    newable. Of the recipes, the first present in that order decides, and
    only a class or a newable [provide] is called with [new]. *)
Theorem resolveProvider_accepts p :
  ((∃ r, resolveProvider p = inr r) ↔ says_deps p ∧ says_recipe p) ∧
  (¬ says_deps p →
   resolveProvider p
     = inl (staticError (js "'deps' required") (ObjProvider (PObject p)))) ∧
  (says_deps p → ¬ says_recipe p →
   resolveProvider p
     = inl (staticError
              (js "StaticProvider does not have [useValue|useFactory|useExisting|useClass] or [provide] is not newable")
              (ObjProvider (PObject p)))) ∧
  (∀ r, resolveProvider p = inr r →
        (∀ v, useValue p = Some v → value r = Value v ∧ fn r = IDENT ∧ useNew r = false) ∧
        (useValue p = None → value r = EMPTY) ∧
        (∀ f, useValue p = None → useFactory p = Some f →
              fn r = UserFn f ∧ useNew r = false) ∧
        (useNew r = true ↔
         useValue p = None ∧ useFactory p = None ∧ useExisting p = None)).
Proof.
  destruct (computeDeps_cases p) as [[Hnd Hcd]|(deps & Hd & Hcd)].
  { (* no way to find the dependencies *)
    unfold resolveProvider. rewrite Hcd.
    split; [|split; [done|split; [done|done]]].
    split; [by intros [r ?]|]. by intros [? _]. }
  unfold resolveProvider. rewrite Hcd. unfold says_recipe, resolveForwardRef.
  destruct (useValue p) as [v|] eqn:Hv.
  { split; [split; [intros _; split; [done|left; eauto]|by eexists]|].
    split; [done|]. split; [intros _ Hn; destruct Hn; left; eauto|].
    intros r [= <-]. cbn. split; [by intros ? [= <-]|]. split; [done|].
    split; [done|]. split; [done|]. by intros (? & _). }
  destruct (useFactory p) as [f|] eqn:Hf.
  { split; [split; [intros _; split; [done|right; left; eauto]|by eexists]|].
    split; [done|]. split; [intros _ Hn; destruct Hn; right; left; eauto|].
    intros r [= <-]. cbn. split; [done|]. split; [done|].
    split; [by intros ? _ [= <-]|]. split; [done|]. by intros (_ & ? & _). }
  destruct (useExisting p) as [e|] eqn:He.
  { split; [split; [intros _; split; [done|right; right; left; eauto]|by eexists]|].
    split; [done|]. split; [intros _ Hn; destruct Hn; right; right; left; eauto|].
    intros r [= <-]. cbn. split; [done|]. split; [done|].
    split; [done|]. split; [done|]. by intros (_ & _ & ?). }
  destruct (useClass p) as [c|] eqn:Hc.
  { split; [split; [intros _; split; [done|right; right; right; left; eauto]|by eexists]|].
    split; [done|]. split; [intros _ Hn; destruct Hn; right; right; right; left; eauto|].
    intros r [= <-]. cbn. split; [done|]. split; [done|].
    split; [done|]. done. }
  destruct (provide p) as [[g|g|g]|] eqn:Hp.
  { split; [split; [intros _; split; [done|right; right; right; right; eauto]|by eexists]|].
    split; [done|]. split; [intros _ Hn; destruct Hn; right; right; right; right; eauto|].
    intros r [= <-]. cbn. split; [done|]. split; [done|].
    split; [done|]. done. }
  all: split; [split; [by intros [r ?]|];
               intros [_ [[? ?]|[[? ?]|[[? ?]|[[? ?]|[? ?]]]]]]; done|].
  all: split; [done|]. all: split; [done|]. all: done.
Qed.

End Accepted.

(** * The first entry that fails *)

Section FirstFailure.
Context `{Host}.

(** X22. The constructor reports the first entry that fails: when the
    entries before it build an injector and the entry is refused on the
    table they leave, the whole list is refused with the error of that
    entry, whatever comes after it. A bare class or function is refused as
    not supported, and any other value that is not a provider literal with
    a truthy [provide] as unexpected, on any table. *)
Theorem first_failure_is_reported :
  (∀ self l1 entry l2 parent inj1 e,
     StaticInjector_new self l1 parent = inr inj1 →
     recursivelyProcessProviders (records_of inj1) entry = inl e →
     StaticInjector_new self (l1 ++ entry :: l2) parent = inl e) ∧
  (∀ records f,
     recursivelyProcessProviders records (PFunction f)
       = inl (staticError (js "Function/Class not supported")
                (ObjProvider (PFunction f)))) ∧
  (∀ records p,
     provide p = None →
     recursivelyProcessProviders records (PObject p)
       = inl (staticError (js "Unexpected provider") (ObjProvider (PObject p)))) ∧
  (∀ records,
     recursivelyProcessProviders records POther
       = inl (staticError (js "Unexpected provider") (ObjProvider POther))).
Proof.
  split; [|split; [done|split; [|done]]].
  - intros self l1 entry l2 parent inj1 e Hnew Hentry.
    unfold StaticInjector_new in *.
    rewrite recursivelyProcessProviders_app.
    destruct (recursivelyProcessProviders _ (PArray l1)) as [e1|records1]; [done|].
    injection Hnew as <-. cbn [records_of] in Hentry.
    rewrite recursivelyProcessProviders_PArray. by rewrite Hentry.
  - intros records p Hp. simpl. by rewrite Hp.
Qed.

End FirstFailure.

(** The witness of X22: a bare class after the entries of [nestedProviders],
    and a regular provider of [X] after it. *)
Lemma first_failure_is_reported_witness :
  StaticInjector_new (H := Demo.host) 1 nestedProviders NULL_INJECTOR = inr nested ∧
  StaticInjector_new (H := Demo.host) 1
    (nestedProviders ++ PFunction 7 :: [Demo.valueProvider 4 Demo.X (VNumber 3)])
    NULL_INJECTOR
  = inl (staticError (H := Demo.host) (js "Function/Class not supported")
           (ObjProvider (PFunction 7))).
Proof.
  assert (StaticInjector_new (H := Demo.host) 1 nestedProviders NULL_INJECTOR = inr nested)
    as Hnew by by vm_compute.
  split; [exact Hnew|].
  apply (proj1 (first_failure_is_reported (H := Demo.host)) 1 nestedProviders (PFunction 7)
           [Demo.valueProvider 4 Demo.X (VNumber 3)] NULL_INJECTOR nested _ Hnew).
  exact (proj1 (proj2 (first_failure_is_reported (H := Demo.host))) (records_of nested) 7).
Defined.
